(** * Unrolled linked list: a shallow embedding of [lib/unrolled_list.h]

    The container [unrolled_list<T, NodeMaxSize, Allocator>] keeps its
    elements in nodes of [NodeMaxSize] slots, linked in both directions.
    The embedding keeps the pointer structure of the source:

    - a [Node*] is an [option ptr], [None] being [nullptr], and the nodes
      live in an arena indexed by address ([heap]); allocation takes the
      next address, deallocation empties the cell;
    - [size_t] is a 64-bit unsigned integer: a [Z] in [0, 2^64) with the
      wrap-around of [++], [--] and [-] written out ([wrap]);
    - the raw buffer [data] of a node is a list of [NodeMaxSize] slots; a
      slot is [raw] (never constructed, destroyed, or moved from) or holds
      an object ([obj x]);
    - a member function is a computation in the monad [M]: it reads and
      writes the container and its arena, and it has no result ([None])
      where the C++ program has undefined behaviour (a null or dangling
      node pointer dereferenced, a slot outside the buffer accessed, a raw
      slot read through a cursor).

    A loop whose number of iterations follows from its bounds is a
    recursion on that number; the other loops (traversals,
    [erase(first, last)], [std::equal], [clear], [resize], the loops that
    copy a container) take a [fuel] argument and have no result when it
    runs out, so that their properties are stated for every sufficient
    [fuel].

    The allocator is the stateless [std::allocator]; exceptions of element
    constructors are not modelled. *)

From Stdlib Require Import ZArith List Lia Bool.
From stdpp Require Import base option list.

Local Open Scope Z_scope.

(** ** [size_t] *)

Definition size_t := Z.
Definition SIZE_WIDTH : Z := 64.
Definition wrap (z : Z) : size_t := z mod 2 ^ SIZE_WIDTH.

(** A node pointer: an address in the arena. [nullptr] is [None]. *)
Definition ptr := nat.

Definition ptr_eqb (p q : option ptr) : bool :=
  match p, q with
  | None, None => true
  | Some a, Some b => Nat.eqb a b
  | _, _ => false
  end.

(** ** Raw buffers *)

Inductive slot (T : Type) : Type :=
| raw : slot T
| obj (x : T) : slot T.
Arguments raw {T}.
Arguments obj {T} x.

Section Buffer.
Variable T : Type.

(** [data[i]] read as an rvalue. *)
Definition rd (d : list (slot T)) (i : size_t) : option (slot T) :=
  if (0 <=? i) && (i <? Z.of_nat (length d)) then d !! Z.to_nat i else None.

(** [data[i]] overwritten (placement new, assignment, or destroy). *)
Definition wr (d : list (slot T)) (i : size_t) (x : slot T) : option (list (slot T)) :=
  if (0 <=? i) && (i <? Z.of_nat (length d)) then Some (<[Z.to_nat i := x]> d) else None.

(** [data[dst] = std::move(data[src])]: the source slot is left moved
    from. *)
Definition move_slot (d : list (slot T)) (src dst : size_t) : option (list (slot T)) :=
  x ← rd d src;
  d1 ← wr d dst x;
  wr d1 src raw.

(** [for (size_t i = size; i > pos; --i) data[i] = std::move(data[i - 1]);]
    with [n] the number of iterations left and [i] the loop variable. *)
Fixpoint shift_up (n : nat) (i : size_t) (d : list (slot T)) : option (list (slot T)) :=
  match n with
  | O => Some d
  | S n' => d1 ← move_slot d (i - 1) i; shift_up n' (i - 1) d1
  end.

(** [for (size_t i = pos; i < size - 1; ++i) data[i] = std::move(data[i + 1]);] *)
Fixpoint shift_down (n : nat) (i : size_t) (d : list (slot T)) : option (list (slot T)) :=
  match n with
  | O => Some d
  | S n' => d1 ← move_slot d (i + 1) i; shift_down n' (i + 1) d1
  end.

(** The objects of a buffer prefix, when every slot of it holds one. *)
Fixpoint objects (d : list (slot T)) : option (list T) :=
  match d with
  | [] => Some []
  | raw :: _ => None
  | obj x :: d' => xs ← objects d'; Some (x :: xs)
  end.
End Buffer.

Arguments rd {T} d i.
Arguments wr {T} d i x.
Arguments move_slot {T} d src dst.
Arguments shift_up {T} n i d.
Arguments shift_down {T} n i d.
Arguments objects {T} d.

(** ** [struct Node] *)

Module Node.
Section Node.
Variable T : Type.
Variable NodeMaxSize : size_t.

Record t : Type := mk {
  size : size_t;          (* current number of elements *)
  next : option ptr;
  prev : option ptr;
  data : list (slot T)    (* NodeMaxSize slots *)
}.

Definition set_size (v : size_t) (nd : t) : t :=
  mk v (next nd) (prev nd) (data nd).
Definition set_next (v : option ptr) (nd : t) : t :=
  mk (size nd) v (prev nd) (data nd).
Definition set_prev (v : option ptr) (nd : t) : t :=
  mk (size nd) (next nd) v (data nd).
Definition set_data (v : list (slot T)) (nd : t) : t :=
  mk (size nd) (next nd) (prev nd) v.

(** [explicit Node(const Allocator&)] *)
Definition ctor : t :=
  mk 0 None None (replicate (Z.to_nat NodeMaxSize) raw).

(** [emplace_back(Args&&...)]: [new (data + size) T(args); ++size].
    The argument is the slot the object is built from: [obj v] for a
    value, the content of the moved slot for [std::move(data[i])]. *)
Definition emplace_back (x : slot T) (nd : t) : option t :=
  d ← wr (data nd) (size nd) x;
  Some (set_size (wrap (size nd + 1)) (set_data d nd)).

(** [insert(size_t pos, T&& value)] *)
Definition insert (pos : size_t) (value : T) (nd : t) : option t :=
  d ← shift_up (Z.to_nat (size nd - pos)) (size nd) (data nd);
  d1 ← wr d pos (obj value);
  Some (set_size (wrap (size nd + 1)) (set_data d1 nd)).

(** [erase(size_t pos)] *)
Definition erase (pos : size_t) (nd : t) : option t :=
  d ← wr (data nd) pos raw;
  d1 ← shift_down (Z.to_nat (wrap (size nd - 1) - pos)) pos d;
  Some (set_size (wrap (size nd - 1)) (set_data d1 nd)).

(** [allocator_traits::destroy(allocator, data + i)] *)
Definition destroy_at (i : size_t) (nd : t) : option t :=
  d ← wr (data nd) i raw;
  Some (set_data d nd).

Definition is_full (nd : t) : bool := size nd =? NodeMaxSize.

(** The elements of a node: the first [size] slots. *)
Definition elements (nd : t) : option (list T) :=
  objects (take (Z.to_nat (size nd)) (data nd)).
End Node.

Arguments mk {T} size next prev data.
Arguments size {T} t.
Arguments next {T} t.
Arguments prev {T} t.
Arguments data {T} t.
Arguments set_size {T} v nd.
Arguments set_next {T} v nd.
Arguments set_prev {T} v nd.
Arguments set_data {T} v nd.
Arguments ctor {T} NodeMaxSize.
Arguments emplace_back {T} x nd.
Arguments insert {T} pos value nd.
Arguments erase {T} pos nd.
Arguments destroy_at {T} i nd.
Arguments is_full {T} NodeMaxSize nd.
Arguments elements {T} nd.
End Node.

(** ** The container *)

Record iterator : Type := mk_iterator {
  current_node : option ptr;   (* pointer to current list node *)
  current_pos : size_t         (* current position in node's element array *)
}.

(** [iterator_impl::operator==] *)
Definition iterator_eqb (a b : iterator) : bool :=
  ptr_eqb (current_node a) (current_node b) && (current_pos a =? current_pos b).

Section Container.
Variable T : Type.

Record unrolled_list : Type := mk_list {
  head : option ptr;
  tail : option ptr;
  size_ : size_t;                    (* total number of elements *)
  heap : list (option (Node.t T))    (* the arena of the node allocator *)
}.

(** *** Computations on a container *)

Definition M (A : Type) : Type := unrolled_list -> option (A * unrolled_list).

Definition ret {A} (a : A) : M A := fun s => Some (a, s).
Definition bind {A B} (m : M A) (k : A -> M B) : M B :=
  fun s => match m s with
           | Some (a, s1) => k a s1
           | None => None
           end.
(** Undefined behaviour. *)
Definition ub {A} : M A := fun _ => None.
Definition lift {A} (o : option A) : M A :=
  fun s => match o with Some a => Some (a, s) | None => None end.
Definition when (b : bool) (m : M unit) : M unit := if b then m else ret tt.

Definition exec {A} (m : M A) (s : unrolled_list) : option unrolled_list :=
  snd <$> m s.
Definition eval {A} (m : M A) (s : unrolled_list) : option A :=
  fst <$> m s.
End Container.

Arguments mk_list {T} head tail size_ heap.
Arguments head {T} u.
Arguments tail {T} u.
Arguments size_ {T} u.
Arguments heap {T} u.
Arguments ret {T A} a s.
Arguments bind {T A B} m k s.
Arguments ub {T A} s.
Arguments lift {T A} o s.
Arguments when {T} b m s.
Arguments exec {T A} m s.
Arguments eval {T A} m s.

Notation "'let*' x ':=' m 'in' k" := (bind m (fun x => k))
  (at level 10, x name, m at level 100, k at level 200).
Notation "m '>>' k" := (bind m (fun _ => k))
  (at level 100, k at level 200, right associativity).

Section Operations.
Variable T : Type.
Variable NodeMaxSize : size_t.

Abbreviation ulist := (unrolled_list T).
Abbreviation node := (Node.t T).

(** *** Fields and the arena *)

Definition get_head : M T (option ptr) := fun s => Some (head s, s).
Definition get_tail : M T (option ptr) := fun s => Some (tail s, s).
Definition get_size : M T size_t := fun s => Some (size_ s, s).
Definition put_head (p : option ptr) : M T unit :=
  fun s => Some (tt, mk_list p (tail s) (size_ s) (heap s)).
Definition put_tail (p : option ptr) : M T unit :=
  fun s => Some (tt, mk_list (head s) p (size_ s) (heap s)).
Definition put_size (n : size_t) : M T unit :=
  fun s => Some (tt, mk_list (head s) (tail s) n (heap s)).

(** The node at an address, when one is allocated there. *)
Definition cell (h : list (option node)) (a : ptr) : option node :=
  match h !! a with
  | Some (Some nd) => Some nd
  | _ => None
  end.

(** [*p] read. *)
Definition load (p : option ptr) : M T node :=
  fun s => match p with
           | Some a => match cell (heap s) a with
                       | Some nd => Some (nd, s)
                       | None => None
                       end
           | None => None
           end.

(** [*p] written. *)
Definition store (p : option ptr) (nd : node) : M T unit :=
  fun s => match p with
           | Some a => match cell (heap s) a with
                       | Some _ =>
                           Some (tt, mk_list (head s) (tail s) (size_ s)
                                       (<[a := Some nd]> (heap s)))
                       | None => None
                       end
           | None => None
           end.

(** [p->field = v] *)
Definition assign (p : option ptr) (f : node -> node) : M T unit :=
  let* nd := load p in store p (f nd).

(** [p->method(...)] for a method of [Node] that changes the node. *)
Definition call (p : option ptr) (f : node -> option node) : M T unit :=
  let* nd := load p in
  let* nd1 := lift (f nd) in
  store p nd1.

(** [NodeAllocatorTraits::allocate] and [construct]. *)
Definition allocate : M T (option ptr) :=
  fun s => Some (Some (length (heap s)),
                 mk_list (head s) (tail s) (size_ s)
                   (heap s ++ [Some (Node.ctor NodeMaxSize)])).

(** [NodeAllocatorTraits::destroy] and [deallocate]. *)
Definition deallocate (p : option ptr) : M T unit :=
  fun s => match p with
           | Some a => match cell (heap s) a with
                       | Some _ =>
                           Some (tt, mk_list (head s) (tail s) (size_ s)
                                       (<[a := None]> (heap s)))
                       | None => None
                       end
           | None => None
           end.

Definition is_null (p : option ptr) : bool := ptr_eqb p None.

(** *** Private members *)

(** [Node* create_node(Node* prev_node = nullptr, Node* next_node = nullptr)] *)
Definition create_node (prev_node next_node : option ptr) : M T (option ptr) :=
  let* new_node := allocate in
  assign new_node (Node.set_prev prev_node) >>
  assign new_node (Node.set_next next_node) >>
  when (negb (is_null prev_node)) (assign prev_node (Node.set_next new_node)) >>
  when (negb (is_null next_node)) (assign next_node (Node.set_prev new_node)) >>
  let* h := get_head in
  when (is_null h) (put_head new_node) >>
  when (is_null next_node) (put_tail new_node) >>
  ret new_node.

(** [void destroy_node(Node* node) noexcept] *)
Definition destroy_node (nodep : option ptr) : M T unit :=
  let* nd := load nodep in
  when (negb (is_null (Node.prev nd)))
       (assign (Node.prev nd) (Node.set_next (Node.next nd))) >>
  let* nd := load nodep in
  when (negb (is_null (Node.next nd)))
       (assign (Node.next nd) (Node.set_prev (Node.prev nd))) >>
  let* nd := load nodep in
  let* h := get_head in
  when (ptr_eqb nodep h) (put_head (Node.next nd)) >>
  let* t := get_tail in
  when (ptr_eqb nodep t) (put_tail (Node.prev nd)) >>
  deallocate nodep.

(** *** Cursors *)

(** [iterator_impl& operator++()] *)
Definition incr (it : iterator) : M T iterator :=
  let* nd := load (current_node it) in
  if wrap (current_pos it + 1) <? Node.size nd
  then ret (mk_iterator (current_node it) (wrap (current_pos it + 1)))
  else ret (mk_iterator (Node.next nd) 0).

(** [iterator_impl& operator--()] *)
Definition decr (it : iterator) : M T iterator :=
  if current_pos it >? 0
  then ret (mk_iterator (current_node it) (wrap (current_pos it - 1)))
  else
    let* nd := load (current_node it) in
    if is_null (Node.prev nd)
    then ret (mk_iterator (Node.prev nd) 0)
    else
      let* pn := load (Node.prev nd) in
      ret (mk_iterator (Node.prev nd) (wrap (Node.size pn - 1))).

(** [reference operator*() const], read: the object in the slot. *)
Definition deref (it : iterator) : M T T :=
  let* nd := load (current_node it) in
  let* x := lift (rd (Node.data nd) (current_pos it)) in
  match x with
  | obj v => ret v
  | raw => ub
  end.

Definition begin : M T iterator :=
  let* h := get_head in ret (mk_iterator h 0).
Definition end_ : iterator := mk_iterator None 0.

(** [std::next(it, n)] *)
Fixpoint std_next (n : nat) (it : iterator) : M T iterator :=
  match n with
  | O => ret it
  | S n' => let* it1 := incr it in std_next n' it1
  end.

(** *** Public members *)

(** [unrolled_list()] *)
Definition ctor : ulist := mk_list None None 0 [].

Definition empty : M T bool :=
  let* n := get_size in ret (n =? 0).
Definition size : M T size_t := get_size.

(** [reference emplace_back(Args&&... args)] *)
Definition emplace_back (v : T) : M T unit :=
  let* e := empty in
  when e (create_node None None >> ret tt) >>
  let* t := get_tail in
  let* tn := load t in
  when (Node.is_full NodeMaxSize tn) (create_node t None >> ret tt) >>
  let* t := get_tail in
  call t (Node.emplace_back (obj v)) >>
  let* n := get_size in
  put_size (wrap (n + 1)).

Definition push_back (v : T) : M T unit := emplace_back v.

(** [void pop_back() noexcept] *)
Definition pop_back : M T unit :=
  let* e := empty in
  if e then ret tt
  else
    let* t := get_tail in
    let* tn := load t in
    call t (Node.destroy_at (Node.size tn - 1)) >>
    assign t (Node.set_size (wrap (Node.size tn - 1))) >>
    let* n := get_size in
    put_size (wrap (n - 1)) >>
    let* t := get_tail in
    let* tn := load t in
    let* h := get_head in
    when ((Node.size tn =? 0) && negb (ptr_eqb t h))
         (destroy_node t >> put_tail (Node.prev tn)).

(** [reference emplace_front(Args&&... args)] *)
Definition emplace_front (v : T) : M T unit :=
  let* e := empty in
  when e (create_node None None >> ret tt) >>
  let* h := get_head in
  let* hn := load h in
  when (Node.is_full NodeMaxSize hn)
       (let* new_node := create_node None h in put_head new_node) >>
  let* h := get_head in
  call h (Node.insert 0 v) >>
  let* n := get_size in
  put_size (wrap (n + 1)).

Definition push_front (v : T) : M T unit := emplace_front v.

(** [void pop_front() noexcept] *)
Definition pop_front : M T unit :=
  let* e := empty in
  if e then ret tt
  else
    let* h := get_head in
    call h (Node.destroy_at 0) >>
    let* hn := load h in
    call h (fun nd =>
              d ← shift_down (Z.to_nat (Node.size hn - 1)) 0 (Node.data nd);
              Some (Node.set_data d nd)) >>
    assign h (Node.set_size (wrap (Node.size hn - 1))) >>
    let* n := get_size in
    put_size (wrap (n - 1)) >>
    let* hn := load h in
    when (Node.size hn =? 0)
         (destroy_node h >>
          put_head (Node.next hn) >>
          when (is_null (Node.next hn)) (put_tail None)).

(** The loop of the split in [emplace]:
    [for (size_t i = half; i < NodeMaxSize; ++i) {
       new_node->emplace_back(std::move(node->data[i]));
       std::allocator_traits<Allocator>::destroy(allocator, node->data + i); }] *)
Fixpoint split_loop (n : nat) (i : size_t) (nodep new_node : option ptr) : M T unit :=
  match n with
  | O => ret tt
  | S n' =>
      let* nd := load nodep in
      let* x := lift (rd (Node.data nd) i) in
      call new_node (Node.emplace_back x) >>
      call nodep (Node.destroy_at i) >>
      split_loop n' (i + 1) nodep new_node
  end.

(** [iterator emplace(const_iterator pos, Args&&... args)] *)
Definition emplace (pos : iterator) (v : T) : M T iterator :=
  if iterator_eqb pos end_ then
    emplace_back v >>
    let* t := get_tail in
    let* tn := load t in
    ret (mk_iterator t (wrap (Node.size tn - 1)))
  else
    let nodep := current_node pos in
    let pos_in_node := current_pos pos in
    let* nd := load nodep in
    if negb (Node.is_full NodeMaxSize nd) then
      call nodep (Node.insert pos_in_node v) >>
      let* n := get_size in
      put_size (wrap (n + 1)) >>
      ret (mk_iterator nodep pos_in_node)
    else
      let* new_node := create_node nodep (Node.next nd) in
      let half := NodeMaxSize / 2 in
      split_loop (Z.to_nat (NodeMaxSize - half)) half nodep new_node >>
      assign nodep (Node.set_size half) >>
      assign new_node (Node.set_size (wrap (NodeMaxSize - half))) >>
      if pos_in_node <? half then
        call nodep (Node.insert pos_in_node v) >>
        let* n := get_size in
        put_size (wrap (n + 1)) >>
        ret (mk_iterator nodep pos_in_node)
      else
        call new_node (Node.insert (wrap (pos_in_node - half)) v) >>
        let* n := get_size in
        put_size (wrap (n + 1)) >>
        ret (mk_iterator new_node (wrap (pos_in_node - half))).

Definition insert (pos : iterator) (v : T) : M T iterator := emplace pos v.

(** [iterator erase(const_iterator pos) noexcept] *)
Definition erase (pos : iterator) : M T iterator :=
  let nodep := current_node pos in
  let pos_in_node := current_pos pos in
  call nodep (Node.erase pos_in_node) >>
  let* n := get_size in
  put_size (wrap (n - 1)) >>
  let* nd := load nodep in
  let* h := get_head in
  if (Node.size nd =? 0) && negb (ptr_eqb nodep h) then
    let next_node := Node.next nd in
    destroy_node nodep >>
    ret (mk_iterator next_node 0)
  else
    ret (mk_iterator nodep (if pos_in_node <? Node.size nd then pos_in_node else 0)).

(** [iterator erase(const_iterator first, const_iterator last) noexcept];
    [fuel] bounds the iterations of the loop. *)
Fixpoint erase_range (fuel : nat) (first last : iterator) : M T iterator :=
  if negb (iterator_eqb first last) then
    match fuel with
    | O => ub
    | S f => let* first1 := erase first in erase_range f first1 last
    end
  else ret first.

(** [unrolled_list(InputIt first, InputIt last)]: the elements of the
    input range are appended one by one. *)
Fixpoint push_back_all (xs : list T) : M T unit :=
  match xs with
  | [] => ret tt
  | x :: xs' => push_back x >> push_back_all xs'
  end.
Definition ctor_range (xs : list T) : option ulist := exec (push_back_all xs) ctor.

(** *** Traversals *)

(** The range-based loop [for (const auto& elem : list)], from [it] up to
    [last], collecting the elements it reads. *)
Fixpoint for_each (fuel : nat) (it last : iterator) : M T (list T) :=
  if iterator_eqb it last then ret []
  else match fuel with
       | O => ub
       | S f =>
           let* x := deref it in
           let* it1 := incr it in
           let* xs := for_each f it1 last in
           ret (x :: xs)
       end.

(** The elements met from [begin()] to [end()]. *)
Definition to_list (fuel : nat) : M T (list T) :=
  let* b := begin in for_each fuel b end_.

(** [std::distance(first, last)]: the number of cursor positions from
    [first] up to [last]. *)
Fixpoint distance (fuel : nat) (it last : iterator) : M T nat :=
  if iterator_eqb it last then ret O
  else match fuel with
       | O => ub
       | S f =>
           let* it1 := incr it in
           let* n := distance f it1 last in
           ret (S n)
       end.

(** [std::reverse_iterator<iterator>]: dereferencing [r] copies
    the base cursor, decrements the copy and dereferences it; [++r] is
    [--base]. The loop runs from [rbegin()], of base [end()], up to
    [rend()], of base [begin()], collecting the elements it reads. *)
Definition rderef (base : iterator) : M T T :=
  let* tmp := decr base in deref tmp.

Fixpoint rfor_each (fuel : nat) (base last : iterator) : M T (list T) :=
  if iterator_eqb base last then ret []
  else match fuel with
       | O => ub
       | S f =>
           let* x := rderef base in
           let* base1 := decr base in
           let* xs := rfor_each f base1 last in
           ret (x :: xs)
       end.

Definition to_list_reverse (fuel : nat) : M T (list T) :=
  let* b := begin in rfor_each fuel end_ b.
End Operations.

Arguments get_head {T} s.
Arguments get_tail {T} s.
Arguments get_size {T} s.
Arguments put_head {T} p s.
Arguments put_tail {T} p s.
Arguments put_size {T} n s.
Arguments cell {T} h a%_nat.
Arguments load {T} p s.
Arguments store {T} p nd s.
Arguments assign {T} p f s.
Arguments call {T} p f s.
Arguments allocate {T} NodeMaxSize s.
Arguments deallocate {T} p s.
Arguments create_node {T} NodeMaxSize prev_node next_node s.
Arguments destroy_node {T} nodep s.
Arguments incr {T} it s.
Arguments decr {T} it s.
Arguments deref {T} it s.
Arguments begin {T} s.
Arguments std_next {T} n it s.
Arguments ctor {T}.
Arguments empty {T} s.
Arguments size {T} s.
Arguments emplace_back {T} NodeMaxSize v s.
Arguments push_back {T} NodeMaxSize v s.
Arguments pop_back {T} s.
Arguments emplace_front {T} NodeMaxSize v s.
Arguments push_front {T} NodeMaxSize v s.
Arguments pop_front {T} s.
Arguments split_loop {T} n i nodep new_node s.
Arguments emplace {T} NodeMaxSize pos v s.
Arguments insert {T} NodeMaxSize pos v s.
Arguments erase {T} pos s.
Arguments erase_range {T} fuel first last s.
Arguments push_back_all {T} NodeMaxSize xs s.
Arguments ctor_range {T} NodeMaxSize xs.
Arguments for_each {T} fuel it last s.
Arguments to_list {T} fuel s.
Arguments distance {T} fuel it last s.
Arguments rderef {T} base s.
Arguments rfor_each {T} fuel base last s.
Arguments to_list_reverse {T} fuel s.

(** *** Comparison operators *)

Section Comparison.
Context {T : Type} `{EqDecision T}.

(** [std::equal(first1, last1, first2)], the first range in [lhs], the
    second in [rhs]; the elements are compared with [T]'s [operator==]. *)
Fixpoint std_equal (fuel : nat) (lhs rhs : unrolled_list T)
         (first1 last1 first2 : iterator) : option bool :=
  if iterator_eqb first1 last1 then Some true
  else match fuel with
       | O => None
       | S f =>
           x ← eval (deref first1) lhs;
           y ← eval (deref first2) rhs;
           if bool_decide (x = y) then
             next1 ← eval (incr first1) lhs;
             next2 ← eval (incr first2) rhs;
             std_equal f lhs rhs next1 last1 next2
           else Some false
       end.

(** [bool operator==(const unrolled_list&, const unrolled_list&)] *)
Definition operator_eq (fuel : nat) (lhs rhs : unrolled_list T) : option bool :=
  n1 ← eval size lhs;
  n2 ← eval size rhs;
  if negb (n1 =? n2) then Some false
  else
    b1 ← eval begin lhs;
    b2 ← eval begin rhs;
    std_equal fuel lhs rhs b1 end_ b2.

(** [bool operator!=(const unrolled_list&, const unrolled_list&)] *)
Definition operator_ne (fuel : nat) (lhs rhs : unrolled_list T) : option bool :=
  negb <$> operator_eq fuel lhs rhs.
End Comparison.

(** *** Further members

    The members of [unrolled_list] that the operations above are used by:
    element access, [clear], the counted [insert], [resize], the range
    operations and the constructors and assignments that copy elements. The
    members that only exchange or hand over [head], [tail] and [size_]
    ([swap], the move constructor and move assignment) have no content in an
    embedding that gives each container its arena, and are left out. *)

Section Members.
Variable T : Type.
Variable NodeMaxSize : size_t.

(** [reference front()]: [head->data[0]], read. *)
Definition front : M T T :=
  let* h := get_head in
  let* nd := load h in
  let* x := lift (rd (Node.data nd) 0) in
  match x with
  | obj v => ret v
  | raw => ub
  end.

(** [reference back()]: [tail->data[tail->size - 1]], read. *)
Definition back : M T T :=
  let* t := get_tail in
  let* nd := load t in
  let* x := lift (rd (Node.data nd) (wrap (Node.size nd - 1))) in
  match x with
  | obj v => ret v
  | raw => ub
  end.

(** The conversion of a [size_type] to [difference_type] (64-bit two's
    complement). *)
Definition to_difference (n : size_t) : Z :=
  if n <? 2 ^ (SIZE_WIDTH - 1) then n else n - 2 ^ SIZE_WIDTH.

(** [std::prev(it, n)] *)
Fixpoint std_prev (n : nat) (it : iterator) : M T iterator :=
  match n with
  | O => ret it
  | S n' => let* it1 := decr it in std_prev n' it1
  end.

(** [std::advance(it, n)] for a bidirectional iterator. *)
Definition std_advance (n : Z) (it : iterator) : M T iterator :=
  if 0 <=? n then std_next (Z.to_nat n) it else std_prev (Z.to_nat (- n)) it.

(** [reference operator[](size_type pos)] *)
Definition operator_index (pos : size_t) : M T T :=
  let* it := begin in
  let* it1 := std_advance (to_difference pos) it in
  deref it1.

(** [void clear() noexcept]; [fuel] bounds the iterations of the loop. *)
Fixpoint clear_loop (fuel : nat) : M T unit :=
  let* h := get_head in
  if is_null h then ret tt
  else match fuel with
       | O => ub
       | S f =>
           let* hn := load h in
           destroy_node h >>
           put_head (Node.next hn) >>
           clear_loop f
       end.
Definition clear (fuel : nat) : M T unit :=
  clear_loop fuel >>
  put_tail None >>
  put_size 0.

(** [iterator insert(const_iterator pos, size_type count, const T& value)]:
    the loop assigns the cursor of each insertion to [result], which starts
    as the default cursor. *)
Fixpoint insert_loop (n : nat) (pos : iterator) (value : T) (result : iterator)
  : M T iterator :=
  match n with
  | O => ret result
  | S n' => let* r := insert NodeMaxSize pos value in insert_loop n' pos value r
  end.
Definition insert_n (pos : iterator) (count : size_t) (value : T) : M T iterator :=
  if count =? 0 then ret (mk_iterator (current_node pos) (current_pos pos))
  else insert_loop (Z.to_nat count) pos value (mk_iterator None 0).

(** [void resize(size_type count, const value_type& value)] *)
Fixpoint resize_shrink (fuel : nat) (count : size_t) : M T unit :=
  let* n := get_size in
  if n >? count then
    match fuel with
    | O => ub
    | S f => pop_back >> resize_shrink f count
    end
  else ret tt.
Fixpoint resize_grow (fuel : nat) (count : size_t) (value : T) : M T unit :=
  let* n := get_size in
  if n <? count then
    match fuel with
    | O => ub
    | S f => push_back NodeMaxSize value >> resize_grow f count value
    end
  else ret tt.
Definition resize (fuel : nat) (count : size_t) (value : T) : M T unit :=
  resize_shrink fuel count >> resize_grow fuel count value.

(** [void assign_range(InputIt first, InputIt last)], and
    [operator=(std::initializer_list<T>)], which has the same body. *)
Definition assign_range (fuel : nat) (xs : list T) : M T unit :=
  clear fuel >> push_back_all NodeMaxSize xs.

(** [void insert_range(const_iterator pos, Range&& range)] *)
Fixpoint insert_range (pos : iterator) (xs : list T) : M T unit :=
  match xs with
  | [] => ret tt
  | x :: xs' =>
      let* p := insert NodeMaxSize pos x in
      let* p1 := incr p in
      insert_range p1 xs'
  end.
Definition append_range (xs : list T) : M T unit := insert_range end_ xs.
Definition prepend_range (xs : list T) : M T unit :=
  let* b := begin in insert_range b xs.

(** [explicit unrolled_list(size_type count, const T& value)] *)
Fixpoint push_back_n (n : nat) (value : T) : M T unit :=
  match n with
  | O => ret tt
  | S n' => push_back NodeMaxSize value >> push_back_n n' value
  end.
Definition ctor_fill (count : size_t) (value : T) : option (unrolled_list T) :=
  exec (push_back_n (Z.to_nat count) value) ctor.

(** The loop of the copy constructor and of the copy assignment,
    [for (const auto& item : other) push_back(item);]: the cursor runs in
    [other], the elements go to this container. *)
Fixpoint copy_loop (fuel : nat) (other : unrolled_list T) (it : iterator) : M T unit :=
  if iterator_eqb it end_ then ret tt
  else match fuel with
       | O => ub
       | S f =>
           let* x := lift (eval (deref it) other) in
           push_back NodeMaxSize x >>
           let* it1 := lift (eval (incr it) other) in
           copy_loop f other it1
       end.

(** [unrolled_list(const unrolled_list& other)] *)
Definition ctor_copy (fuel : nat) (other : unrolled_list T) : option (unrolled_list T) :=
  exec (let* b := lift (eval begin other) in copy_loop fuel other b) ctor.

(** [unrolled_list& operator=(const unrolled_list& other)], for another
    container than this one. *)
Definition operator_assign (fuel : nat) (other : unrolled_list T) : M T unit :=
  clear fuel >>
  let* b := lift (eval begin other) in
  copy_loop fuel other b.
End Members.

Arguments front {T} s.
Arguments back {T} s.
Arguments std_prev {T} n it s.
Arguments std_advance {T} n it s.
Arguments operator_index {T} pos s.
Arguments clear_loop {T} fuel s.
Arguments clear {T} fuel s.
Arguments insert_loop {T} NodeMaxSize n pos value result s.
Arguments insert_n {T} NodeMaxSize pos count value s.
Arguments resize_shrink {T} fuel count s.
Arguments resize_grow {T} NodeMaxSize fuel count value s.
Arguments resize {T} NodeMaxSize fuel count value s.
Arguments assign_range {T} NodeMaxSize fuel xs s.
Arguments insert_range {T} NodeMaxSize pos xs s.
Arguments append_range {T} NodeMaxSize xs s.
Arguments prepend_range {T} NodeMaxSize xs s.
Arguments push_back_n {T} NodeMaxSize n value s.
Arguments ctor_fill {T} NodeMaxSize count value.
Arguments copy_loop {T} NodeMaxSize fuel other it s.
Arguments ctor_copy {T} NodeMaxSize fuel other.
Arguments operator_assign {T} NodeMaxSize fuel other s.

(** ** The representation invariant

    The data model of the container: the chain from [head] to [tail] is a
    list of distinct allocated nodes, each linked to its neighbours in both
    directions and each holding at least one and at most [NodeMaxSize]
    elements in the first slots of its buffer, and [size_] is the number of
    elements of the chain. *)

Section Invariant.
Context {T : Type}.
Variable NodeMaxSize : size_t.

(** The node holds the elements [xs] in its first slots. *)
Definition node_holds (nd : Node.t T) (xs : list T) : Prop :=
  Node.size nd = Z.of_nat (length xs) /\
  Z.of_nat (length (Node.data nd)) = NodeMaxSize /\
  take (length xs) (Node.data nd) = obj <$> xs.

(** The nodes at the addresses [ps] are linked in order, the first one
    after [pv] and the last one before [nx], and hold the element lists
    [xss]. *)
Fixpoint chain (h : list (option (Node.t T))) (pv : option ptr)
         (ps : list ptr) (nx : option ptr) (xss : list (list T)) : Prop :=
  match ps, xss with
  | [], [] => True
  | a :: ps', xs :: xss' =>
      match cell h a with
      | Some nd =>
          Node.prev nd = pv /\
          Node.next nd = match ps' with [] => nx | b :: _ => Some b end /\
          node_holds nd xs /\
          xs <> [] /\
          chain h (Some a) ps' nx xss'
      | None => False
      end
  | _, _ => False
  end.

Definition wf (s : unrolled_list T) (xss : list (list T)) : Prop :=
  exists ps : list ptr,
    NoDup ps /\
    chain (heap s) None ps None xss /\
    head s = ps !! 0%nat /\
    tail s = last ps /\
    size_ s = Z.of_nat (length (concat xss)) /\
    size_ s < 2 ^ SIZE_WIDTH.

(** From the cursor [it], dereferencing and advancing meets the elements
    [xs] and then reaches [end()]. *)
Inductive walks (s : unrolled_list T) : iterator -> list T -> Prop :=
| walks_end : walks s end_ []
| walks_step it x it1 xs :
    iterator_eqb it end_ = false ->
    deref it s = Some (x, s) ->
    incr it s = Some (it1, s) ->
    walks s it1 xs ->
    walks s it (x :: xs).
End Invariant.

(** ** Scenarios

    Containers of [int] used to evaluate the operations: the default
    [NodeMaxSize] of 10 as in [bin/main.cpp], and small capacities where a
    second node is needed. *)

(** The calls of [main], in three steps. *)
Definition demo_pushes : M Z unit :=
  push_back 10 1 >> push_back 10 2 >> push_back 10 3 >> push_front 10 0.
Definition demo_insert : M Z iterator :=
  let* b := begin in let* p := std_next 1 b in insert 10 p 10.
Definition demo_erase : M Z iterator :=
  let* b := begin in let* p := std_next 2 b in erase p.

(** [push_back(1); pop_back();] *)
Definition drain_by_pop_back : M Z unit := push_back 10 1 >> pop_back.

(** [push_back(1); pop_back(); push_back(2); push_back(3);] *)
Definition refill_after_pop_back : M Z unit :=
  drain_by_pop_back >> push_back 10 2 >> push_back 10 3.

(** On an [unrolled_list<int, 2>]:
    [push_back(1); push_back(2); push_back(3); erase(begin()); erase(begin());] *)
Definition drain_head_by_erase : M Z iterator :=
  push_back 2 1 >> push_back 2 2 >> push_back 2 3 >>
  (let* b := begin in erase b) >>
  (let* b := begin in erase b).

(** [unrolled_list<int> {1}] and [{1, 2, 3}]: one node. *)
Definition single : unrolled_list Z :=
  Eval vm_compute in default ctor (ctor_range 10 [1]).
Definition three : unrolled_list Z :=
  Eval vm_compute in default ctor (ctor_range 10 [1; 2; 3]).

(** [unrolled_list<int, 2> {1, 2, 3}]: the nodes [1 2] and [3]. *)
Definition two_nodes : unrolled_list Z :=
  Eval vm_compute in default ctor (ctor_range 2 [1; 2; 3]).

(** The same elements in the nodes [1] and [2 3]:
    [push_back(2); push_back(3); push_front(1);] *)
Definition two_nodes_front : unrolled_list Z :=
  Eval vm_compute in
    default ctor (exec (push_back 2 2 >> push_back 2 3 >> push_front 2 1) ctor).

(** One full node of capacity 4, and one of capacity 5. *)
Definition full4 : unrolled_list Z :=
  Eval vm_compute in default ctor (ctor_range 4 [1; 2; 3; 4]).
Definition full5 : unrolled_list Z :=
  Eval vm_compute in default ctor (ctor_range 5 [1; 2; 3; 4; 5]).

(** The split of a full node as the specification words it: inserting [v]
    at offset [p] of the full node at [a], whose elements are [xs], leaves
    that node and a node linked after it with [NodeMaxSize / 2] and
    [NodeMaxSize - NodeMaxSize / 2 + 1] elements (in either order), which
    together are [xs] with [v] inserted at [p]. *)
Definition split_as_specified (NodeMaxSize : size_t) (s : unrolled_list Z)
           (a : ptr) (xs : list Z) (p : size_t) (v : Z) : Prop :=
  exists it s1 lo b hi ls hs,
    emplace NodeMaxSize (mk_iterator (Some a) p) v s = Some (it, s1) /\
    cell (heap s1) a = Some lo /\
    Node.next lo = Some b /\
    cell (heap s1) b = Some hi /\
    Node.elements lo = Some ls /\
    Node.elements hi = Some hs /\
    ls ++ hs = take (Z.to_nat p) xs ++ v :: drop (Z.to_nat p) xs /\
    let half := NodeMaxSize / 2 in
    (Z.of_nat (length ls) = half /\ Z.of_nat (length hs) = NodeMaxSize - half + 1 \/
     Z.of_nat (length hs) = half /\ Z.of_nat (length ls) = NodeMaxSize - half + 1).

Arguments split_as_specified NodeMaxSize s a%_nat xs p v.

(** An [unrolled_list<int, 1>] holding 1 2: two nodes of one slot each. *)
Definition one_slot : unrolled_list Z :=
  Eval vm_compute in default ctor (ctor_range 1 [1; 2]).

(** * Properties *)

(** ** Buffers *)

Section BufferFacts.
Context {T : Type}.
Implicit Types (d pre seg post : list (slot T)) (x y z : slot T).

Lemma rd_middle pre x post i :
  i = Z.of_nat (length pre) -> rd (pre ++ x :: post) i = Some x.
Proof.
  intros ->. unfold rd. rewrite length_app. cbn [length].
  rewrite Nat2Z.id, list_lookup_middle by reflexivity.
  destruct (Z.leb_spec 0 (Z.of_nat (length pre))); [|lia].
  destruct (Z.ltb_spec (Z.of_nat (length pre)) (Z.of_nat (length pre + S (length post))));
    [reflexivity | lia].
Qed.

Lemma wr_middle pre x post i y :
  i = Z.of_nat (length pre) -> wr (pre ++ x :: post) i y = Some (pre ++ y :: post).
Proof.
  intros ->. unfold wr. rewrite length_app. cbn [length].
  rewrite Nat2Z.id.
  destruct (Z.leb_spec 0 (Z.of_nat (length pre))); [|lia].
  destruct (Z.ltb_spec (Z.of_nat (length pre)) (Z.of_nat (length pre + S (length post))));
    [|lia].
  cbn. f_equal.
  replace (length pre) with (length pre + 0)%nat at 1 by lia.
  now rewrite insert_app_r.
Qed.

Lemma wr_Some d i x d' :
  wr d i x = Some d' ->
  (0 <= i < Z.of_nat (length d)) /\ d' = <[Z.to_nat i := x]> d.
Proof.
  unfold wr. intros H.
  destruct (Z.leb_spec 0 i); [|discriminate].
  destruct (Z.ltb_spec i (Z.of_nat (length d))); [|discriminate].
  cbn in H. injection H as <-. split; [lia|reflexivity].
Qed.

(** One step of a shift: the object moves one slot up. *)
Lemma move_slot_up pre x y post i :
  i = Z.of_nat (length pre) ->
  move_slot (pre ++ x :: y :: post) i (i + 1) = Some (pre ++ raw :: x :: post).
Proof.
  intros Hi. unfold move_slot.
  rewrite (rd_middle pre x (y :: post) i Hi). cbn.
  replace (pre ++ x :: y :: post) with ((pre ++ [x]) ++ y :: post)
    by now rewrite <- app_assoc.
  rewrite (wr_middle (pre ++ [x]) y post (i + 1) x)
    by (rewrite length_app; cbn; lia).
  cbn. rewrite <- app_assoc. cbn.
  now apply wr_middle.
Qed.

Lemma move_slot_down pre x y post i :
  i = Z.of_nat (length pre) ->
  move_slot (pre ++ x :: y :: post) (i + 1) i = Some (pre ++ y :: raw :: post).
Proof.
  intros Hi. unfold move_slot.
  replace (pre ++ x :: y :: post) with ((pre ++ [x]) ++ y :: post)
    by now rewrite <- app_assoc.
  rewrite (rd_middle (pre ++ [x]) y post (i + 1))
    by (rewrite length_app; cbn; lia).
  cbn. rewrite <- app_assoc. cbn.
  rewrite (wr_middle pre x (y :: post) i y Hi). cbn.
  replace (pre ++ y :: y :: post) with ((pre ++ [y]) ++ y :: post)
    by now rewrite <- app_assoc.
  rewrite (wr_middle (pre ++ [y]) y post (i + 1) raw)
    by (rewrite length_app; cbn; lia).
  now rewrite <- app_assoc.
Qed.

Lemma shift_up_spec seg : forall pre z post n i,
  n = length seg ->
  i = Z.of_nat (length pre + length seg) ->
  shift_up n i (pre ++ seg ++ z :: post) =
  Some (pre ++ (match n with O => z | S _ => raw end) :: seg ++ post).
Proof.
  induction seg as [|y seg IH] using rev_ind; intros pre z post n i -> ->.
  - reflexivity.
  - rewrite length_app. cbn [length]. rewrite Nat.add_comm. cbn [Nat.add shift_up].
    rewrite <- !app_assoc. cbn [app].
    replace (pre ++ seg ++ y :: z :: post) with ((pre ++ seg) ++ y :: z :: post)
      by now rewrite <- app_assoc.
    pose proof (move_slot_up (pre ++ seg) y z post
                  (Z.of_nat (length pre + S (length seg)) - 1)) as Hm.
    replace (Z.of_nat (length pre + S (length seg)) - 1 + 1)
      with (Z.of_nat (length pre + S (length seg))) in Hm by lia.
    rewrite Hm by (rewrite length_app; lia). cbn.
    rewrite <- app_assoc.
    rewrite (IH pre raw (y :: post) (length seg)) by (reflexivity || lia).
    now destruct (length seg).
Qed.

Lemma shift_down_spec seg : forall pre z post n i,
  n = length seg ->
  i = Z.of_nat (length pre) ->
  shift_down n i (pre ++ z :: seg ++ post) =
  Some (pre ++ seg ++ (match n with O => z | S _ => raw end) :: post).
Proof.
  induction seg as [|y seg IH]; intros pre z post n i -> ->.
  - reflexivity.
  - cbn [length shift_down app].
    rewrite move_slot_down by reflexivity. cbn.
    replace (pre ++ y :: raw :: seg ++ post) with ((pre ++ [y]) ++ raw :: seg ++ post)
      by now rewrite <- app_assoc.
    rewrite (IH (pre ++ [y]) raw post (length seg)) by (reflexivity || rewrite length_app; cbn; lia).
    rewrite <- app_assoc. cbn. now destruct (length seg).
Qed.

(** A shift that runs past the end of the buffer has no result. *)
Lemma shift_down_overrun n : forall i d,
  0 <= i -> Z.of_nat (length d) <= i + Z.of_nat n -> n <> O ->
  shift_down n i d = None.
Proof.
  induction n as [|n IH]; intros i d Hi Hlen Hn; [congruence|].
  cbn [shift_down].
  destruct (move_slot d (i + 1) i) as [d1|] eqn:Hm; [|reflexivity]. cbn.
  assert (length d1 = length d /\ i + 1 < Z.of_nat (length d)) as [Hl Hlt].
  { unfold move_slot in Hm.
    destruct (rd d (i + 1)) as [x|] eqn:Hr; [|discriminate]. cbn in Hm.
    destruct (wr d i x) as [d2|] eqn:Hw; [|discriminate]. cbn in Hm.
    apply wr_Some in Hw as [_ ->]. apply wr_Some in Hm as [Hb ->].
    rewrite length_insert in Hb. rewrite !length_insert. split; [reflexivity|lia]. }
  destruct n as [|n]; [lia|].
  apply IH; [lia | rewrite Hl; lia | congruence].
Qed.
End BufferFacts.

(** ** [size_t], pointers and the arena *)

Lemma wrap_small z : 0 <= z < 2 ^ SIZE_WIDTH -> wrap z = z.
Proof. intros H. unfold wrap. now apply Z.mod_small. Qed.

Lemma ptr_eqb_eq p q : ptr_eqb p q = true <-> p = q.
Proof.
  destruct p, q; cbn; split; try congruence; try discriminate.
  - intros H%Nat.eqb_eq. now subst.
  - intros [= ->]. apply Nat.eqb_refl.
Qed.

Lemma ptr_eqb_neq p q : ptr_eqb p q = false <-> p <> q.
Proof.
  rewrite <- ptr_eqb_eq. destruct (ptr_eqb p q); split; congruence.
Qed.

Section HeapFacts.
Context {T : Type}.
Implicit Types (h : list (option (Node.t T))) (nd : Node.t T) (a b : ptr).

Lemma cell_Some h a nd : cell h a = Some nd <-> h !! a = Some (Some nd).
Proof.
  unfold cell. destruct (h !! a) as [[?|]|]; split; congruence.
Qed.

Lemma cell_lt h a nd : cell h a = Some nd -> (a < length h)%nat.
Proof. intros H%cell_Some. now apply lookup_lt_Some in H. Qed.

Lemma cell_ge h a : (length h <= a)%nat -> cell h a = None.
Proof. intros H. unfold cell. now rewrite lookup_ge_None_2. Qed.

Lemma cell_insert_eq h a x :
  (a < length h)%nat -> cell (<[a := x]> h) a = x.
Proof. intros H. unfold cell. rewrite list_lookup_insert_eq by assumption. now destruct x. Qed.

Lemma cell_insert_ne h a b x : a <> b -> cell (<[a := x]> h) b = cell h b.
Proof. intros H. unfold cell. now rewrite list_lookup_insert_ne. Qed.

Lemma cell_app_l h k a : (a < length h)%nat -> cell (h ++ k) a = cell h a.
Proof. intros H. unfold cell. now rewrite lookup_app_l. Qed.

Lemma cell_app_new h x : cell (h ++ [x]) (length h) = x.
Proof. unfold cell. rewrite list_lookup_middle by reflexivity. now destruct x. Qed.
End HeapFacts.

(** ** Running computations *)

Section MonadLaws.
Context {T : Type}.
Implicit Types (s : unrolled_list T).

Lemma bind_ret {A B} (x : A) (k : A -> M T B) s : bind (ret x) k s = k x s.
Proof. reflexivity. Qed.
Lemma bind_get_head {B} (k : option ptr -> M T B) s : bind get_head k s = k (head s) s.
Proof. reflexivity. Qed.
Lemma bind_get_tail {B} (k : option ptr -> M T B) s : bind get_tail k s = k (tail s) s.
Proof. reflexivity. Qed.
Lemma bind_get_size {B} (k : size_t -> M T B) s : bind get_size k s = k (size_ s) s.
Proof. reflexivity. Qed.
Lemma bind_put_head {B} p (k : unit -> M T B) s :
  bind (put_head p) k s = k tt (mk_list p (tail s) (size_ s) (heap s)).
Proof. reflexivity. Qed.
Lemma bind_put_tail {B} p (k : unit -> M T B) s :
  bind (put_tail p) k s = k tt (mk_list (head s) p (size_ s) (heap s)).
Proof. reflexivity. Qed.
Lemma bind_put_size {B} n (k : unit -> M T B) s :
  bind (put_size n) k s = k tt (mk_list (head s) (tail s) n (heap s)).
Proof. reflexivity. Qed.
Lemma bind_when_false {B} (m : M T unit) (k : unit -> M T B) s :
  bind (when false m) k s = k tt s.
Proof. reflexivity. Qed.
Lemma bind_bind {A B C} (m : M T A) (f : A -> M T B) (g : B -> M T C) s :
  bind (bind m f) g s = bind m (fun x => bind (f x) g) s.
Proof. unfold bind. destruct (m s) as [[x s1]|]; reflexivity. Qed.
Lemma is_null_Some a : is_null (Some a) = false.
Proof. reflexivity. Qed.
Lemma is_null_None : is_null None = true.
Proof. reflexivity. Qed.
Lemma bind_empty {B} (k : bool -> M T B) s : bind empty k s = k (size_ s =? 0) s.
Proof. reflexivity. Qed.
End MonadLaws.

Ltac msimpl :=
  repeat first
    [ rewrite bind_ret | rewrite bind_get_head | rewrite bind_get_tail
    | rewrite bind_get_size | rewrite bind_put_head | rewrite bind_put_tail
    | rewrite bind_put_size | rewrite bind_when_false | rewrite bind_empty
    | rewrite bind_bind
    | rewrite is_null_Some | rewrite is_null_None
    | progress cbn [head tail size_ heap negb when andb
                    current_node current_pos] ].

Section Memory.
Context {T : Type}.
Variable NodeMaxSize : size_t.
Implicit Types (h : list (option (Node.t T))) (nd : Node.t T) (a b : ptr).

Lemma bind_Some {A B} (m : M T A) (k : A -> M T B) s x s1 :
  m s = Some (x, s1) -> bind m k s = k x s1.
Proof. intros H. unfold bind. now rewrite H. Qed.

Lemma load_Some hd tl n h a nd :
  cell h a = Some nd ->
  load (Some a) (mk_list hd tl n h) = Some (nd, mk_list hd tl n h).
Proof. intros H. unfold load. cbn. now rewrite H. Qed.

Lemma store_Some hd tl n h a nd0 nd :
  cell h a = Some nd0 ->
  store (Some a) nd (mk_list hd tl n h) = Some (tt, mk_list hd tl n (<[a := Some nd]> h)).
Proof. intros H. unfold store. cbn. now rewrite H. Qed.

Lemma assign_Some hd tl n h a nd f :
  cell h a = Some nd ->
  assign (Some a) f (mk_list hd tl n h) =
  Some (tt, mk_list hd tl n (<[a := Some (f nd)]> h)).
Proof.
  intros H. unfold assign.
  rewrite (bind_Some _ _ _ _ _ (load_Some hd tl n h a nd H)).
  now apply store_Some with nd.
Qed.

Lemma call_Some hd tl n h a nd nd1 f :
  cell h a = Some nd -> f nd = Some nd1 ->
  call (Some a) f (mk_list hd tl n h) =
  Some (tt, mk_list hd tl n (<[a := Some nd1]> h)).
Proof.
  intros H Hf. unfold call.
  rewrite (bind_Some _ _ _ _ _ (load_Some hd tl n h a nd H)).
  unfold bind at 1, lift. rewrite Hf.
  now apply store_Some with nd.
Qed.

(** [create_node(node, node->next)] *)
Lemma create_node_after hd tl n h a nd :
  cell h a = Some nd ->
  (forall q, Node.next nd = Some q -> is_Some (cell h q)) ->
  exists h1 nd1,
    create_node NodeMaxSize (Some a) (Node.next nd) (mk_list hd tl n h) =
      Some (Some (length h),
            mk_list (if is_null hd then Some (length h) else hd)
              (if is_null (Node.next nd) then Some (length h) else tl) n h1) /\
    length h1 = S (length h) /\
    cell h1 (length h) =
      Some (Node.mk 0 (Node.next nd) (Some a) (replicate (Z.to_nat NodeMaxSize) raw)) /\
    cell h1 a = Some nd1 /\
    Node.size nd1 = Node.size nd /\
    Node.data nd1 = Node.data nd /\
    Node.next nd1 = Some (length h) /\
    (Node.next nd <> Some a -> nd1 = Node.set_next (Some (length h)) nd) /\
    (forall c, c <> a -> (c < length h)%nat -> Node.next nd <> Some c ->
               cell h1 c = cell h c).
Proof.
  intros Ha Hq. pose proof (cell_lt _ _ _ Ha) as Hlt.
  unfold create_node.
  unfold bind at 1. unfold allocate at 1. cbn [heap head tail size_].
  set (h0 := h ++ [Some (Node.ctor NodeMaxSize)]).
  assert (cell h0 (length h) = Some (Node.ctor NodeMaxSize)) as Hb by apply cell_app_new.
  assert (length h0 = S (length h)) as Hl0 by (unfold h0; rewrite length_app; cbn; lia).
  erewrite bind_Some by (eapply assign_Some; exact Hb).
  erewrite bind_Some
    by (eapply assign_Some; apply cell_insert_eq; lia).
  rewrite list_insert_insert_eq.
  cbn [when is_null ptr_eqb negb].
  assert (cell (<[length h := Some (Node.set_next (Node.next nd)
                  (Node.set_prev (Some a) (Node.ctor NodeMaxSize)))]> h0) a = Some nd) as Ha1.
  { rewrite cell_insert_ne by lia. unfold h0. now rewrite cell_app_l. }
  erewrite bind_Some by (eapply assign_Some; exact Ha1).
  match goal with
  | |- context [mk_list _ _ _ ?hh] => set (h2 := hh)
  end.
  assert (cell h2 (length h) =
          Some (Node.mk 0 (Node.next nd) (Some a) (replicate (Z.to_nat NodeMaxSize) raw))) as Hb2.
  { unfold h2. rewrite cell_insert_ne by lia. rewrite cell_insert_eq by lia. reflexivity. }
  assert (cell h2 a = Some (Node.set_next (Some (length h)) nd)) as Ha2.
  { unfold h2. apply cell_insert_eq. rewrite length_insert. lia. }
  assert (length h2 = S (length h)) as Hl2 by (unfold h2; now rewrite !length_insert).
  destruct (Node.next nd) as [q|] eqn:Hnx.
  - destruct (Hq q eq_refl) as [nq Hnq].
    pose proof (cell_lt _ _ _ Hnq) as Hqlt.
    cbn [is_null ptr_eqb negb when].
    destruct (decide (q = a)) as [->|Hne].
    + erewrite bind_Some by (eapply assign_Some; exact Ha2).
      unfold bind at 1, get_head at 1. cbn [head].
      destruct (is_null hd); cbn [when]; eexists _, _; (split; [cbn; reflexivity|]).
      all: rewrite length_insert, cell_insert_ne by lia.
      all: rewrite cell_insert_eq by lia.
      all: repeat (split; [first [eassumption | reflexivity]|]).
      all: split; [congruence|].
      all: intros c Hca Hcl Hcn; rewrite cell_insert_ne by congruence; unfold h2.
      all: rewrite !cell_insert_ne by lia; unfold h0; now rewrite cell_app_l.
    + assert (cell h2 q = Some nq) as Hq2.
      { unfold h2. rewrite !cell_insert_ne by lia. unfold h0. now rewrite cell_app_l. }
      erewrite bind_Some by (eapply assign_Some; exact Hq2).
      unfold bind at 1, get_head at 1. cbn [head].
      destruct (is_null hd); cbn [when]; eexists _, _; (split; [cbn; reflexivity|]).
      all: rewrite length_insert, !cell_insert_ne by lia.
      all: repeat (split; [first [eassumption | reflexivity]|]).
      all: intros c Hca Hcl Hcn; rewrite cell_insert_ne by congruence; unfold h2.
      all: rewrite !cell_insert_ne by lia; unfold h0; now rewrite cell_app_l.
  - cbn [is_null ptr_eqb negb when].
    unfold bind at 1, ret at 1.
    unfold bind at 1, get_head at 1. cbn [head].
    destruct (is_null hd); cbn [when]; eexists _, _; (split; [cbn; reflexivity|]).
    all: repeat (split; [first [eassumption | reflexivity]|]).
    all: intros c Hca Hcl Hcn; unfold h2.
    all: rewrite !cell_insert_ne by lia; unfold h0; now rewrite cell_app_l.
Qed.
End Memory.

(** ** Nodes *)

Section NodeFacts.
Context {T : Type}.
Implicit Types (nd : Node.t T) (xs : list T) (post : list (slot T)).

Lemma objects_fmap xs : objects (obj <$> xs) = Some xs.
Proof. induction xs as [|x xs IH]; cbn; [reflexivity|]. now rewrite IH. Qed.

Lemma set_data_id nd : Node.set_data (Node.data nd) nd = nd.
Proof. now destruct nd. Qed.

(** [Node::insert] on a node with a free slot. *)
Lemma node_insert_spec nd xs z post pos v :
  Node.size nd = Z.of_nat (length xs) ->
  Node.data nd = (obj <$> xs) ++ z :: post ->
  0 <= pos <= Z.of_nat (length xs) ->
  Z.of_nat (length xs) + 1 < 2 ^ SIZE_WIDTH ->
  Node.insert pos v nd =
  Some (Node.mk (Z.of_nat (length xs) + 1) (Node.next nd) (Node.prev nd)
          ((obj <$> (take (Z.to_nat pos) xs ++ v :: drop (Z.to_nat pos) xs)) ++ post)).
Proof.
  intros Hsz Hd Hpos Hb. unfold Node.insert. rewrite Hsz, Hd.
  set (p := Z.to_nat pos).
  replace (obj <$> xs) with ((obj <$> take p xs) ++ (obj <$> drop p xs))
    by now rewrite <- fmap_app, take_drop.
  rewrite <- app_assoc.
  rewrite (shift_up_spec (obj <$> drop p xs) (obj <$> take p xs) z post
             (Z.to_nat (Z.of_nat (length xs) - pos)) (Z.of_nat (length xs))).
  2:{ rewrite length_fmap, length_drop. unfold p. lia. }
  2:{ rewrite !length_fmap, length_take, length_drop. unfold p. lia. }
  cbn.
  rewrite (wr_middle (obj <$> take p xs) _ _ pos (obj v)).
  2:{ rewrite length_fmap, length_take. unfold p. lia. }
  cbn. unfold Node.set_size, Node.set_data. cbn.
  rewrite wrap_small by lia.
  rewrite fmap_app, fmap_cons, <- app_assoc. reflexivity.
Qed.

(** [Node::emplace_back] on a node with a free slot. *)
Lemma node_emplace_back_spec nd xs z post v :
  Node.size nd = Z.of_nat (length xs) ->
  Node.data nd = (obj <$> xs) ++ z :: post ->
  Z.of_nat (length xs) + 1 < 2 ^ SIZE_WIDTH ->
  Node.emplace_back (obj v) nd =
  Some (Node.mk (Z.of_nat (length xs) + 1) (Node.next nd) (Node.prev nd)
          ((obj <$> (xs ++ [v])) ++ post)).
Proof.
  intros Hsz Hd Hb. unfold Node.emplace_back. rewrite Hsz, Hd.
  rewrite (wr_middle (obj <$> xs) z post _ (obj v)) by now rewrite length_fmap.
  cbn. unfold Node.set_size, Node.set_data. cbn.
  rewrite wrap_small by lia.
  rewrite fmap_app, <- app_assoc. reflexivity.
Qed.

(** [Node::erase] at a position that holds an element. *)
Lemma node_erase_spec nd xs post pos :
  Node.size nd = Z.of_nat (length xs) ->
  Node.data nd = (obj <$> xs) ++ post ->
  0 <= pos < Z.of_nat (length xs) ->
  Z.of_nat (length xs) < 2 ^ SIZE_WIDTH ->
  Node.erase pos nd =
  Some (Node.mk (Z.of_nat (length xs) - 1) (Node.next nd) (Node.prev nd)
          ((obj <$> (take (Z.to_nat pos) xs ++ drop (S (Z.to_nat pos)) xs)) ++ raw :: post)).
Proof.
  intros Hsz Hd Hpos Hb. unfold Node.erase. rewrite Hsz, Hd.
  set (p := Z.to_nat pos).
  destruct (lookup_lt_is_Some_2 xs p ltac:(unfold p; lia)) as [x Hx].
  replace (obj <$> xs) with ((obj <$> take p xs) ++ obj x :: (obj <$> drop (S p) xs))
    by now rewrite <- fmap_cons, <- fmap_app, take_drop_middle.
  rewrite <- app_assoc. cbn [app].
  rewrite (wr_middle (obj <$> take p xs) _ _ pos raw).
  2:{ rewrite length_fmap, length_take. unfold p. lia. }
  cbn.
  rewrite wrap_small by lia.
  rewrite (shift_down_spec (obj <$> drop (S p) xs) (obj <$> take p xs) raw post
             (Z.to_nat (Z.of_nat (length xs) - 1 - pos)) pos).
  2:{ rewrite length_fmap, length_drop. unfold p. lia. }
  2:{ rewrite !length_fmap, length_take. unfold p. lia. }
  cbn. unfold Node.set_size, Node.set_data. cbn.
  rewrite fmap_app, <- app_assoc.
  now destruct (Z.to_nat (Z.of_nat (length xs) - 1 - pos)).
Qed.

Lemma node_elements_spec nd xs post :
  Node.size nd = Z.of_nat (length xs) ->
  Node.data nd = (obj <$> xs) ++ post ->
  Node.elements nd = Some xs.
Proof.
  intros Hsz Hd. unfold Node.elements. rewrite Hsz, Hd, Nat2Z.id.
  rewrite take_app_length' by now rewrite length_fmap.
  apply objects_fmap.
Qed.
End NodeFacts.

(** ** The split of a full node *)

Section Split.
Context {T : Type}.
Variable NodeMaxSize : size_t.
Implicit Types (h : list (option (Node.t T))) (nd : Node.t T) (a b : ptr).

Lemma split_loop_spec a b rest : forall lo gap moved free hd tl sz h A B i,
  a <> b ->
  cell h a = Some A ->
  cell h b = Some B ->
  Node.data A = (obj <$> lo) ++ gap ++ (obj <$> rest) ->
  Node.data B = (obj <$> moved) ++ free ->
  (length rest <= length free)%nat ->
  Node.size B = Z.of_nat (length moved) ->
  Z.of_nat (length moved + length rest) < 2 ^ SIZE_WIDTH ->
  i = Z.of_nat (length lo + length gap) ->
  split_loop (length rest) i (Some a) (Some b) (mk_list hd tl sz h) =
  Some (tt, mk_list hd tl sz
              (<[a := Some (Node.set_data
                              ((obj <$> lo) ++ gap ++ replicate (length rest) raw) A)]>
                 (<[b := Some (Node.mk (Z.of_nat (length moved + length rest))
                                 (Node.next B) (Node.prev B)
                                 ((obj <$> (moved ++ rest)) ++ drop (length rest) free))]>
                    h))).
Proof.
  induction rest as [|x rest IH];
    intros lo gap moved free hd tl sz h A B i Hab Ha Hb HA HB Hfree HsB Hbound ->.
  - cbn [length split_loop replicate drop]. unfold ret.
    rewrite !app_nil_r, Nat.add_0_r, drop_0. rewrite <- HsB, <- HB.
    cbn in HA. rewrite app_nil_r in HA. rewrite <- HA, set_data_id.
    replace (Node.mk (Node.size B) (Node.next B) (Node.prev B) (Node.data B)) with B
      by now destruct B.
    rewrite (list_insert_id h b) by now apply cell_Some.
    rewrite (list_insert_id h a) by now apply cell_Some.
    reflexivity.
  - cbn [length split_loop].
    erewrite bind_Some by (eapply load_Some; exact Ha).
    assert (rd (Node.data A) (Z.of_nat (length lo + length gap)) = Some (obj x)) as Hrd.
    { rewrite HA, fmap_cons, app_assoc.
      apply rd_middle. rewrite length_app, length_fmap. lia. }
    unfold bind at 1, lift at 1. rewrite Hrd.
    destruct free as [|z free]; [cbn in Hfree; lia|].
    assert (Node.emplace_back (obj x) B =
            Some (Node.mk (Z.of_nat (length moved) + 1) (Node.next B) (Node.prev B)
                    ((obj <$> (moved ++ [x])) ++ free))) as HeB.
    { apply node_emplace_back_spec with z; [assumption..|]. cbn [length] in Hbound. lia. }
    erewrite bind_Some by (eapply call_Some; [exact Hb | exact HeB]).
    assert (Node.destroy_at (Z.of_nat (length lo + length gap)) A =
            Some (Node.set_data ((obj <$> lo) ++ (gap ++ [raw]) ++ (obj <$> rest)) A)) as HdA.
    { unfold Node.destroy_at. rewrite HA, fmap_cons, app_assoc.
      rewrite (wr_middle ((obj <$> lo) ++ gap) (obj x) (obj <$> rest) _ raw)
        by (rewrite length_app, length_fmap; lia).
      cbn. now rewrite <- !app_assoc. }
    assert (cell (<[b := Some (Node.mk (Z.of_nat (length moved) + 1) (Node.next B) (Node.prev B)
                    ((obj <$> (moved ++ [x])) ++ free))]> h) a = Some A) as Ha1
      by now rewrite cell_insert_ne by congruence.
    erewrite bind_Some by (eapply call_Some; [exact Ha1 | exact HdA]).
    pose proof (cell_lt _ _ _ Ha) as Hlta. pose proof (cell_lt _ _ _ Hb) as Hltb.
    erewrite (IH lo (gap ++ [raw]) (moved ++ [x]) free); cycle 1.
    + exact Hab.
    + apply cell_insert_eq. rewrite length_insert. lia.
    + rewrite cell_insert_ne by congruence. apply cell_insert_eq. lia.
    + reflexivity.
    + reflexivity.
    + cbn in Hfree. lia.
    + cbn. rewrite length_app. cbn. lia.
    + rewrite length_app. cbn [length] in *. lia.
    + rewrite length_app. cbn. f_equal. lia.
    + do 3 f_equal.
      rewrite (list_insert_insert_ne _ b a) by congruence.
      rewrite !list_insert_insert_eq.
      f_equal.
      * unfold Node.set_data. cbn. do 2 f_equal.
        rewrite <- !app_assoc. reflexivity.
      * do 2 f_equal. rewrite length_app. cbn [length].
        rewrite <- app_assoc. cbn [app skipn].
        replace (Z.of_nat (length moved + 1 + length rest)%nat)
          with (Z.of_nat (length moved + S (length rest))%nat) by lia.
        reflexivity.
Qed.

(** C3, as the code has it. In a container of capacity [NodeMaxSize] at
    least 2, inserting [v] at the offset [p], from 0 up to [NodeMaxSize],
    of a full node splits it: the node keeps its first [NodeMaxSize / 2]
    elements, a new node linked right after it takes the others, and [v]
    goes to the node that contains the offset. When [p] is at least
    [NodeMaxSize / 2] the two nodes have [NodeMaxSize / 2] and
    [NodeMaxSize - NodeMaxSize / 2 + 1] elements; when [p] is smaller they
    have [NodeMaxSize / 2 + 1] and [NodeMaxSize - NodeMaxSize / 2]
    elements. In both cases the elements of the two nodes, in order, are
    those of the full node with [v] inserted at [p], and the cursor
    returned is at the offset of [v] in the node that received it. *)
Theorem emplace_full_node_splits (s : unrolled_list T) (a : ptr) (nd : Node.t T)
        (xs : list T) (p : size_t) (v : T) :
  2 <= NodeMaxSize < 2 ^ SIZE_WIDTH ->
  cell (heap s) a = Some nd ->
  Node.size nd = NodeMaxSize ->
  Node.data nd = obj <$> xs ->
  Z.of_nat (length xs) = NodeMaxSize ->
  0 <= p <= NodeMaxSize ->
  (forall q, Node.next nd = Some q -> is_Some (cell (heap s) q)) ->
  let half := NodeMaxSize / 2 in
  let b := length (heap s) in
  exists s1 it lo hi ls hs,
    emplace NodeMaxSize (mk_iterator (Some a) p) v s = Some (it, s1) /\
    cell (heap s) b = None /\
    cell (heap s1) a = Some lo /\
    cell (heap s1) b = Some hi /\
    Node.next lo = Some b /\
    Node.prev hi = Some a /\
    Node.next hi = Node.next nd /\
    Node.elements lo = Some ls /\
    Node.elements hi = Some hs /\
    Node.size lo = Z.of_nat (length ls) /\
    Node.size hi = Z.of_nat (length hs) /\
    ls ++ hs = take (Z.to_nat p) xs ++ v :: drop (Z.to_nat p) xs /\
    (p < half ->
     Z.of_nat (length ls) = half + 1 /\
     Z.of_nat (length hs) = NodeMaxSize - half /\
     hs = drop (Z.to_nat half) xs /\
     it = mk_iterator (Some a) p) /\
    (half <= p ->
     Z.of_nat (length ls) = half /\
     Z.of_nat (length hs) = NodeMaxSize - half + 1 /\
     ls = take (Z.to_nat half) xs /\
     it = mk_iterator (Some b) (p - half)) /\
    size_ s1 = wrap (size_ s + 1).
Proof.
  intros HC Ha Hsz Hd Hlen Hp Hq half b.
  destruct s as [hd tl n h]. cbn [heap size_] in *.
  assert (0 < half < NodeMaxSize) as Hhalf.
  { unfold half. split; [apply Z.div_str_pos; lia | apply Z.div_lt; lia]. }
  assert (half = NodeMaxSize / 2) as Ehalf by reflexivity.
  assert (b = length h) as Eb by reflexivity.
  clearbody half b.
  pose proof (cell_lt _ _ _ Ha) as Hlta.
  unfold emplace. cbn [iterator_eqb current_node current_pos end_ ptr_eqb andb].
  erewrite bind_Some by (eapply load_Some; exact Ha).
  unfold Node.is_full. rewrite Hsz, Z.eqb_refl. cbn [negb].
  destruct (create_node_after NodeMaxSize hd tl n h a nd Ha Hq)
    as (h1 & nd1 & Hcr & Hl1 & Hb1 & Ha1 & Hsz1 & Hd1 & Hnx1 & _ & _).
  erewrite bind_Some by exact Hcr.
  rewrite <- Ehalf. rewrite <- Eb in Hb1, Hnx1, Hl1 |- *.
  set (hn := Z.to_nat half).
  assert (length (drop hn xs) = Z.to_nat (NodeMaxSize - half)) as Hrest
    by (rewrite length_drop; unfold hn; lia).
  rewrite <- Hrest.
  assert (a <> b) as Hab by lia.
  erewrite bind_Some; cycle 1.
  { eapply (split_loop_spec a b (drop hn xs) (take hn xs) [] []
              (replicate (Z.to_nat NodeMaxSize) raw)); try eassumption.
    - rewrite Hd1, Hd. cbn [app]. now rewrite <- fmap_app, take_drop.
    - reflexivity.
    - rewrite length_replicate, length_drop. lia.
    - reflexivity.
    - cbn [length]. rewrite Hrest. lia.
    - rewrite length_take. cbn [length]. unfold hn. lia. }
  cbn [app length Nat.add].
  rewrite drop_replicate, Hrest.
  match goal with
  | |- context [mk_list _ _ _ (<[a := Some ?A]> (<[b := Some ?B]> h1))] =>
      set (A1 := A); set (B1 := B)
  end.
  assert (length h1 = S b) as Hl1' by exact Hl1.
  erewrite bind_Some
    by (eapply assign_Some; apply cell_insert_eq; rewrite length_insert; lia).
  rewrite list_insert_insert_eq.
  erewrite bind_Some
    by (eapply assign_Some; rewrite cell_insert_ne by congruence;
        apply cell_insert_eq; lia).
  rewrite (list_insert_insert_ne _ b a) by congruence.
  rewrite list_insert_insert_eq.
  rewrite (wrap_small (NodeMaxSize - half)) by lia.
  set (A2 := Node.set_size half A1).
  set (B2 := Node.set_size (NodeMaxSize - half) B1).
  assert (Node.size A2 = Z.of_nat (length (take hn xs))) as HsA
    by (cbn; rewrite length_take; unfold hn; lia).
  assert (Node.size B2 = Z.of_nat (length (drop hn xs))) as HsB
    by (cbn; rewrite Hrest; lia).
  assert (cell h b = None) as Hfresh by (apply cell_ge; lia).
  destruct (Z.ltb_spec p half) as [Hlt|Hge].
  - (* the value goes to the lower node *)
    assert (Node.data A2 = (obj <$> take hn xs) ++ raw ::
              replicate (Z.to_nat (NodeMaxSize - half) - 1) raw) as HdA.
    { cbn. f_equal. destruct (Z.to_nat (NodeMaxSize - half)) eqn:E; [lia|].
      cbn. now rewrite Nat.sub_0_r. }
    pose proof (node_insert_spec A2 _ _ _ p v HsA HdA) as Hins.
    rewrite length_take in Hins.
    specialize (Hins ltac:(unfold hn; lia) ltac:(unfold hn; lia)).
    erewrite bind_Some; cycle 1.
    { eapply call_Some; [|exact Hins].
      apply cell_insert_eq. rewrite length_insert. lia. }
    rewrite list_insert_insert_eq.
    unfold bind at 1, get_size at 1. cbn [size_].
    unfold bind at 1, put_size at 1. cbn [head tail heap].
    unfold ret.
    eexists _, _, _, _, _, _. split; [reflexivity|]. cbn [heap size_].
    split; [exact Hfresh|].
    split; [apply cell_insert_eq; rewrite length_insert; lia|].
    split; [rewrite cell_insert_ne by congruence; apply cell_insert_eq; lia|].
    split; [cbn; exact Hnx1|].
    split; [reflexivity|]. split; [reflexivity|].
    split; [eapply node_elements_spec; [|reflexivity]; cbn;
            rewrite length_app, length_take, length_take; cbn [length];
            rewrite length_drop, length_take; unfold hn; lia|].
    split; [eapply node_elements_spec; [exact HsB | reflexivity]|].
    split; [cbn; rewrite length_app, length_take, length_take; cbn [length];
            rewrite length_drop, length_take; unfold hn; lia|].
    split; [exact HsB|].
    split.
    { rewrite <- app_assoc. cbn [app].
      rewrite take_take, drop_take_drop by (unfold hn; lia).
      now replace (Z.to_nat p `min` hn)%nat with (Z.to_nat p) by (unfold hn; lia). }
    split; [|split; [intros ?; lia | reflexivity]].
    intros _. split; [|split; [|split; reflexivity]].
    + rewrite length_app, length_take, length_take. cbn [length].
      rewrite length_drop, length_take. unfold hn. lia.
    + rewrite Hrest. lia.
  - (* the value goes to the new node *)
    rewrite (wrap_small (p - half)) by lia.
    assert (Node.data B2 = (obj <$> drop hn xs) ++ raw ::
              replicate (Z.to_nat half - 1) raw) as HdB.
    { cbn. f_equal.
      replace (Z.to_nat NodeMaxSize - Z.to_nat (NodeMaxSize - half))%nat
        with (S (Z.to_nat half - 1)) by lia.
      reflexivity. }
    pose proof (node_insert_spec B2 _ _ _ (p - half) v HsB HdB) as Hins.
    rewrite Hrest in Hins.
    specialize (Hins ltac:(lia) ltac:(lia)).
    erewrite bind_Some; cycle 1.
    { eapply call_Some; [|exact Hins].
      rewrite cell_insert_ne by congruence. apply cell_insert_eq. lia. }
    rewrite (list_insert_insert_ne _ b a) by congruence.
    rewrite list_insert_insert_eq.
    unfold bind at 1, get_size at 1. cbn [size_].
    unfold bind at 1, put_size at 1. cbn [head tail heap].
    unfold ret.
    eexists _, _, _, _, _, _. split; [reflexivity|]. cbn [heap size_].
    split; [exact Hfresh|].
    split; [apply cell_insert_eq; rewrite length_insert; lia|].
    split; [rewrite cell_insert_ne by congruence; apply cell_insert_eq; lia|].
    split; [cbn; exact Hnx1|].
    split; [reflexivity|]. split; [reflexivity|].
    split; [eapply node_elements_spec; [exact HsA | reflexivity]|].
    split; [eapply node_elements_spec; [|reflexivity]; cbn;
            rewrite length_app, length_take, length_drop; cbn [length];
            rewrite !length_drop; unfold hn; lia|].
    split; [exact HsA|].
    split; [cbn; rewrite length_app, length_take, length_drop; cbn [length];
            rewrite !length_drop; unfold hn; lia|].
    split.
    { rewrite app_assoc, take_take_drop, drop_drop.
      now replace (hn + Z.to_nat (p - half))%nat with (Z.to_nat p) by (unfold hn; lia). }
    split; [intros ?; lia | split; [|reflexivity]].
    intros _. split; [|split; [|split; reflexivity]].
    + rewrite length_take. unfold hn. lia.
    + rewrite length_app, length_take, length_drop. cbn [length].
      rewrite !length_drop. unfold hn. lia.
Qed.
End Split.

(** ** Removal *)

Section Erase.
Context {T : Type}.
Implicit Types (h : list (option (Node.t T))) (nd : Node.t T) (a b : ptr).

Lemma deallocate_Some hd tl n h a nd :
  cell h a = Some nd ->
  deallocate (Some a) (mk_list hd tl n h) = Some (tt, mk_list hd tl n (<[a := None]> h)).
Proof. intros H. unfold deallocate. cbn. now rewrite H. Qed.

(** [destroy_node] on a node whose neighbours are allocated and distinct. *)
Lemma destroy_node_spec hd tl n h a nd :
  cell h a = Some nd ->
  (forall p, Node.prev nd = Some p -> p <> a /\ is_Some (cell h p)) ->
  (forall q, Node.next nd = Some q -> q <> a /\ is_Some (cell h q)) ->
  (forall p, Node.prev nd = Some p -> Node.next nd <> Some p) ->
  exists h1,
    destroy_node (Some a) (mk_list hd tl n h) =
      Some (tt, mk_list (if ptr_eqb (Some a) hd then Node.next nd else hd)
                  (if ptr_eqb (Some a) tl then Node.prev nd else tl) n h1) /\
    cell h1 a = None /\
    (forall p pn, Node.prev nd = Some p -> cell h p = Some pn ->
                  cell h1 p = Some (Node.set_next (Node.next nd) pn)) /\
    (forall q qn, Node.next nd = Some q -> cell h q = Some qn ->
                  cell h1 q = Some (Node.set_prev (Node.prev nd) qn)).
Proof.
  intros Ha Hp Hq Hpq. pose proof (cell_lt _ _ _ Ha) as Hlta.
  unfold destroy_node.
  erewrite bind_Some by (eapply load_Some; exact Ha).
  destruct (Node.prev nd) as [p|] eqn:Epv; msimpl.
  - destruct (Hp p eq_refl) as [Hpa [pn Hpn]].
    pose proof (cell_lt _ _ _ Hpn) as Hltp.
    erewrite bind_Some by (eapply assign_Some; exact Hpn).
    assert (cell (<[p := Some (Node.set_next (Node.next nd) pn)]> h) a = Some nd) as Ha1
      by now rewrite cell_insert_ne.
    erewrite bind_Some by (eapply load_Some; exact Ha1).
    destruct (Node.next nd) as [q|] eqn:Enx; msimpl.
    + destruct (Hq q eq_refl) as [Hqa [qn Hqn]].
      pose proof (cell_lt _ _ _ Hqn) as Hltq.
      assert (q <> p) as Hqp by (specialize (Hpq p eq_refl); congruence).
      erewrite bind_Some
        by (eapply assign_Some; rewrite cell_insert_ne by congruence; exact Hqn).
      erewrite bind_Some
        by (eapply load_Some; rewrite !cell_insert_ne by congruence; exact Ha).
      msimpl.
      destruct (ptr_eqb (Some a) hd); msimpl;
        destruct (ptr_eqb (Some a) tl); msimpl; rewrite ?Epv, ?Enx.
      all: erewrite deallocate_Some
          by (rewrite !cell_insert_ne by congruence; exact Ha).
      all: eexists; (split; [reflexivity|]).
      all: split; [apply cell_insert_eq; rewrite !length_insert; lia|].
      all: split; [intros p' pn' [= <-] Hpn'; rewrite Hpn in Hpn'; injection Hpn' as <-;
                 rewrite !cell_insert_ne by congruence; apply cell_insert_eq; lia|].
      all: intros q' qn' [= <-] Hqn'; rewrite Hqn in Hqn'; injection Hqn' as <-;
        rewrite cell_insert_ne by congruence; apply cell_insert_eq;
        rewrite length_insert; lia.
    + erewrite bind_Some by (eapply load_Some; exact Ha1).
      msimpl.
      destruct (ptr_eqb (Some a) hd); msimpl;
        destruct (ptr_eqb (Some a) tl); msimpl; rewrite ?Epv, ?Enx.
      all: erewrite deallocate_Some by exact Ha1.
      all: eexists; (split; [reflexivity|]).
      all: split; [apply cell_insert_eq; rewrite !length_insert; lia|].
      all: split; [intros p' pn' [= <-] Hpn'; rewrite Hpn in Hpn'; injection Hpn' as <-;
                 rewrite !cell_insert_ne by congruence; apply cell_insert_eq; lia|].
      all: intros q' qn' [=].
  - erewrite bind_Some by (eapply load_Some; exact Ha).
    destruct (Node.next nd) as [q|] eqn:Enx; msimpl.
    + destruct (Hq q eq_refl) as [Hqa [qn Hqn]].
      pose proof (cell_lt _ _ _ Hqn) as Hltq.
      erewrite bind_Some by (eapply assign_Some; exact Hqn).
      erewrite bind_Some
        by (eapply load_Some; rewrite !cell_insert_ne by congruence; exact Ha).
      msimpl.
      destruct (ptr_eqb (Some a) hd); msimpl;
        destruct (ptr_eqb (Some a) tl); msimpl; rewrite ?Epv, ?Enx.
      all: erewrite deallocate_Some
          by (rewrite !cell_insert_ne by congruence; exact Ha).
      all: eexists; (split; [reflexivity|]).
      all: split; [apply cell_insert_eq; rewrite !length_insert; lia|].
      all: split; [intros p' pn' [=]|].
      all: intros q' qn' [= <-] Hqn'; rewrite Hqn in Hqn'; injection Hqn' as <-;
        rewrite cell_insert_ne by congruence; apply cell_insert_eq; lia.
    + erewrite bind_Some by (eapply load_Some; exact Ha).
      msimpl.
      destruct (ptr_eqb (Some a) hd); msimpl;
        destruct (ptr_eqb (Some a) tl); msimpl; rewrite ?Epv, ?Enx.
      all: erewrite deallocate_Some by exact Ha.
      all: eexists; (split; [reflexivity|]).
      all: split; [apply cell_insert_eq; lia|].
      all: split; [intros p' pn' [=]|].
      all: intros q' qn' [=].
Qed.

(** C6. Erasing the only element of a node other than the head unlinks
    the node (its neighbours point to each other, [tail] moves to its
    predecessor when it was the last node), destroys it, and returns the
    cursor at the start of the following node; erasing the only element of
    the head node when it is also the last node leaves the container empty,
    with [size()] equal to 0, and the node in place. *)
Theorem erase_sole_element (s : unrolled_list T) (a : ptr) (nd : Node.t T)
        (x : T) (post : list (slot T)) :
  cell (heap s) a = Some nd ->
  Node.size nd = 1 ->
  Node.data nd = obj x :: post ->
  (forall p, Node.prev nd = Some p -> p <> a /\ is_Some (cell (heap s) p)) ->
  (forall q, Node.next nd = Some q -> q <> a /\ is_Some (cell (heap s) q)) ->
  (forall p, Node.prev nd = Some p -> Node.next nd <> Some p) ->
  exists it s1,
    erase (mk_iterator (Some a) 0) s = Some (it, s1) /\
    size_ s1 = wrap (size_ s - 1) /\
    (head s <> Some a ->
     it = mk_iterator (Node.next nd) 0 /\
     cell (heap s1) a = None /\
     (forall p pn, Node.prev nd = Some p -> cell (heap s) p = Some pn ->
                   cell (heap s1) p = Some (Node.set_next (Node.next nd) pn)) /\
     (forall q qn, Node.next nd = Some q -> cell (heap s) q = Some qn ->
                   cell (heap s1) q = Some (Node.set_prev (Node.prev nd) qn)) /\
     head s1 = head s /\
     tail s1 = (if ptr_eqb (Some a) (tail s) then Node.prev nd else tail s)) /\
    (head s = Some a -> tail s = Some a -> size_ s = 1 ->
     it = mk_iterator (Some a) 0 /\
     cell (heap s1) a = Some (Node.mk 0 (Node.next nd) (Node.prev nd) (raw :: post)) /\
     head s1 = Some a /\
     tail s1 = Some a /\
     size_ s1 = 0 /\
     empty s1 = Some (true, s1)).
Proof.
  intros Ha Hsz Hd Hp Hq Hpq.
  destruct s as [hd tl n h]. cbn [heap size_ head tail] in *.
  pose proof (cell_lt _ _ _ Ha) as Hlta.
  assert (Node.erase 0 nd =
          Some (Node.mk 0 (Node.next nd) (Node.prev nd) (raw :: post))) as He.
  { pose proof (node_erase_spec nd [x] post 0 Hsz Hd) as H.
    cbn in H. apply H; [lia|reflexivity]. }
  unfold erase. msimpl.
  erewrite bind_Some by (eapply call_Some; [exact Ha | exact He]).
  msimpl.
  set (nd1 := Node.mk 0 (Node.next nd) (Node.prev nd) (raw :: post)).
  assert (cell (<[a := Some nd1]> h) a = Some nd1) as Ha1 by now apply cell_insert_eq.
  erewrite bind_Some by (eapply load_Some; exact Ha1).
  msimpl. cbn [Node.size nd1]. rewrite Z.eqb_refl. cbn [andb].
  destruct (ptr_eqb (Some a) hd) eqn:Ehd; cbn [negb].
  - apply ptr_eqb_eq in Ehd. subst hd.
    eexists _, _. split; [reflexivity|]. cbn [size_ heap head tail].
    split; [reflexivity|]. split; [congruence|].
    intros _ -> ->. repeat split; try reflexivity. exact Ha1.
  - apply ptr_eqb_neq in Ehd.
    destruct (destroy_node_spec hd tl (wrap (n - 1)) (<[a := Some nd1]> h) a nd1 Ha1)
      as (h1 & Hdn & Hgone & Hprev & Hnext).
    { intros p Hpv. destruct (Hp p Hpv) as [Hne [pn Hpn]].
      split; [exact Hne|]. exists pn. now rewrite cell_insert_ne. }
    { intros q Hnx. destruct (Hq q Hnx) as [Hne [qn Hqn]].
      split; [exact Hne|]. exists qn. now rewrite cell_insert_ne. }
    { exact Hpq. }
    erewrite bind_Some by exact Hdn.
    unfold ret.
    eexists _, _. split; [reflexivity|]. cbn [size_ heap head tail].
    split; [reflexivity|]. split; [|congruence].
    intros _. split; [reflexivity|]. split; [exact Hgone|].
    split.
    { intros p pn Hpv Hpn. apply (Hprev p pn Hpv).
      rewrite cell_insert_ne; [exact Hpn|]. destruct (Hp p Hpv). congruence. }
    split.
    { intros q qn Hnx Hqn. apply (Hnext q qn Hnx).
      rewrite cell_insert_ne; [exact Hqn|]. destruct (Hq q Hnx). congruence. }
    split; [|reflexivity].
    destruct (ptr_eqb (Some a) hd) eqn:E; [|reflexivity].
    apply ptr_eqb_eq in E. congruence.
Qed.

(** C10. On a container with [size()] equal to 0, [pop_back] and
    [pop_front] return and leave the container and its nodes unchanged. *)
Theorem pop_on_empty_is_noop (s : unrolled_list T) :
  size_ s = 0 ->
  pop_back s = Some (tt, s) /\ pop_front s = Some (tt, s).
Proof.
  intros H. unfold pop_back, pop_front. rewrite !bind_empty, H. split; reflexivity.
Qed.
End Erase.

(** ** Traversal of a well-formed chain *)

Section Walks.
Context {T : Type}.
Variable NodeMaxSize : size_t.
Implicit Types (h : list (option (Node.t T))) (nd : Node.t T) (a b : ptr)
         (s : unrolled_list T).

Lemma node_holds_length nd xs :
  node_holds NodeMaxSize nd xs -> (length xs <= length (Node.data nd))%nat.
Proof.
  intros (_ & _ & Ht). apply (f_equal length) in Ht.
  rewrite length_take, length_fmap in Ht. lia.
Qed.

Lemma node_holds_lookup nd xs k x :
  node_holds NodeMaxSize nd xs -> xs !! k = Some x ->
  rd (Node.data nd) (Z.of_nat k) = Some (obj x).
Proof.
  intros Hh Hx. pose proof (node_holds_length nd xs Hh) as Hl.
  destruct Hh as (_ & _ & Ht).
  pose proof (lookup_lt_Some _ _ _ Hx) as Hk.
  unfold rd. rewrite Nat2Z.id.
  destruct (Z.leb_spec 0 (Z.of_nat k)); [|lia].
  destruct (Z.ltb_spec (Z.of_nat k) (Z.of_nat (length (Node.data nd)))); [|lia].
  cbn. rewrite <- (lookup_take_lt _ (length xs)) by lia.
  rewrite Ht, list_lookup_fmap, Hx. reflexivity.
Qed.

Lemma deref_Some s a nd k x :
  cell (heap s) a = Some nd ->
  rd (Node.data nd) k = Some (obj x) ->
  deref (mk_iterator (Some a) k) s = Some (x, s).
Proof.
  intros Ha Hr. destruct s as [hd tl n h]. unfold deref. cbn [current_node current_pos].
  erewrite bind_Some by (eapply load_Some; exact Ha).
  unfold bind, lift. now rewrite Hr.
Qed.

Lemma incr_Some s a nd k :
  cell (heap s) a = Some nd ->
  incr (mk_iterator (Some a) k) s =
  Some (if wrap (k + 1) <? Node.size nd
        then mk_iterator (Some a) (wrap (k + 1))
        else mk_iterator (Node.next nd) 0, s).
Proof.
  intros Ha. destruct s as [hd tl n h]. unfold incr. cbn [current_node current_pos].
  erewrite bind_Some by (eapply load_Some; exact Ha).
  now destruct (wrap (k + 1) <? Node.size nd).
Qed.

(** Inside a node, the walk meets the elements from offset [k] on, and
    continues at the start of the next node. *)
Lemma walks_node s a nd xs rest :
  cell (heap s) a = Some nd ->
  node_holds NodeMaxSize nd xs ->
  Z.of_nat (length xs) < 2 ^ SIZE_WIDTH ->
  walks s (mk_iterator (Node.next nd) 0) rest ->
  forall j k, (k + j + 1 = length xs)%nat ->
    walks s (mk_iterator (Some a) (Z.of_nat k)) (drop k xs ++ rest).
Proof.
  intros Ha Hh Hb Hrest. pose proof Hh as (Hsz & _ & _).
  induction j as [|j IH]; intros k Hk.
  - destruct (lookup_lt_is_Some_2 xs k ltac:(lia)) as [x Hx].
    rewrite (drop_S _ _ _ Hx), drop_ge by lia. cbn [app].
    eapply walks_step.
    + reflexivity.
    + eapply deref_Some; [exact Ha|]. eapply node_holds_lookup; eassumption.
    + rewrite (incr_Some s a nd _ Ha). rewrite wrap_small by lia.
      destruct (Z.ltb_spec (Z.of_nat k + 1) (Node.size nd)); [lia|reflexivity].
    + exact Hrest.
  - destruct (lookup_lt_is_Some_2 xs k ltac:(lia)) as [x Hx].
    rewrite (drop_S _ _ _ Hx). cbn [app].
    eapply walks_step.
    + reflexivity.
    + eapply deref_Some; [exact Ha|]. eapply node_holds_lookup; eassumption.
    + rewrite (incr_Some s a nd _ Ha). rewrite wrap_small by lia.
      destruct (Z.ltb_spec (Z.of_nat k + 1) (Node.size nd)); [reflexivity|lia].
    + replace (Z.of_nat k + 1) with (Z.of_nat (S k)) by lia.
      apply IH. lia.
Qed.

Lemma chain_walks s : forall ps xss pv,
  chain NodeMaxSize (heap s) pv ps None xss ->
  Forall (fun xs => Z.of_nat (length xs) < 2 ^ SIZE_WIDTH) xss ->
  walks s (mk_iterator (ps !! 0%nat) 0) (concat xss).
Proof.
  induction ps as [|a ps IH]; intros [|xs xss] pv Hc Hb; cbn in Hc; try contradiction.
  - apply walks_end.
  - destruct (cell (heap s) a) as [nd|] eqn:Ha; [|contradiction].
    destruct Hc as (_ & Hnx & Hh & Hne & Hc).
    apply Forall_cons in Hb as [Hb1 Hb2].
    cbn [concat lookup list_lookup].
    pose proof (walks_node s a nd xs (concat xss) Ha Hh Hb1) as Hw.
    replace (Node.next nd) with (ps !! 0%nat) in Hw by (rewrite Hnx; now destruct ps).
    specialize (Hw (IH _ _ Hc Hb2)).
    destruct xs as [|x xs]; [congruence|].
    apply (Hw (length xs) 0%nat). cbn. lia.
Qed.

Lemma concat_length_bound (xss : list (list T)) xs :
  xs ∈ xss -> (length xs <= length (concat xss))%nat.
Proof.
  induction xss as [|ys xss IH]; intros Hin.
  - inversion Hin.
  - cbn. rewrite length_app. apply elem_of_cons in Hin as [->|Hin]; [lia|].
    specialize (IH Hin). lia.
Qed.

Lemma wf_walks s xss :
  wf NodeMaxSize s xss -> walks s (mk_iterator (head s) 0) (concat xss).
Proof.
  intros (ps & _ & Hc & Hhd & _ & Hsz & Hb). rewrite Hhd.
  eapply chain_walks; [exact Hc|].
  apply Forall_forall. intros xs Hin.
  pose proof (concat_length_bound xss xs Hin). lia.
Qed.

Lemma for_each_walks s it xs :
  walks s it xs ->
  forall fuel, (length xs <= fuel)%nat -> for_each fuel it end_ s = Some (xs, s).
Proof.
  induction 1 as [|it x it1 xs Hne Hd Hi Hw IH]; intros fuel Hf.
  - now destruct fuel.
  - destruct fuel as [|fuel]; [cbn in Hf; lia|].
    cbn [for_each]. rewrite Hne.
    erewrite bind_Some by exact Hd.
    erewrite bind_Some by exact Hi.
    erewrite bind_Some by (apply IH; cbn in Hf; lia).
    reflexivity.
Qed.

Lemma distance_walks s it xs :
  walks s it xs ->
  forall fuel, (length xs <= fuel)%nat ->
               distance fuel it end_ s = Some (length xs, s).
Proof.
  induction 1 as [|it x it1 xs Hne Hd Hi Hw IH]; intros fuel Hf.
  - now destruct fuel.
  - destruct fuel as [|fuel]; [cbn in Hf; lia|].
    cbn [distance]. rewrite Hne.
    erewrite bind_Some by exact Hi.
    erewrite bind_Some by (apply IH; cbn in Hf; lia).
    reflexivity.
Qed.

Lemma to_list_wf s xss fuel :
  wf NodeMaxSize s xss -> (length (concat xss) <= fuel)%nat ->
  to_list fuel s = Some (concat xss, s).
Proof.
  intros Hwf Hf. unfold to_list, begin. msimpl.
  apply for_each_walks; [|exact Hf]. now apply wf_walks.
Qed.

Context `{EqDecision T}.

Lemma std_equal_walks (lhs rhs : unrolled_list T) it1 (xs : list T) :
  walks lhs it1 xs ->
  forall it2 ys fuel,
    walks rhs it2 ys -> length xs = length ys -> (length xs <= fuel)%nat ->
    std_equal fuel lhs rhs it1 end_ it2 = Some (bool_decide (xs = ys)).
Proof.
  induction 1 as [|it x it1 xs Hne Hd Hi Hw IH]; intros it2 ys fuel Hr Hl Hf.
  - destruct ys; [|discriminate]. now destruct fuel.
  - destruct Hr as [|it2 y it2' ys Hne2 Hd2 Hi2 Hw2]; [discriminate|].
    destruct fuel as [|fuel]; [cbn in Hf; lia|].
    cbn [std_equal]. rewrite Hne.
    unfold eval. rewrite Hd, Hd2. cbn.
    destruct (decide (x = y)) as [->|Hxy].
    + rewrite bool_decide_eq_true_2 by reflexivity.
      rewrite Hi, Hi2. cbn.
      rewrite (IH it2' ys fuel Hw2) by (cbn in *; lia).
      f_equal. apply bool_decide_ext. split; [now intros -> | now intros [= ->]].
    + rewrite bool_decide_eq_false_2 by assumption.
      f_equal. symmetry. apply bool_decide_eq_false_2. congruence.
Qed.

(** For two containers that satisfy the representation invariant,
    whatever the distribution of their elements over nodes, [operator==]
    returns true exactly when their sizes are equal and their element
    sequences in traversal order are equal, and [operator!=] returns the
    negation of [operator==]. *)
Theorem operator_eq_spec (lhs rhs : unrolled_list T) (xss yss : list (list T))
        (fuel : nat) :
  wf NodeMaxSize lhs xss ->
  wf NodeMaxSize rhs yss ->
  (length (concat xss) <= fuel)%nat ->
  (length (concat yss) <= fuel)%nat ->
  exists r : bool,
    eval (to_list fuel) lhs = Some (concat xss) /\
    eval (to_list fuel) rhs = Some (concat yss) /\
    operator_eq fuel lhs rhs = Some r /\
    (r = true <-> eval size lhs = eval size rhs /\ concat xss = concat yss) /\
    operator_ne fuel lhs rhs = Some (negb r).
Proof.
  intros Hl Hr Hfl Hfr.
  pose proof (wf_walks _ _ Hl) as Hwl. pose proof (wf_walks _ _ Hr) as Hwr.
  pose proof Hl as (_ & _ & _ & _ & _ & Hszl & Hbl).
  pose proof Hr as (_ & _ & _ & _ & _ & Hszr & Hbr).
  assert (operator_eq fuel lhs rhs =
          Some (bool_decide (concat xss = concat yss))) as Heq.
  { unfold operator_eq, eval, size, get_size, begin. cbn.
    destruct (Z.eqb_spec (size_ lhs) (size_ rhs)) as [E|E]; cbn.
    - apply std_equal_walks; [assumption..|lia|assumption].
    - f_equal. symmetry. apply bool_decide_eq_false_2. intros Hc.
      rewrite Hszl, Hszr, Hc in E. congruence. }
  exists (bool_decide (concat xss = concat yss)).
  split; [unfold eval; now rewrite (to_list_wf lhs xss fuel Hl Hfl)|].
  split; [unfold eval; now rewrite (to_list_wf rhs yss fuel Hr Hfr)|].
  split; [exact Heq|]. split.
  - rewrite bool_decide_eq_true. unfold eval, size, get_size. cbn. split.
    + intros Hc. split; [|exact Hc]. now rewrite Hszl, Hszr, Hc.
    + now intros [_ Hc].
  - unfold operator_ne. now rewrite Heq.
Qed.
End Walks.

(** ** Chains *)

Section ChainFacts.
Context {T : Type}.
Variable NodeMaxSize : size_t.
Implicit Types (h : list (option (Node.t T))) (nd : Node.t T) (a b : ptr)
         (s : unrolled_list T) (ps qs : list ptr) (xss yss : list (list T)).

Lemma chain_length h : forall ps pv nx xss,
  chain NodeMaxSize h pv ps nx xss -> length ps = length xss.
Proof.
  induction ps as [|a ps IH]; intros pv nx [|xs xss] Hc; cbn in Hc;
    try contradiction; [reflexivity|].
  destruct (cell h a); [|contradiction].
  destruct Hc as (_ & _ & _ & _ & Hc). cbn. f_equal. eauto.
Qed.

Lemma chain_agree h h2 : forall ps pv nx xss,
  chain NodeMaxSize h pv ps nx xss ->
  (forall c, c ∈ ps -> cell h2 c = cell h c) ->
  chain NodeMaxSize h2 pv ps nx xss.
Proof.
  induction ps as [|a ps IH]; intros pv nx [|xs xss] Hc Hag; cbn in Hc |- *;
    try contradiction; [exact I|].
  rewrite (Hag a) by apply list_elem_of_here.
  destruct (cell h a); [|contradiction].
  destruct Hc as (H1 & H2 & H3 & H4 & Hc).
  repeat (split; [assumption|]).
  apply IH; [exact Hc|]. intros c Hin. apply Hag. now apply list_elem_of_further.
Qed.

Lemma chain_lt h : forall ps pv nx xss,
  chain NodeMaxSize h pv ps nx xss -> forall c, c ∈ ps -> (c < length h)%nat.
Proof.
  induction ps as [|a ps IH]; intros pv nx [|xs xss] Hc c Hin; cbn in Hc;
    try contradiction; [inversion Hin|].
  destruct (cell h a) eqn:Ha; [|contradiction].
  destruct Hc as (_ & _ & _ & _ & Hc).
  apply elem_of_cons in Hin as [->|Hin]; [eapply cell_lt; eassumption | eauto].
Qed.

(** A chain splits at any node. *)
Lemma chain_app h : forall ps pv qs nx xss yss,
  length ps = length xss ->
  chain NodeMaxSize h pv (ps ++ qs) nx (xss ++ yss) <->
  chain NodeMaxSize h pv ps (match qs with [] => nx | b :: _ => Some b end) xss /\
  chain NodeMaxSize h (match last ps with Some a => Some a | None => pv end) qs nx yss.
Proof.
  induction ps as [|a ps IH]; intros pv qs nx [|xs xss] yss Hl; try discriminate.
  - cbn. tauto.
  - cbn [app chain]. destruct (cell h a) as [nd|]; [|tauto].
    injection Hl as Hl. rewrite (IH (Some a) qs nx xss yss Hl).
    replace (match last ps with Some a0 => Some a0 | None => Some a end)
      with (match last (a :: ps) with Some a0 => Some a0 | None => pv end).
    2:{ rewrite last_cons. now destruct (last ps). }
    replace (match ps ++ qs with [] => nx | b :: _ => Some b end)
      with (match ps with
            | [] => match qs with [] => nx | b :: _ => Some b end
            | b :: _ => Some b
            end) by now destruct ps.
    tauto.
Qed.

Lemma chain_single h a nd pv nx (xs : list T) :
  cell h a = Some nd ->
  Node.prev nd = pv ->
  Node.next nd = nx ->
  node_holds NodeMaxSize nd xs ->
  xs <> [] ->
  chain NodeMaxSize h pv [a] nx [xs].
Proof. intros Ha Hp Hn Hh Hne. cbn [chain]. rewrite Ha. repeat split; try assumption; apply Hh. Qed.

Lemma chain_single_inv h a pv nx (xs : list T) :
  chain NodeMaxSize h pv [a] nx [xs] ->
  exists nd, cell h a = Some nd /\ Node.prev nd = pv /\ Node.next nd = nx /\
             node_holds NodeMaxSize nd xs /\ xs <> [].
Proof.
  cbn [chain]. destruct (cell h a) as [nd|]; [|contradiction].
  intros (H1 & H2 & H3 & H4 & _). now exists nd.
Qed.
End ChainFacts.

(** ** [push_back] *)

Section PushBack.
Context {T : Type}.
Variable NodeMaxSize : size_t.
Implicit Types (h : list (option (Node.t T))) (nd : Node.t T) (a b : ptr)
         (s : unrolled_list T) (ps qs : list ptr) (xss yss : list (list T)).

Lemma insert_app_new {A} (l : list A) (x y : A) :
  <[length l := y]> (l ++ [x]) = l ++ [y].
Proof.
  replace (length l) with (length l + 0)%nat by lia.
  now rewrite insert_app_r.
Qed.

(** [create_node()] in a container without nodes. *)
Lemma create_node_first n h :
  create_node NodeMaxSize None None (mk_list None None n h) =
  Some (Some (length h),
        mk_list (Some (length h)) (Some (length h)) n
          (h ++ [Some (Node.ctor (T := T) NodeMaxSize)])).
Proof.
  unfold create_node.
  unfold bind at 1, allocate at 1. cbn [heap head tail size_].
  erewrite bind_Some by (eapply assign_Some; apply cell_app_new).
  rewrite insert_app_new.
  erewrite bind_Some by (eapply assign_Some; apply cell_app_new).
  rewrite insert_app_new.
  msimpl. reflexivity.
Qed.

Lemma node_holds_data nd xs :
  node_holds NodeMaxSize nd xs ->
  Node.data nd = (obj <$> xs) ++ drop (length xs) (Node.data nd).
Proof.
  intros (_ & _ & Ht). rewrite <- Ht. symmetry. apply take_drop.
Qed.

Lemma node_holds_intro nd xs post :
  Node.size nd = Z.of_nat (length xs) ->
  Node.data nd = (obj <$> xs) ++ post ->
  Z.of_nat (length xs + length post) = NodeMaxSize ->
  node_holds NodeMaxSize nd xs.
Proof.
  intros Hs Hd Hl. repeat split.
  - exact Hs.
  - rewrite Hd, length_app, length_fmap. exact Hl.
  - rewrite Hd. apply take_app_length'. now rewrite length_fmap.
Qed.

Lemma emplace_back_fresh (pv : option ptr) (v : T) :
  0 < NodeMaxSize ->
  Node.emplace_back (obj v)
    (Node.mk 0 None pv (replicate (Z.to_nat NodeMaxSize) raw)) =
  Some (Node.mk 1 None pv ((obj <$> [v]) ++ replicate (Z.to_nat NodeMaxSize - 1) raw)).
Proof.
  intros HC.
  apply (node_emplace_back_spec
           (Node.mk 0 None pv (replicate (Z.to_nat NodeMaxSize) raw)) [] raw
           (replicate (Z.to_nat NodeMaxSize - 1) raw) v); [reflexivity| |reflexivity].
  cbn. destruct (Z.to_nat NodeMaxSize) eqn:E; [lia|]. cbn.
  now rewrite Nat.sub_0_r.
Qed.

Lemma push_back_wf s xss v :
  0 < NodeMaxSize ->
  wf NodeMaxSize s xss ->
  size_ s + 1 < 2 ^ SIZE_WIDTH ->
  exists s1 xss1 a nd ys,
    push_back NodeMaxSize v s = Some (tt, s1) /\
    wf NodeMaxSize s1 xss1 /\
    concat xss1 = concat xss ++ [v] /\
    tail s1 = Some a /\
    cell (heap s1) a = Some nd /\
    Node.next nd = None /\
    node_holds NodeMaxSize nd (ys ++ [v]) /\
    Z.of_nat (length ys) + 1 < 2 ^ SIZE_WIDTH.
Proof.
  intros HC (ps & Hnd & Hc & Hhd & Htl & Hsz & Hb) Hb1.
  destruct s as [hd tl n h]. cbn [head tail size_ heap] in *.
  pose proof (chain_length _ _ _ _ _ _ Hc) as Hlen.
  unfold push_back, emplace_back.
  destruct xss as [|xs0 xss0] using rev_ind.
  - (* no node yet *)
    destruct ps; [|discriminate]. cbn in Hhd, Htl, Hsz.
    change (Z.of_nat 0) with 0 in Hsz. subst hd tl n.
    rewrite bind_empty. cbn [size_ Z.eqb when].
    rewrite bind_bind.
    erewrite bind_Some by apply create_node_first.
    msimpl.
    erewrite bind_Some by (eapply load_Some; apply cell_app_new).
    unfold Node.is_full. cbn [Node.size Node.ctor].
    destruct (Z.eqb_spec 0 NodeMaxSize) as [E|_]; [lia|].
    msimpl.
    pose proof (emplace_back_fresh None v HC) as He.
    erewrite bind_Some by (eapply call_Some; [apply cell_app_new | exact He]).
    msimpl. rewrite insert_app_new. unfold put_size. cbn [head tail heap].
    set (b := length h).
    eexists _, [[v]], b, _, []. split; [reflexivity|].
    assert (cell (h ++ [Some (Node.mk 1 None None
              ((obj <$> [v]) ++ replicate (Z.to_nat NodeMaxSize - 1) raw))]) b = Some
              (Node.mk 1 None None
              ((obj <$> [v]) ++ replicate (Z.to_nat NodeMaxSize - 1) raw))) as Hcb
      by apply cell_app_new.
    assert (node_holds NodeMaxSize (Node.mk 1 None None
              ((obj <$> [v]) ++ replicate (Z.to_nat NodeMaxSize - 1) raw)) [v]) as Hh.
    { eapply node_holds_intro; [reflexivity..|].
      rewrite length_replicate. cbn [length]. lia. }
    split.
    { exists [b]. cbn [head tail size_ heap].
      split; [apply NoDup_singleton|].
      split; [apply chain_single with (nd := Node.mk 1 None None
              ((obj <$> [v]) ++ replicate (Z.to_nat NodeMaxSize - 1) raw));
              [exact Hcb|reflexivity|reflexivity|exact Hh|congruence]|].
      repeat split; reflexivity. }
    cbn [head tail size_ heap].
    split; [reflexivity|]. split; [reflexivity|]. split; [exact Hcb|].
    split; [reflexivity|]. split; [exact Hh | reflexivity].
  - (* the last node exists *)
    clear IHxss0.
    destruct ps as [|a ps0 _] using rev_ind; [rewrite length_app in Hlen; cbn in Hlen; lia|].
    rewrite !length_app in Hlen. cbn [length] in Hlen.
    assert (length ps0 = length xss0) as Hlen0 by lia.
    rewrite last_snoc in Htl. subst tl.
    apply (chain_app NodeMaxSize h ps0 None [a] None xss0 [xs0] Hlen0) in Hc as [Hc0 Hca].
    apply chain_single_inv in Hca as (nd & Ha & Hpv & Hnx & Hh & Hne).
    apply NoDup_app in Hnd as (Hnd0 & Hnotin & _).
    assert (a ∉ ps0) as Ha0.
    { intros Hin. apply (Hnotin a Hin). apply list_elem_of_here. }
    rewrite concat_app, length_app in Hsz. cbn [concat length] in Hsz.
    rewrite app_nil_r in Hsz.
    assert (0 < length xs0)%nat as Hpos by (destruct xs0; [congruence|cbn; lia]).
    rewrite bind_empty. cbn [size_].
    destruct (Z.eqb_spec n 0) as [E|_]; [lia|].
    msimpl.
    erewrite bind_Some by (eapply load_Some; exact Ha).
    pose proof Hh as (Hsn & Hln & _).
    pose proof (node_holds_length _ _ _ Hh) as Hle.
    pose proof (cell_lt _ _ _ Ha) as Hlta.
    unfold Node.is_full.
    destruct (Z.eqb_spec (Node.size nd) NodeMaxSize) as [Efull|Efull]; msimpl.
    + (* the last node is full: a new node is linked after it *)
      pose proof (create_node_after NodeMaxSize hd (Some a) n h a nd Ha) as Hcn.
      rewrite Hnx in Hcn.
      destruct Hcn as (h1 & nd1 & Hcr & Hl1 & Hcb & Hca1 & _ & _ & _ & Hnd1 & Hfr).
      { intros q Hq. congruence. }
      erewrite bind_Some by exact Hcr.
      specialize (Hnd1 ltac:(congruence)). subst nd1.
      msimpl.
      set (b := length h) in *.
      pose proof (emplace_back_fresh (Some a) v HC) as He.
      erewrite bind_Some by (eapply call_Some; [exact Hcb | exact He]).
      msimpl. unfold put_size. cbn [head tail heap].
      set (nb := Node.mk 1 None (Some a)
                   ((obj <$> [v]) ++ replicate (Z.to_nat NodeMaxSize - 1) raw)).
      assert (cell (<[b := Some nb]> h1) b = Some nb) as Hcb2
        by (apply cell_insert_eq; lia).
      assert (node_holds NodeMaxSize nb [v]) as Hhb.
      { eapply node_holds_intro; [reflexivity..|].
        rewrite length_replicate. cbn [length]. lia. }
      assert (a <> b) as Hab by (unfold b; lia).
      eexists _, ((xss0 ++ [xs0]) ++ [[v]]), b, nb, []. split; [reflexivity|].
      split.
      { exists ((ps0 ++ [a]) ++ [b]). cbn [head tail size_ heap].
        split.
        { apply NoDup_app. split; [|split; [|apply NoDup_singleton]].
          - apply NoDup_app. split; [exact Hnd0|]. split; [exact Hnotin|apply NoDup_singleton].
          - intros c Hin Hcb'. apply list_elem_of_singleton in Hcb'. subst c.
            apply elem_of_app in Hin as [Hin|Hin].
            + pose proof (chain_lt _ _ _ _ _ _ Hc0 b Hin). unfold b in *. lia.
            + apply list_elem_of_singleton in Hin. congruence. }
        split.
        { apply chain_app; [rewrite !length_app; cbn; lia|].
          rewrite last_snoc. split.
          - apply chain_app; [exact Hlen0|]. split.
            + eapply chain_agree; [exact Hc0|]. intros c Hin.
              pose proof (chain_lt _ _ _ _ _ _ Hc0 c Hin) as Hcl.
              rewrite cell_insert_ne by (unfold b; lia).
              apply Hfr; [|exact Hcl|congruence]. intros ->. contradiction.
            + apply chain_single with (nd := Node.set_next (Some b) nd);
                [rewrite cell_insert_ne by congruence; exact Hca1
                |exact Hpv|reflexivity|exact Hh|exact Hne].
          - apply chain_single with (nd := nb);
              [exact Hcb2|reflexivity|reflexivity|exact Hhb|congruence]. }
        split.
        { rewrite <- app_assoc. destruct is_null eqn:E; [|now destruct ps0].
          rewrite Hhd in E. now destruct ps0. }
        split; [now rewrite last_snoc|].
        rewrite wrap_small by lia.
        rewrite !concat_app. cbn [concat]. rewrite ?app_nil_r, !length_app.
        cbn [length]. lia. }
      cbn [head tail size_ heap].
      split; [rewrite (concat_app (xss0 ++ [xs0])); reflexivity|].
      split; [reflexivity|]. split; [exact Hcb2|].
      split; [reflexivity|]. split; [exact Hhb | reflexivity].
    + (* the last node has a free slot *)
      assert (length xs0 < length (Node.data nd))%nat as Hlt by lia.
      destruct (drop (length xs0) (Node.data nd)) as [|z post] eqn:Edrop.
      { apply (f_equal length) in Edrop. rewrite length_drop in Edrop. cbn in Edrop. lia. }
      pose proof (node_holds_data nd xs0 Hh) as Hdata. rewrite Edrop in Hdata.
      pose proof (node_emplace_back_spec nd xs0 z post v Hsn Hdata ltac:(lia)) as He.
      erewrite bind_Some by (eapply call_Some; [exact Ha | exact He]).
      msimpl. unfold put_size. cbn [head tail heap].
      set (nd1 := Node.mk (Z.of_nat (length xs0) + 1) (Node.next nd) (Node.prev nd)
                    ((obj <$> xs0 ++ [v]) ++ post)).
      assert (cell (<[a := Some nd1]> h) a = Some nd1) as Hca1
        by (apply cell_insert_eq; lia).
      assert (node_holds NodeMaxSize nd1 (xs0 ++ [v])) as Hh1.
      { eapply node_holds_intro; [|reflexivity|].
        - cbn. rewrite length_app. cbn. lia.
        - apply (f_equal length) in Edrop. rewrite length_drop in Edrop.
          cbn [length] in Edrop. rewrite length_app. cbn [length]. lia. }
      eexists _, (xss0 ++ [xs0 ++ [v]]), a, nd1, xs0. split; [reflexivity|].
      split.
      { exists (ps0 ++ [a]). cbn [head tail size_ heap].
        split.
        { apply NoDup_app. split; [exact Hnd0|]. split; [exact Hnotin|apply NoDup_singleton]. }
        split.
        { apply chain_app; [exact Hlen0|]. split.
          - eapply chain_agree; [exact Hc0|]. intros c Hin.
            apply cell_insert_ne. intros ->. contradiction.
          - apply chain_single with (nd := nd1);
              [exact Hca1|exact Hpv|exact Hnx|exact Hh1|now destruct xs0]. }
        split; [exact Hhd|]. split; [now rewrite last_snoc|].
        rewrite wrap_small by lia.
        rewrite !concat_app. cbn [concat]. rewrite ?app_nil_r, !length_app.
        cbn [length]. lia. }
      cbn [head tail size_ heap].
      split.
      { rewrite !concat_app. cbn [concat]. now rewrite !app_nil_r, app_assoc. }
      split; [reflexivity|]. split; [exact Hca1|].
      split; [exact Hnx|]. split; [exact Hh1 | lia].
Qed.
End PushBack.

(** ** Insertion at the end, construction from a sequence *)

Section EndInsert.
Context {T : Type}.
Variable NodeMaxSize : size_t.
Implicit Types (h : list (option (Node.t T))) (nd : Node.t T) (a b : ptr)
         (s : unrolled_list T) (ps qs : list ptr) (xss yss : list (list T)).

Lemma wf_ctor : wf NodeMaxSize (ctor (T := T)) [].
Proof. exists []. repeat split; try reflexivity. apply NoDup_nil_2. Qed.

Lemma push_back_all_wf (ys : list T) : forall s xss,
  0 < NodeMaxSize ->
  wf NodeMaxSize s xss ->
  size_ s + Z.of_nat (length ys) < 2 ^ SIZE_WIDTH ->
  exists s1 xss1,
    push_back_all NodeMaxSize ys s = Some (tt, s1) /\
    wf NodeMaxSize s1 xss1 /\
    concat xss1 = concat xss ++ ys.
Proof.
  induction ys as [|y ys IH]; intros s xss HC Hwf Hb.
  - exists s, xss. rewrite app_nil_r. now repeat split.
  - cbn [length] in Hb.
    destruct (push_back_wf NodeMaxSize s xss y HC Hwf ltac:(lia))
      as (s1 & xss1 & _ & _ & _ & Hpb & Hwf1 & Hcat1 & _).
    assert (size_ s1 = size_ s + 1) as Hs1.
    { destruct Hwf as (_ & _ & _ & _ & _ & Hsz & _).
      destruct Hwf1 as (_ & _ & _ & _ & _ & Hsz1 & _).
      rewrite Hsz, Hsz1, Hcat1, length_app. cbn. lia. }
    destruct (IH s1 xss1 HC Hwf1 ltac:(lia)) as (s2 & xss2 & Hall & Hwf2 & Hcat2).
    exists s2, xss2. cbn [push_back_all].
    erewrite bind_Some by exact Hpb.
    split; [exact Hall|]. split; [exact Hwf2|].
    rewrite Hcat2, Hcat1, <- app_assoc. reflexivity.
Qed.

(** Construction from a sequence, then forward traversal. *)
Lemma ctor_range_to_list (xs : list T) (fuel : nat) :
  0 < NodeMaxSize ->
  Z.of_nat (length xs) < 2 ^ SIZE_WIDTH ->
  (length xs <= fuel)%nat ->
  exists s xss,
    ctor_range NodeMaxSize xs = Some s /\
    wf NodeMaxSize s xss /\
    concat xss = xs /\
    to_list fuel s = Some (xs, s).
Proof.
  intros HC Hb Hf.
  destruct (push_back_all_wf xs ctor [] HC wf_ctor ltac:(cbn; lia))
    as (s & xss & Hall & Hwf & Hcat).
  cbn in Hcat. exists s, xss. unfold ctor_range, exec. rewrite Hall.
  split; [reflexivity|]. split; [exact Hwf|]. split; [exact Hcat|].
  rewrite <- Hcat. apply (to_list_wf NodeMaxSize); [exact Hwf|]. now rewrite Hcat.
Qed.

(** The reverse traversal of a container with a node starts by
    decrementing [end()], whose node pointer is null. *)
Lemma to_list_reverse_undefined s (fuel : nat) :
  head s <> None -> to_list_reverse fuel s = None.
Proof.
  intros Hhd. unfold to_list_reverse, begin. msimpl.
  destruct (head s) as [a|] eqn:E; [|congruence].
  destruct fuel; reflexivity.
Qed.

End EndInsert.

(** ** Where the invariant is left, and what follows *)

Section Leaving.
Context {T : Type}.
Variable NodeMaxSize : size_t.
Implicit Types (h : list (option (Node.t T))) (nd : Node.t T) (a b : ptr)
         (s : unrolled_list T).

(** Under the invariant, [size()] is the number of positions from
    [begin()] to [end()]. *)
Lemma size_is_traversal_length s (xss : list (list T)) (fuel : nat) :
  wf NodeMaxSize s xss ->
  (length (concat xss) <= fuel)%nat ->
  eval (let* b := begin in distance fuel b end_) s = Some (Z.to_nat (size_ s)).
Proof.
  intros Hwf Hf. pose proof (wf_walks _ _ _ Hwf) as Hw.
  destruct Hwf as (_ & _ & _ & _ & _ & Hsz & _).
  unfold eval, begin. msimpl.
  rewrite (distance_walks _ _ _ Hw fuel Hf). cbn. f_equal. lia.
Qed.

(** [pop_back] on a container with one element keeps its node: the
    invariant is lost. *)
Lemma pop_back_keeps_drained_head s (x : T) :
  wf NodeMaxSize s [[x]] ->
  exists a nd s1,
    pop_back s = Some (tt, s1) /\
    size_ s1 = 0 /\
    head s1 = Some a /\
    tail s1 = Some a /\
    cell (heap s1) a = Some nd /\
    Node.size nd = 0 /\
    ~ wf NodeMaxSize s1 [].
Proof.
  intros (ps & _ & Hc & Hhd & Htl & Hsz & _).
  pose proof (chain_length _ _ _ _ _ _ Hc) as Hl.
  destruct ps as [|a [|? ?]]; try discriminate.
  apply chain_single_inv in Hc as (nd & Ha & _ & _ & Hh & _).
  pose proof (node_holds_length _ _ _ Hh) as Hlen.
  destruct Hh as (Hs & _ & _).
  destruct s as [hd tl n h]. cbn [head tail size_ heap] in *.
  cbn in Hhd, Htl, Hsz, Hs, Hlen.
  change (Z.of_nat 1) with 1 in Hsz, Hs. subst hd tl n.
  pose proof (cell_lt _ _ _ Ha) as Hlt.
  unfold pop_back. msimpl. cbn [Z.eqb]. msimpl.
  erewrite bind_Some by (eapply load_Some; exact Ha).
  assert (Node.destroy_at (Node.size nd - 1) nd =
          Some (Node.set_data (<[0%nat := raw]> (Node.data nd)) nd)) as Hd.
  { unfold Node.destroy_at, wr. rewrite Hs.
    change (1 - 1) with 0. cbn [Z.leb Z.compare andb Z.to_nat].
    destruct (Z.ltb_spec 0 (Z.of_nat (length (Node.data nd)))); [reflexivity|lia]. }
  erewrite bind_Some by (eapply call_Some; [exact Ha | exact Hd]).
  erewrite bind_Some by (eapply assign_Some; apply cell_insert_eq; exact Hlt).
  rewrite list_insert_insert_eq. msimpl.
  erewrite bind_Some by (eapply load_Some; apply cell_insert_eq; exact Hlt).
  msimpl. rewrite Hs. cbn [Node.size Node.set_size].
  change (wrap (1 - 1) =? 0) with true.
  replace (ptr_eqb (Some a) (Some a)) with true by (symmetry; now apply ptr_eqb_eq).
  cbn [andb negb when]. unfold ret.
  eexists a, _, _. split; [reflexivity|]. cbn [head tail size_ heap].
  split; [reflexivity|]. split; [reflexivity|]. split; [reflexivity|].
  split; [apply cell_insert_eq; exact Hlt|]. split; [reflexivity|].
  intros (ps & _ & Hc & Hhd & _). cbn [head heap] in *.
  apply chain_length in Hc. destruct ps; discriminate.
Qed.

(** Erasing the last element of a node that keeps elements returns the
    cursor of the first element of this node. *)
Lemma erase_at_last_offset s a nd (xs : list T) (x : T) (post : list (slot T)) :
  cell (heap s) a = Some nd ->
  Node.size nd = Z.of_nat (length (xs ++ [x])) ->
  Node.data nd = (obj <$> xs ++ [x]) ++ post ->
  xs <> [] ->
  Z.of_nat (length (xs ++ [x])) < 2 ^ SIZE_WIDTH ->
  exists s1 nd1,
    erase (mk_iterator (Some a) (Z.of_nat (length xs))) s =
      Some (mk_iterator (Some a) 0, s1) /\
    cell (heap s1) a = Some nd1 /\
    Node.elements nd1 = Some xs /\
    deref (mk_iterator (Some a) 0) s1 = Some (default x (xs !! 0%nat), s1).
Proof.
  intros Ha Hs Hd Hne Hb. destruct s as [hd tl n h]. cbn [heap] in Ha.
  pose proof (cell_lt _ _ _ Ha) as Hlt.
  rewrite length_app in Hs, Hb. cbn [length] in Hs, Hb.
  assert (0 < length xs)%nat as Hpos by (destruct xs; [congruence|cbn; lia]).
  pose proof (node_erase_spec nd (xs ++ [x]) post (Z.of_nat (length xs))) as He.
  rewrite length_app in He. cbn [length] in He.
  specialize (He Hs Hd ltac:(lia) ltac:(lia)).
  rewrite Nat2Z.id, take_app_length, drop_ge, app_nil_r in He
    by (rewrite length_app; cbn; lia).
  unfold erase. cbn [current_node current_pos].
  erewrite bind_Some by (eapply call_Some; [exact Ha | exact He]).
  msimpl.
  erewrite bind_Some by (eapply load_Some; apply cell_insert_eq; exact Hlt).
  msimpl. cbn [Node.size].
  destruct (Z.eqb_spec (Z.of_nat (length xs + 1) - 1) 0) as [E|_]; [lia|].
  cbn [andb].
  destruct (Z.ltb_spec (Z.of_nat (length xs)) (Z.of_nat (length xs + 1) - 1)); [lia|].
  unfold ret. eexists _, _. split; [reflexivity|]. cbn [heap].
  split; [apply cell_insert_eq; exact Hlt|].
  split.
  - eapply node_elements_spec; [|reflexivity]. cbn. lia.
  - eapply deref_Some; [apply cell_insert_eq; exact Hlt|].
    destruct xs as [|x0 xs]; [congruence|]. reflexivity.
Qed.
End Leaving.

(** ** The claims on concrete containers *)

Section Drained.
Context {T : Type}.

(** Erasing in a node without elements: [size - 1] wraps around and the
    shift loop leaves the buffer. *)
Lemma erase_in_drained_node (s : unrolled_list T) (a : ptr) (nd : Node.t T) :
  cell (heap s) a = Some nd ->
  Node.size nd = 0 ->
  Z.of_nat (length (Node.data nd)) < 2 ^ SIZE_WIDTH ->
  erase (mk_iterator (Some a) 0) s = None.
Proof.
  intros Ha Hsz Hlen. destruct s as [hd tl n h]. cbn [heap] in Ha.
  unfold erase, call. cbn [current_node current_pos].
  rewrite bind_bind.
  erewrite bind_Some by (eapply load_Some; exact Ha).
  rewrite bind_bind.
  assert (Node.erase 0 nd = None) as He.
  { unfold Node.erase. destruct (wr (Node.data nd) 0 raw) as [d|] eqn:Hw; [|reflexivity].
    apply wr_Some in Hw as [_ ->]. cbn.
    rewrite shift_down_overrun; [reflexivity|lia| |].
    - rewrite length_insert, Hsz.
      change (wrap (0 - 1)) with (2 ^ SIZE_WIDTH - 1). lia.
    - rewrite Hsz. change (wrap (0 - 1)) with (2 ^ SIZE_WIDTH - 1).
      assert (0 < 2 ^ SIZE_WIDTH - 1) by reflexivity. lia. }
  unfold bind, lift. now rewrite He.
Qed.
End Drained.

(** C8. After [push_back(1); pop_back();] the container has no element,
    as the container just constructed: [size()] is 0 for both. Yet
    [operator==] with the drained container on the left has no defined
    result: the sizes are equal, [begin()] of the drained container is not
    [end()], and [std::equal] dereferences [begin()] of the fresh container,
    whose node pointer is null; [operator!=] has none either. With the
    operands exchanged, [operator==] returns true. *)
Theorem operator_eq_undefined_on_drained :
  exists s,
    drain_by_pop_back ctor = Some (tt, s) /\
    eval size s = Some 0 /\
    eval size (ctor (T := Z)) = Some 0 /\
    eval begin s = Some (mk_iterator (Some 0%nat) 0) /\
    iterator_eqb (mk_iterator (Some 0%nat) 0) end_ = false /\
    eval begin (ctor (T := Z)) = Some end_ /\
    eval (deref end_) (ctor (T := Z)) = None /\
    (forall fuel, operator_eq fuel s ctor = None) /\
    (forall fuel, operator_ne fuel s ctor = None) /\
    (forall fuel, operator_eq fuel ctor s = Some true).
Proof.
  eexists. split; [vm_compute; reflexivity|].
  do 6 (split; [reflexivity|]).
  split; [intros [|fuel]; reflexivity|].
  split; [intros [|fuel]; reflexivity|].
  intros [|fuel]; reflexivity.
Qed.

(** C7. The calls of [main] on an [unrolled_list<int>]: after
    [push_back(1), push_back(2), push_back(3), push_front(0)] the traversal
    yields [0 1 2 3]; after inserting 10 at offset 1, [0 10 1 2 3]; after
    erasing at offset 2, [0 10 2 3]; and [size()] is then 4. *)
Theorem demo_scenario :
  exists s1 s2 s3 it2 it3,
    demo_pushes ctor = Some (tt, s1) /\
    eval (to_list 10) s1 = Some [0; 1; 2; 3] /\
    demo_insert s1 = Some (it2, s2) /\
    eval (to_list 10) s2 = Some [0; 10; 1; 2; 3] /\
    demo_erase s2 = Some (it3, s3) /\
    eval (to_list 10) s3 = Some [0; 10; 2; 3] /\
    eval size s3 = Some 4.
Proof.
  eexists _, _, _, _, _.
  do 6 (split; [vm_compute; reflexivity|]).
  vm_compute; reflexivity.
Qed.

(** C1. After [push_back(1); pop_back(); push_back(2); push_back(3);]
    [size()] is 2, but the traversal from [begin()] to [end()] visits one
    position, the destroyed slot of the drained first node, which it cannot
    read; the node that holds 2 and 3 is not reachable from [begin()]. *)
Theorem size_disagrees_with_traversal :
  exists s,
    refill_after_pop_back ctor = Some (tt, s) /\
    eval size s = Some 2 /\
    (forall fuel, eval (let* b := begin in distance (S (S fuel)) b end_) s = Some 1%nat) /\
    (forall fuel, to_list fuel s = None) /\
    head s = Some 0%nat /\ tail s = Some 1%nat /\
    (Node.next <$> cell (heap s) 0) = Some None /\
    (Node.elements <$> cell (heap s) 1) = Some (Some [2; 3]).
Proof.
  eexists. split; [vm_compute; reflexivity|].
  split; [reflexivity|].
  split; [intros fuel; reflexivity|].
  split; [intros [|fuel]; reflexivity|].
  repeat split.
Qed.

(** C2. After [push_back(1); pop_back();] the container holds no element,
    yet [head] and [tail] still point to a node; and on an
    [unrolled_list<int, 2>] holding 1 2 3, erasing at [begin()] twice leaves
    a first node without elements before the node that holds 3, in a
    container of size 1. *)
Theorem emptiness_invariant_broken :
  (exists s nd,
     drain_by_pop_back ctor = Some (tt, s) /\
     eval empty s = Some true /\
     head s = Some 0%nat /\ tail s = Some 0%nat /\
     cell (heap s) 0 = Some nd /\ Node.size nd = 0) /\
  (exists it s nd,
     drain_head_by_erase ctor = Some (it, s) /\
     eval size s = Some 1 /\
     head s = Some 0%nat /\ tail s = Some 1%nat /\
     cell (heap s) 0 = Some nd /\ Node.size nd = 0 /\
     Node.next nd = Some 1%nat).
Proof.
  split.
  - eexists _, _. split; [vm_compute; reflexivity|]. repeat split.
  - eexists _, _, _. split; [vm_compute; reflexivity|]. repeat split.
Qed.

(** C4. In the list 1 2 3, erasing the last element returns a cursor that
    is not [end()] and addresses 1, the first element; and erasing the range
    from the second element to [end()] has no defined result: its third
    call of [erase] removes 1, which is outside the range, and its fourth
    erases in the drained node. *)
Theorem erase_returns_wrong_cursor :
  (exists it s,
     (let* b := begin in let* p := std_next 2 b in erase p) three = Some (it, s) /\
     iterator_eqb it end_ = false /\
     eval (deref it) s = Some 1 /\
     eval (to_list 3) s = Some [1; 2]) /\
  (exists first,
     eval (let* b := begin in std_next 1 b) three = Some first /\
     eval (deref first) three = Some 2 /\
     (exists s3, exec (erase_range 3 first end_) three = None /\
                 exec (let* it1 := erase first in
                       let* it2 := erase it1 in
                       erase it2) three = Some s3 /\
                 eval size s3 = Some 0) /\
     forall fuel, erase_range fuel first end_ three = None).
Proof.
  split.
  - eexists _, _. split; [vm_compute; reflexivity|]. repeat split.
  - eexists. split; [vm_compute; reflexivity|].
    split; [reflexivity|].
    split; [eexists; split; [reflexivity|split; vm_compute; reflexivity]|].
    intros [|[|[|[|fuel]]]]; [vm_compute; reflexivity..|].
    cbn [erase_range iterator_eqb current_node current_pos end_ ptr_eqb andb negb].
    erewrite bind_Some by (vm_compute; reflexivity).
    cbn [erase_range iterator_eqb current_node current_pos end_ ptr_eqb andb negb].
    erewrite bind_Some by (vm_compute; reflexivity).
    cbn [erase_range iterator_eqb current_node current_pos end_ ptr_eqb andb negb].
    erewrite bind_Some by (vm_compute; reflexivity).
    cbn [erase_range iterator_eqb current_node current_pos end_ ptr_eqb andb negb].
    unfold bind.
    erewrite erase_in_drained_node; [reflexivity|reflexivity|reflexivity|reflexivity].
Qed.

(** C5. The container built from 1 2 3 yields 1 2 3 front to back, but its
    reverse traversal has no defined result: dereferencing [rbegin()]
    decrements [end()], whose node pointer is null. *)
Theorem reverse_traversal_undefined :
  ctor_range 10 [1; 2; 3] = Some three /\
  eval (to_list 3) three = Some [1; 2; 3] /\
  forall fuel, to_list_reverse fuel three = None.
Proof.
  split; [reflexivity|]. split; [reflexivity|].
  intros fuel. now apply to_list_reverse_undefined.
Qed.

(** C3, as the specification words it, fails on a full node of capacity 5
    at offset 0: the two nodes then hold 3 and 3 elements, not 2 and 4. *)
Lemma split_as_specified_counterexample :
  ~ split_as_specified 5 full5 0%nat [1; 2; 3; 4; 5] 0 0.
Proof.
  intros (it & s1 & lo & b & hi & ls & hs & He & Hlo & Hnx & Hhi & Hls & Hhs & _ & Hsz).
  vm_compute in He. injection He as <- <-.
  vm_compute in Hlo. injection Hlo as <-.
  vm_compute in Hnx. injection Hnx as <-.
  vm_compute in Hhi. injection Hhi as <-.
  vm_compute in Hls. injection Hls as <-.
  vm_compute in Hhs. injection Hhs as <-.
  vm_compute in Hsz. destruct Hsz as [[H _]|[H _]]; discriminate.
Qed.

(** The split of the full node 1 2 3 4 by the insertion of 9 at offset 1. *)
Lemma emplace_full_node_splits_witness :
  exists s1 lo hi,
    emplace 4 (mk_iterator (Some 0%nat) 1) 9 full4 =
      Some (mk_iterator (Some 0%nat) 1, s1) /\
    cell (heap s1) 0 = Some lo /\
    cell (heap s1) 1 = Some hi /\
    Node.elements lo = Some [1; 9; 2] /\
    Node.elements hi = Some [3; 4].
Proof.
  destruct (emplace_full_node_splits 4 full4 0%nat
              (Node.mk 4 None None [obj 1; obj 2; obj 3; obj 4]) [1; 2; 3; 4] 1 9)
    as (s1 & it & lo & hi & ls & hs & He & _ & Hlo & Hhi & _ & _ & _ & Hls & Hhs & _ & _
        & Hcat & Hlow & _).
  - split; [lia | reflexivity].
  - reflexivity.
  - reflexivity.
  - reflexivity.
  - reflexivity.
  - lia.
  - intros q Hq. discriminate Hq.
  - destruct (Hlow ltac:(reflexivity)) as (_ & _ & Ehs & Eit).
    cbn in Ehs. subst hs it.
    change (ls ++ [3; 4] = [1; 9; 2] ++ [3; 4]) in Hcat.
    apply app_inv_tail in Hcat. subst ls.
    exists s1, lo, hi. repeat split; assumption.
Defined.

(** Erasing 3 in the nodes [1 2] [3], and erasing 1 in the single node [1]. *)
Lemma erase_sole_element_witness :
  (exists s1,
     erase (mk_iterator (Some 1%nat) 0) two_nodes = Some (end_, s1) /\
     cell (heap s1) 1 = None /\
     tail s1 = Some 0%nat /\
     (Node.next <$> cell (heap s1) 0) = Some None) /\
  (exists s1,
     erase (mk_iterator (Some 0%nat) 0) single = Some (mk_iterator (Some 0%nat) 0, s1) /\
     eval size s1 = Some 0 /\
     is_Some (cell (heap s1) 0)).
Proof.
  split.
  - destruct (erase_sole_element two_nodes 1%nat
                (Node.mk 1 None (Some 0%nat) [obj 3; raw]) 3 [raw])
      as (it & s1 & He & _ & Hnon & _).
    + reflexivity.
    + reflexivity.
    + reflexivity.
    + intros p [= <-]. split; [lia | eexists; reflexivity].
    + intros q [=].
    + intros p _. discriminate.
    + destruct (Hnon ltac:(discriminate)) as (-> & Hgone & Hprev & _ & _ & Htl).
      exists s1. split; [exact He|]. split; [exact Hgone|]. split; [exact Htl|].
      rewrite (Hprev 0%nat (Node.mk 2 (Some 1%nat) None [obj 1; obj 2]) eq_refl eq_refl).
      reflexivity.
  - destruct (erase_sole_element single 0%nat
                (Node.mk 1 None None (obj 1 :: replicate 9 raw)) 1 (replicate 9 raw))
      as (it & s1 & He & _ & _ & Hhead).
    + reflexivity.
    + reflexivity.
    + reflexivity.
    + intros p [=].
    + intros q [=].
    + intros p [=].
    + destruct (Hhead eq_refl eq_refl eq_refl) as (-> & Hc & _ & _ & Hsz & _).
      exists s1. split; [exact He|]. split; [unfold eval, size, get_size; cbn; now rewrite Hsz|].
      rewrite Hc. eexists; reflexivity.
Defined.

(** The nodes [1 2] [3] and the nodes [1] [2 3] are equal containers. *)
Lemma operator_eq_spec_witness :
  operator_eq 3 two_nodes two_nodes_front = Some true /\
  operator_ne 3 two_nodes two_nodes_front = Some false.
Proof.
  destruct (operator_eq_spec 2 two_nodes two_nodes_front [[1; 2]; [3]] [[1]; [2; 3]] 3)
    as (r & _ & _ & Heq & Hiff & Hne).
  - exists [0; 1]%nat.
    split; [now apply (bool_decide_unpack (NoDup _))|].
    repeat split; try reflexivity; try discriminate.
  - exists [1; 0]%nat.
    split; [now apply (bool_decide_unpack (NoDup _))|].
    repeat split; try reflexivity; try discriminate.
  - cbn. lia.
  - cbn. lia.
  - assert (r = true) as -> by (apply Hiff; split; reflexivity).
    split; assumption.
Defined.


(** Popping from the container just constructed. *)
Lemma pop_on_empty_is_noop_witness :
  pop_back (ctor (T := Z)) = Some (tt, ctor) /\ pop_front (ctor (T := Z)) = Some (tt, ctor).
Proof. apply (pop_on_empty_is_noop ctor). reflexivity. Defined.

(** * Further properties

    The other members, and the members above at every position: each
    property is about containers that satisfy the representation invariant,
    unless it says otherwise. *)

(** ** Appending, construction from a sequence or a count *)

Section Appending.
Context {T : Type}.
Variable NodeMaxSize : size_t.
Implicit Types (h : list (option (Node.t T))) (nd : Node.t T) (a b : ptr)
         (s : unrolled_list T) (ps qs : list ptr) (xss yss : list (list T)).

Lemma wf_size s xss :
  wf NodeMaxSize s xss ->
  size_ s = Z.of_nat (length (concat xss)) /\ size_ s < 2 ^ SIZE_WIDTH.
Proof. intros (_ & _ & _ & _ & _ & H1 & H2). now split. Qed.

(** The last node of a well-formed chain that is not empty. *)
Lemma wf_last_node s xss (x : T) (xs : list T) :
  wf NodeMaxSize s xss ->
  concat xss = xs ++ [x] ->
  exists a nd ys,
    tail s = Some a /\ cell (heap s) a = Some nd /\ Node.next nd = None /\
    node_holds NodeMaxSize nd (ys ++ [x]) /\
    Z.of_nat (length ys) + 1 < 2 ^ SIZE_WIDTH.
Proof.
  intros (ps & _ & Hc & _ & Htl & Hsz & Hb) Hcat.
  pose proof (chain_length _ _ _ _ _ _ Hc) as Hl.
  destruct xss as [|zs xss0 _] using rev_ind.
  { cbn in Hcat. destruct xs; discriminate. }
  destruct ps as [|a ps0 _] using rev_ind;
    [rewrite length_app in Hl; cbn in Hl; lia|].
  rewrite !length_app in Hl. cbn in Hl.
  apply (chain_app NodeMaxSize _ ps0 None [a] None xss0 [zs] ltac:(lia)) in Hc as [_ Hc].
  apply chain_single_inv in Hc as (nd & Ha & _ & Hnx & Hh & Hne).
  rewrite concat_app in Hcat. cbn in Hcat. rewrite app_nil_r in Hcat.
  destruct zs as [|z zs0 _] using rev_ind; [congruence|].
  rewrite app_assoc in Hcat. apply app_inj_tail in Hcat as [_ ->].
  exists a, nd, zs0. rewrite last_snoc in Htl.
  repeat (split; [assumption|]).
  rewrite Hsz in Hb. rewrite concat_app in Hb. cbn [concat] in Hb.
  rewrite app_nil_r, !length_app in Hb. cbn [length] in Hb. lia.
Qed.

(** The first node of a well-formed chain that is not empty. *)
Lemma wf_first_node s xss (x : T) (xs : list T) :
  wf NodeMaxSize s xss ->
  concat xss = x :: xs ->
  exists a nd ys,
    head s = Some a /\ cell (heap s) a = Some nd /\ Node.prev nd = None /\
    node_holds NodeMaxSize nd (x :: ys).
Proof.
  intros (ps & _ & Hc & Hhd & _) Hcat.
  destruct ps as [|a ps], xss as [|zs xss]; cbn in Hc; try contradiction;
    [discriminate|].
  destruct (cell (heap s) a) as [nd|] eqn:Ha; [|contradiction].
  destruct Hc as (Hpv & _ & Hh & Hne & _).
  destruct zs as [|z zs]; [congruence|]. cbn in Hcat. injection Hcat as -> _.
  cbn in Hhd. exists a, nd, zs.
  split; [exact Hhd|]. split; [exact Ha|]. split; [exact Hpv | exact Hh].
Qed.

Lemma back_wf s xss (x : T) (xs : list T) :
  wf NodeMaxSize s xss -> concat xss = xs ++ [x] -> back s = Some (x, s).
Proof.
  intros Hwf Hcat.
  destruct (wf_last_node s xss x xs Hwf Hcat) as (a & nd & ys & Htl & Ha & _ & Hh & Hb).
  pose proof Hh as (Hsz & _ & _). rewrite length_app in Hsz. cbn in Hsz.
  destruct s as [hd tl n h]. cbn [tail heap] in *. subst tl.
  unfold back. msimpl.
  erewrite bind_Some by (eapply load_Some; exact Ha).
  rewrite Hsz, wrap_small by lia.
  replace (Z.of_nat (length ys + 1) - 1) with (Z.of_nat (length ys)) by lia.
  unfold bind at 1, lift at 1.
  rewrite (node_holds_lookup NodeMaxSize nd (ys ++ [x]) (length ys) x Hh)
    by now rewrite list_lookup_middle.
  reflexivity.
Qed.

Lemma front_wf s xss (x : T) (xs : list T) :
  wf NodeMaxSize s xss -> concat xss = x :: xs -> front s = Some (x, s).
Proof.
  intros Hwf Hcat.
  destruct (wf_first_node s xss x xs Hwf Hcat) as (a & nd & ys & Hhd & Ha & _ & Hh).
  destruct s as [hd tl n h]. cbn [head heap] in *. subst hd.
  unfold front. msimpl.
  erewrite bind_Some by (eapply load_Some; exact Ha).
  unfold bind at 1, lift at 1.
  pose proof (node_holds_lookup NodeMaxSize nd (x :: ys) 0 x Hh eq_refl) as Hr.
  change (Z.of_nat 0) with 0 in Hr. rewrite Hr. reflexivity.
Qed.

(** X1. [push_back] on a container that satisfies the invariant appends
    the value: the invariant holds again, the traversal yields the former
    elements followed by the value, [size()] has grown by one and [back()]
    is the value. *)
Theorem push_back_appends s xss (v : T) (fuel : nat) :
  0 < NodeMaxSize ->
  wf NodeMaxSize s xss ->
  size_ s + 1 < 2 ^ SIZE_WIDTH ->
  (length (concat xss) < fuel)%nat ->
  exists s1 xss1,
    push_back NodeMaxSize v s = Some (tt, s1) /\
    wf NodeMaxSize s1 xss1 /\
    eval (to_list fuel) s1 = Some (concat xss ++ [v]) /\
    eval size s1 = Some (size_ s + 1) /\
    eval back s1 = Some v.
Proof.
  intros HC Hwf Hb Hf.
  destruct (push_back_wf NodeMaxSize s xss v HC Hwf Hb)
    as (s1 & xss1 & _ & _ & _ & Hpb & Hwf1 & Hcat & _).
  exists s1, xss1. split; [exact Hpb|]. split; [exact Hwf1|].
  split.
  { unfold eval. rewrite (to_list_wf NodeMaxSize s1 xss1 fuel Hwf1).
    - cbn. now rewrite Hcat.
    - rewrite Hcat, length_app. cbn. lia. }
  split.
  { destruct (wf_size _ _ Hwf) as [E _], (wf_size _ _ Hwf1) as [E1 _].
    unfold eval, size, get_size. cbn. rewrite E1, E, Hcat, length_app. cbn.
    f_equal. lia. }
  unfold eval. now rewrite (back_wf s1 xss1 v (concat xss) Hwf1 Hcat).
Qed.

(** X2. The range constructor (and the initializer-list constructor, which
    has the same loop) builds a container that satisfies the invariant,
    whose traversal yields the input sequence and whose [size()] is its
    length. *)
Theorem ctor_range_round_trip (xs : list T) (fuel : nat) :
  0 < NodeMaxSize ->
  Z.of_nat (length xs) < 2 ^ SIZE_WIDTH ->
  (length xs <= fuel)%nat ->
  exists s xss,
    ctor_range NodeMaxSize xs = Some s /\
    wf NodeMaxSize s xss /\
    eval (to_list fuel) s = Some xs /\
    eval size s = Some (Z.of_nat (length xs)) /\
    eval empty s = Some (bool_decide (length xs = 0%nat)).
Proof.
  intros HC Hb Hf.
  destruct (ctor_range_to_list NodeMaxSize xs fuel HC Hb Hf)
    as (s & xss & Hc & Hwf & Hcat & Hl).
  exists s, xss. split; [exact Hc|]. split; [exact Hwf|].
  split; [unfold eval; now rewrite Hl|].
  destruct (wf_size _ _ Hwf) as [E _]. rewrite Hcat in E.
  unfold eval, empty, size, get_size. cbn. rewrite E.
  split; [reflexivity|]. f_equal.
  destruct xs; [reflexivity|]. cbn [length].
  rewrite bool_decide_eq_false_2 by discriminate.
  apply Z.eqb_neq. lia.
Qed.

Lemma push_back_n_wf (n : nat) (v : T) : forall s xss,
  0 < NodeMaxSize ->
  wf NodeMaxSize s xss ->
  size_ s + Z.of_nat n < 2 ^ SIZE_WIDTH ->
  exists s1 xss1,
    push_back_n NodeMaxSize n v s = Some (tt, s1) /\
    wf NodeMaxSize s1 xss1 /\
    concat xss1 = concat xss ++ replicate n v.
Proof.
  induction n as [|n IH]; intros s xss HC Hwf Hb.
  - exists s, xss. cbn. rewrite app_nil_r. now repeat split.
  - destruct (push_back_wf NodeMaxSize s xss v HC Hwf ltac:(lia))
      as (s1 & xss1 & _ & _ & _ & Hpb & Hwf1 & Hcat1 & _).
    assert (size_ s1 = size_ s + 1) as Hs1.
    { destruct (wf_size _ _ Hwf) as [E _], (wf_size _ _ Hwf1) as [E1 _].
      rewrite E, E1, Hcat1, length_app. cbn. lia. }
    destruct (IH s1 xss1 HC Hwf1 ltac:(lia)) as (s2 & xss2 & Hall & Hwf2 & Hcat2).
    exists s2, xss2. cbn [push_back_n].
    erewrite bind_Some by exact Hpb.
    split; [exact Hall|]. split; [exact Hwf2|].
    rewrite Hcat2, Hcat1, <- app_assoc. reflexivity.
Qed.

(** X3. The constructor from a count and a value builds a container that
    satisfies the invariant and holds [count] copies of the value. *)
Theorem ctor_fill_replicates (count : size_t) (v : T) (fuel : nat) :
  0 < NodeMaxSize ->
  0 <= count < 2 ^ SIZE_WIDTH ->
  (Z.to_nat count <= fuel)%nat ->
  exists s xss,
    ctor_fill NodeMaxSize count v = Some s /\
    wf NodeMaxSize s xss /\
    eval (to_list fuel) s = Some (replicate (Z.to_nat count) v) /\
    eval size s = Some count.
Proof.
  intros HC Hb Hf.
  destruct (push_back_n_wf (Z.to_nat count) v ctor [] HC (wf_ctor NodeMaxSize)
              ltac:(cbn; lia)) as (s & xss & Hall & Hwf & Hcat).
  cbn in Hcat. exists s, xss. unfold ctor_fill, exec. rewrite Hall.
  split; [reflexivity|]. split; [exact Hwf|].
  split.
  { unfold eval. rewrite (to_list_wf NodeMaxSize s xss fuel Hwf).
    - cbn. now rewrite Hcat.
    - now rewrite Hcat, length_replicate. }
  destruct (wf_size _ _ Hwf) as [E _]. rewrite Hcat, length_replicate in E.
  unfold eval, size, get_size. cbn. rewrite E. f_equal. lia.
Qed.
End Appending.

(** ** Element access, insertion at the end cursor *)

Section Access.
Context {T : Type}.
Variable NodeMaxSize : size_t.
Implicit Types (h : list (option (Node.t T))) (nd : Node.t T) (a b : ptr)
         (s : unrolled_list T) (ps qs : list ptr) (xss yss : list (list T)).

Lemma walks_nth s it (xs : list T) :
  walks s it xs ->
  forall i x, xs !! i = Some x ->
    exists it1, std_next i it s = Some (it1, s) /\ deref it1 s = Some (x, s).
Proof.
  induction 1 as [|it y it1 xs Hne Hd Hi Hw IH]; intros i x Hx; [discriminate|].
  destruct i as [|i].
  - injection Hx as <-. exists it. now split.
  - destruct (IH i x Hx) as (it2 & Hn & Hd2). exists it2.
    cbn [std_next]. erewrite bind_Some by exact Hi. now split.
Qed.

Lemma walks_reach_end s it (xs : list T) :
  walks s it xs -> std_next (length xs) it s = Some (end_, s).
Proof.
  induction 1 as [|it y it1 xs Hne Hd Hi Hw IH]; [reflexivity|].
  cbn [length std_next]. erewrite bind_Some by exact Hi. exact IH.
Qed.

(** X4. On a container that satisfies the invariant, [operator[]] at an
    index below [size()] returns the element that the traversal meets at
    this index; at the index [size()] it dereferences the end cursor, which
    is undefined: there is no bounds check. *)
Theorem operator_index_nth s xss (i : size_t) :
  wf NodeMaxSize s xss ->
  0 <= i < 2 ^ (SIZE_WIDTH - 1) ->
  (forall x, concat xss !! Z.to_nat i = Some x -> operator_index i s = Some (x, s)) /\
  (i = size_ s -> operator_index i s = None).
Proof.
  intros Hwf Hi. pose proof (wf_walks _ _ _ Hwf) as Hw.
  destruct (wf_size _ _ _ Hwf) as [Hsz _].
  assert (to_difference i = i) as Hd.
  { unfold to_difference. destruct (Z.ltb_spec i (2 ^ (SIZE_WIDTH - 1))); [reflexivity|lia]. }
  assert (forall it, @std_advance T (to_difference i) it = std_next (Z.to_nat i) it) as Ha.
  { intros it. unfold std_advance. rewrite Hd.
    destruct (Z.leb_spec 0 i); [reflexivity|lia]. }
  split.
  - intros x Hx. destruct (walks_nth _ _ _ Hw _ _ Hx) as (it1 & Hn & Hdr).
    unfold operator_index, begin. msimpl. rewrite Ha.
    erewrite bind_Some by exact Hn. exact Hdr.
  - intros ->. unfold operator_index, begin. msimpl. rewrite Ha, Hsz, Nat2Z.id.
    erewrite bind_Some by (apply walks_reach_end; exact Hw).
    reflexivity.
Qed.

(** X5. On a container that satisfies the invariant, [front()] is the
    first and [back()] the last element of the traversal; on the empty
    container both dereference a null pointer. *)
Theorem front_back_wf s xss :
  wf NodeMaxSize s xss ->
  eval front s = concat xss !! 0%nat /\ eval back s = last (concat xss).
Proof.
  intros Hwf. split.
  - destruct (concat xss) as [|x xs] eqn:Hcat.
    + destruct Hwf as (ps & _ & Hc & Hhd & _).
      assert (xss = []) as ->.
      { destruct xss as [|zs xss]; [reflexivity|].
        destruct ps as [|a ps]; cbn in Hc; [contradiction|].
        destruct (cell (heap s) a); [|contradiction].
        destruct Hc as (_ & _ & _ & Hne & _). destruct zs; [congruence|discriminate]. }
      apply chain_length in Hc. destruct ps; [|discriminate].
      unfold eval, front. rewrite bind_get_head, Hhd. reflexivity.
    + unfold eval. now rewrite (front_wf NodeMaxSize s xss x xs Hwf Hcat).
  - destruct (concat xss) as [|x xs _] eqn:Hcat using rev_ind.
    + destruct Hwf as (ps & _ & Hc & _ & Htl & _).
      assert (xss = []) as ->.
      { destruct xss as [|zs xss]; [reflexivity|].
        destruct ps as [|a ps]; cbn in Hc; [contradiction|].
        destruct (cell (heap s) a); [|contradiction].
        destruct Hc as (_ & _ & _ & Hne & _). destruct zs; [congruence|discriminate]. }
      apply chain_length in Hc. destruct ps; [|discriminate].
      unfold eval, back. rewrite bind_get_tail, Htl. reflexivity.
    + unfold eval. rewrite (back_wf NodeMaxSize s xss x xs Hwf Hcat).
      now rewrite last_snoc.
Qed.

(** Insertion at the end cursor, with the cursor it returns. *)
Lemma emplace_end_wf s xss (v : T) :
  0 < NodeMaxSize ->
  wf NodeMaxSize s xss ->
  size_ s + 1 < 2 ^ SIZE_WIDTH ->
  exists s1 it xss1,
    emplace NodeMaxSize end_ v s = Some (it, s1) /\
    wf NodeMaxSize s1 xss1 /\
    concat xss1 = concat xss ++ [v] /\
    size_ s1 = size_ s + 1 /\
    deref it s1 = Some (v, s1) /\
    incr it s1 = Some (end_, s1).
Proof.
  intros HC Hwf Hb.
  destruct (push_back_wf NodeMaxSize s xss v HC Hwf Hb)
    as (s1 & xss1 & a & nd & ys & Hpb & Hwf1 & Hcat & Htl & Ha & Hnx & Hh & Hlen).
  pose proof Hh as (Hsz & _ & _).
  rewrite length_app in Hsz. cbn [length] in Hsz.
  exists s1, (mk_iterator (Some a) (Z.of_nat (length ys))), xss1.
  split.
  { unfold emplace. cbn [iterator_eqb end_ current_node current_pos ptr_eqb andb Z.eqb].
    unfold push_back in Hpb.
    erewrite bind_Some by exact Hpb.
    destruct s1 as [hd1 tl1 n1 h1]. cbn [tail heap] in *.
    msimpl. subst tl1.
    erewrite bind_Some by (eapply load_Some; exact Ha).
    unfold ret. rewrite Hsz, wrap_small by lia.
    do 3 f_equal. lia. }
  split; [exact Hwf1|]. split; [exact Hcat|].
  split.
  { destruct (wf_size _ _ _ Hwf) as [E _], (wf_size _ _ _ Hwf1) as [E1 _].
    rewrite E, E1, Hcat, length_app. cbn. lia. }
  split.
  - eapply deref_Some; [exact Ha|].
    eapply (node_holds_lookup NodeMaxSize); [exact Hh|].
    now rewrite list_lookup_middle.
  - rewrite (incr_Some s1 a nd _ Ha), wrap_small by lia.
    destruct (Z.ltb_spec (Z.of_nat (length ys) + 1) (Node.size nd)); [lia|].
    now rewrite Hnx.
Qed.

Lemma insert_range_end_wf (xs : list T) : forall s xss,
  0 < NodeMaxSize ->
  wf NodeMaxSize s xss ->
  size_ s + Z.of_nat (length xs) < 2 ^ SIZE_WIDTH ->
  exists s1 xss1,
    insert_range NodeMaxSize end_ xs s = Some (tt, s1) /\
    wf NodeMaxSize s1 xss1 /\
    concat xss1 = concat xss ++ xs.
Proof.
  induction xs as [|x xs IH]; intros s xss HC Hwf Hb.
  - exists s, xss. rewrite app_nil_r. now repeat split.
  - cbn [length] in Hb.
    destruct (emplace_end_wf s xss x HC Hwf ltac:(lia))
      as (s1 & it & xss1 & He & Hwf1 & Hcat1 & Hs1 & _ & Hi).
    destruct (IH s1 xss1 HC Hwf1 ltac:(lia)) as (s2 & xss2 & Hr & Hwf2 & Hcat2).
    exists s2, xss2. cbn [insert_range]. unfold insert.
    erewrite bind_Some by exact He.
    erewrite bind_Some by exact Hi.
    split; [exact Hr|]. split; [exact Hwf2|].
    rewrite Hcat2, Hcat1, <- app_assoc. reflexivity.
Qed.

(** X6. [append_range] on a container that satisfies the invariant appends
    the elements of the range in order: each is inserted at the end cursor,
    and advancing the cursor returned gives the end cursor again. *)
Theorem append_range_appends s xss (xs : list T) (fuel : nat) :
  0 < NodeMaxSize ->
  wf NodeMaxSize s xss ->
  size_ s + Z.of_nat (length xs) < 2 ^ SIZE_WIDTH ->
  (length (concat xss) + length xs <= fuel)%nat ->
  exists s1 xss1,
    append_range NodeMaxSize xs s = Some (tt, s1) /\
    wf NodeMaxSize s1 xss1 /\
    eval (to_list fuel) s1 = Some (concat xss ++ xs) /\
    eval size s1 = Some (size_ s + Z.of_nat (length xs)).
Proof.
  intros HC Hwf Hb Hf.
  destruct (insert_range_end_wf xs s xss HC Hwf Hb) as (s1 & xss1 & Hr & Hwf1 & Hcat).
  exists s1, xss1. split; [exact Hr|]. split; [exact Hwf1|].
  split.
  { unfold eval. rewrite (to_list_wf NodeMaxSize s1 xss1 fuel Hwf1).
    - cbn. now rewrite Hcat.
    - rewrite Hcat, length_app. lia. }
  destruct (wf_size _ _ _ Hwf) as [E _], (wf_size _ _ _ Hwf1) as [E1 _].
  unfold eval, size, get_size. cbn. rewrite E1, E, Hcat, length_app.
  f_equal. lia.
Qed.

Lemma insert_loop_end_wf (n : nat) (v : T) : forall s xss r,
  0 < NodeMaxSize ->
  wf NodeMaxSize s xss ->
  size_ s + Z.of_nat n < 2 ^ SIZE_WIDTH ->
  exists s1 xss1 it,
    insert_loop NodeMaxSize n end_ v r s = Some (it, s1) /\
    wf NodeMaxSize s1 xss1 /\
    concat xss1 = concat xss ++ replicate n v /\
    (n = 0%nat /\ it = r /\ s1 = s \/
     deref it s1 = Some (v, s1) /\ incr it s1 = Some (end_, s1)).
Proof.
  induction n as [|n IH]; intros s xss r HC Hwf Hb.
  - exists s, xss, r. cbn. rewrite app_nil_r. repeat split; auto.
  - destruct (emplace_end_wf s xss v HC Hwf ltac:(lia))
      as (s1 & it & xss1 & He & Hwf1 & Hcat1 & Hs1 & Hd & Hi).
    destruct (IH s1 xss1 it HC Hwf1 ltac:(lia))
      as (s2 & xss2 & it2 & Hl & Hwf2 & Hcat2 & Hit).
    exists s2, xss2, it2. cbn [insert_loop]. unfold insert.
    erewrite bind_Some by exact He.
    split; [exact Hl|]. split; [exact Hwf2|].
    split; [rewrite Hcat2, Hcat1, <- app_assoc; reflexivity|].
    right. destruct Hit as [(_ & -> & ->)|Hit]; [now split | exact Hit].
Qed.

(** X7. The counted [insert] at the end cursor of a container that
    satisfies the invariant appends [count] copies of the value; for a
    positive count the cursor returned addresses the last copy, and for the
    count 0 the container is unchanged and the cursor returned is the
    position given. *)
Theorem insert_n_at_end s xss (count : size_t) (v : T) (fuel : nat) :
  0 < NodeMaxSize ->
  wf NodeMaxSize s xss ->
  0 <= count ->
  size_ s + count < 2 ^ SIZE_WIDTH ->
  (length (concat xss) + Z.to_nat count <= fuel)%nat ->
  exists s1 it,
    insert_n NodeMaxSize end_ count v s = Some (it, s1) /\
    eval (to_list fuel) s1 = Some (concat xss ++ replicate (Z.to_nat count) v) /\
    (count = 0 -> s1 = s /\ it = end_) /\
    (0 < count -> deref it s1 = Some (v, s1) /\ incr it s1 = Some (end_, s1)).
Proof.
  intros HC Hwf Hc Hb Hf. unfold insert_n.
  destruct (Z.eqb_spec count 0) as [->|Hne].
  - exists s, end_. split; [reflexivity|].
    split.
    { unfold eval. rewrite (to_list_wf NodeMaxSize s xss fuel Hwf) by (cbn in Hf; lia).
      cbn. now rewrite app_nil_r. }
    split; [now split | lia].
  - destruct (insert_loop_end_wf (Z.to_nat count) v s xss (mk_iterator None 0) HC Hwf
                ltac:(lia)) as (s1 & xss1 & it & Hl & Hwf1 & Hcat & Hit).
    exists s1, it. split; [exact Hl|].
    split.
    { unfold eval. rewrite (to_list_wf NodeMaxSize s1 xss1 fuel Hwf1).
      - cbn. now rewrite Hcat.
      - rewrite Hcat, length_app, length_replicate. lia. }
    split; [lia|]. intros _. destruct Hit as [(E & _)|Hit]; [lia | exact Hit].
Qed.
End Access.

(** ** Growing, copying *)

Section Growing.
Context {T : Type}.
Variable NodeMaxSize : size_t.
Implicit Types (h : list (option (Node.t T))) (nd : Node.t T) (a b : ptr)
         (s : unrolled_list T) (ps qs : list ptr) (xss yss : list (list T)).

Lemma resize_grow_wf (v : T) (count : size_t) (k : nat) : forall s xss fuel,
  0 < NodeMaxSize ->
  wf NodeMaxSize s xss ->
  count = size_ s + Z.of_nat k ->
  count < 2 ^ SIZE_WIDTH ->
  (k <= fuel)%nat ->
  exists s1 xss1,
    resize_grow NodeMaxSize fuel count v s = Some (tt, s1) /\
    wf NodeMaxSize s1 xss1 /\
    concat xss1 = concat xss ++ replicate k v.
Proof.
  induction k as [|k IH]; intros s xss fuel HC Hwf Hc Hb Hf.
  - exists s, xss. rewrite app_nil_r. split; [|now split].
    destruct fuel; cbn [resize_grow]; rewrite bind_get_size;
      (destruct (Z.ltb_spec (size_ s) count); [lia|reflexivity]).
  - destruct fuel as [|fuel]; [lia|].
    cbn [resize_grow]. rewrite bind_get_size.
    destruct (Z.ltb_spec (size_ s) count); [|lia].
    destruct (push_back_wf NodeMaxSize s xss v HC Hwf ltac:(lia))
      as (s1 & xss1 & _ & _ & _ & Hpb & Hwf1 & Hcat1 & _).
    assert (size_ s1 = size_ s + 1) as Hs1.
    { destruct (wf_size _ _ _ Hwf) as [E _], (wf_size _ _ _ Hwf1) as [E1 _].
      rewrite E, E1, Hcat1, length_app. cbn. lia. }
    destruct (IH s1 xss1 fuel HC Hwf1 ltac:(lia) Hb ltac:(lia))
      as (s2 & xss2 & Hg & Hwf2 & Hcat2).
    exists s2, xss2. erewrite bind_Some by exact Hpb.
    split; [exact Hg|]. split; [exact Hwf2|].
    rewrite Hcat2, Hcat1, <- app_assoc. reflexivity.
Qed.

(** X8. [resize(count, value)] with [count] at least [size()], on a
    container that satisfies the invariant, pops nothing and appends
    [count - size()] copies of the value; [size()] is then [count]. *)
Theorem resize_grows s xss (count : size_t) (v : T) (fuel fuel' : nat) :
  0 < NodeMaxSize ->
  wf NodeMaxSize s xss ->
  size_ s <= count < 2 ^ SIZE_WIDTH ->
  (Z.to_nat (count - size_ s) <= fuel)%nat ->
  (Z.to_nat count <= fuel')%nat ->
  exists s1 xss1,
    resize NodeMaxSize fuel count v s = Some (tt, s1) /\
    wf NodeMaxSize s1 xss1 /\
    eval (to_list fuel') s1 =
      Some (concat xss ++ replicate (Z.to_nat (count - size_ s)) v) /\
    eval size s1 = Some count.
Proof.
  intros HC Hwf Hc Hf Hf'.
  destruct (wf_size _ _ _ Hwf) as [E _].
  destruct (resize_grow_wf v count (Z.to_nat (count - size_ s)) s xss fuel HC Hwf
              ltac:(lia) ltac:(lia) Hf) as (s1 & xss1 & Hg & Hwf1 & Hcat).
  exists s1, xss1.
  split.
  { unfold resize.
    assert (resize_shrink fuel count s = Some (tt, s)) as Hs.
    { destruct fuel; cbn [resize_shrink]; rewrite bind_get_size;
        (destruct (Z.gtb_spec (size_ s) count); [lia|reflexivity]). }
    erewrite bind_Some by exact Hs. exact Hg. }
  split; [exact Hwf1|].
  destruct (wf_size _ _ _ Hwf1) as [E1 _].
  rewrite Hcat, length_app, length_replicate in E1.
  split.
  { unfold eval. rewrite (to_list_wf NodeMaxSize s1 xss1 fuel' Hwf1).
    - cbn. now rewrite Hcat.
    - rewrite Hcat, length_app, length_replicate. lia. }
  unfold eval, size, get_size. cbn. f_equal. lia.
Qed.

Lemma copy_loop_walks (other : unrolled_list T) it (xs : list T) :
  walks other it xs ->
  forall s yss fuel,
    0 < NodeMaxSize ->
    wf NodeMaxSize s yss ->
    size_ s + Z.of_nat (length xs) < 2 ^ SIZE_WIDTH ->
    (length xs <= fuel)%nat ->
    exists s1 yss1,
      copy_loop NodeMaxSize fuel other it s = Some (tt, s1) /\
      wf NodeMaxSize s1 yss1 /\
      concat yss1 = concat yss ++ xs.
Proof.
  induction 1 as [|it x it1 xs Hne Hd Hi Hw IH]; intros s yss fuel HC Hwf Hb Hf.
  - exists s, yss. rewrite app_nil_r. split; [now destruct fuel | now split].
  - cbn [length] in Hb, Hf. destruct fuel as [|fuel]; [lia|].
    cbn [copy_loop]. rewrite Hne.
    unfold eval. rewrite Hd, Hi. cbn [fmap option_fmap option_map fst].
    unfold bind at 1, lift at 1.
    destruct (push_back_wf NodeMaxSize s yss x HC Hwf ltac:(lia))
      as (s1 & yss1 & _ & _ & _ & Hpb & Hwf1 & Hcat1 & _).
    assert (size_ s1 = size_ s + 1) as Hs1.
    { destruct (wf_size _ _ _ Hwf) as [E _], (wf_size _ _ _ Hwf1) as [E1 _].
      rewrite E, E1, Hcat1, length_app. cbn. lia. }
    erewrite bind_Some by exact Hpb.
    unfold bind at 1, lift at 1.
    destruct (IH s1 yss1 fuel HC Hwf1 ltac:(lia) ltac:(lia)) as (s2 & yss2 & Hl & Hwf2 & Hcat2).
    exists s2, yss2. split; [exact Hl|]. split; [exact Hwf2|].
    rewrite Hcat2, Hcat1, <- app_assoc. reflexivity.
Qed.

Context `{EqDecision T}.

(** X9. The copy constructor, applied to a container that satisfies the
    invariant, builds a container that satisfies it, has the same element
    sequence and compares equal to the original with [operator==]. *)
Theorem ctor_copy_equal (other : unrolled_list T) xss (fuel : nat) :
  0 < NodeMaxSize ->
  wf NodeMaxSize other xss ->
  (length (concat xss) <= fuel)%nat ->
  exists s yss,
    ctor_copy NodeMaxSize fuel other = Some s /\
    wf NodeMaxSize s yss /\
    eval (to_list fuel) s = Some (concat xss) /\
    eval (to_list fuel) other = Some (concat xss) /\
    operator_eq fuel s other = Some true.
Proof.
  intros HC Hwf Hf. pose proof (wf_walks _ _ _ Hwf) as Hw.
  destruct (wf_size _ _ _ Hwf) as [E Eb].
  destruct (copy_loop_walks other _ _ Hw ctor [] fuel HC (wf_ctor NodeMaxSize)
              ltac:(cbn; lia) Hf) as (s & yss & Hl & Hwfs & Hcat).
  cbn in Hcat. exists s, yss.
  split.
  { unfold ctor_copy, exec, eval, begin. cbn.
    unfold bind, lift. now rewrite Hl. }
  split; [exact Hwfs|].
  split; [unfold eval; rewrite (to_list_wf NodeMaxSize s yss fuel Hwfs);
          [now rewrite Hcat | now rewrite Hcat]|].
  split; [unfold eval; now rewrite (to_list_wf NodeMaxSize other xss fuel Hwf Hf)|].
  destruct (wf_size _ _ _ Hwfs) as [Es _]. rewrite Hcat in Es.
  pose proof (wf_walks _ _ _ Hwfs) as Hws. rewrite Hcat in Hws.
  unfold operator_eq, eval, size, get_size, begin. cbn.
  rewrite Es, E, Z.eqb_refl. cbn.
  rewrite (std_equal_walks s other _ _ Hws _ _ fuel Hw eq_refl Hf).
  f_equal. now apply bool_decide_eq_true_2.
Qed.
End Growing.

(** ** Unlinking a node *)

Section Unlinking.
Context {T : Type}.
Variable NodeMaxSize : size_t.
Implicit Types (h : list (option (Node.t T))) (nd : Node.t T) (a b : ptr)
         (s : unrolled_list T) (ps qs : list ptr) (xss yss : list (list T)).

(** [destroy_node] changes the node and its two neighbours only. *)
Lemma destroy_node_frame hd tl n h a nd :
  cell h a = Some nd ->
  (forall p, Node.prev nd = Some p -> p <> a /\ is_Some (cell h p)) ->
  (forall q, Node.next nd = Some q -> q <> a /\ is_Some (cell h q)) ->
  (forall p, Node.prev nd = Some p -> Node.next nd <> Some p) ->
  exists h1,
    destroy_node (Some a) (mk_list hd tl n h) =
      Some (tt, mk_list (if ptr_eqb (Some a) hd then Node.next nd else hd)
                  (if ptr_eqb (Some a) tl then Node.prev nd else tl) n h1) /\
    length h1 = length h /\
    cell h1 a = None /\
    (forall p pn, Node.prev nd = Some p -> cell h p = Some pn ->
                  cell h1 p = Some (Node.set_next (Node.next nd) pn)) /\
    (forall q qn, Node.next nd = Some q -> cell h q = Some qn ->
                  cell h1 q = Some (Node.set_prev (Node.prev nd) qn)) /\
    (forall c, c <> a -> Node.prev nd <> Some c -> Node.next nd <> Some c ->
               cell h1 c = cell h c).
Proof.
  intros Ha Hp Hq Hpq. pose proof (cell_lt _ _ _ Ha) as Hlta.
  unfold destroy_node.
  erewrite bind_Some by (eapply load_Some; exact Ha).
  destruct (Node.prev nd) as [p|] eqn:Epv; msimpl.
  - destruct (Hp p eq_refl) as [Hpa [pn Hpn]].
    pose proof (cell_lt _ _ _ Hpn) as Hltp.
    erewrite bind_Some by (eapply assign_Some; exact Hpn).
    assert (cell (<[p := Some (Node.set_next (Node.next nd) pn)]> h) a = Some nd) as Ha1
      by now rewrite cell_insert_ne.
    erewrite bind_Some by (eapply load_Some; exact Ha1).
    destruct (Node.next nd) as [q|] eqn:Enx; msimpl.
    + destruct (Hq q eq_refl) as [Hqa [qn Hqn]].
      pose proof (cell_lt _ _ _ Hqn) as Hltq.
      assert (q <> p) as Hqp by (specialize (Hpq p eq_refl); congruence).
      erewrite bind_Some
        by (eapply assign_Some; rewrite cell_insert_ne by congruence; exact Hqn).
      erewrite bind_Some
        by (eapply load_Some; rewrite !cell_insert_ne by congruence; exact Ha).
      msimpl.
      destruct (ptr_eqb (Some a) hd); msimpl;
        destruct (ptr_eqb (Some a) tl); msimpl; rewrite ?Epv, ?Enx.
      all: erewrite deallocate_Some
          by (rewrite !cell_insert_ne by congruence; exact Ha).
      all: eexists; (split; [reflexivity|]).
      all: split; [now rewrite !length_insert|].
      all: split; [apply cell_insert_eq; rewrite !length_insert; lia|].
      all: split; [intros p' pn' [= <-] Hpn'; rewrite Hpn in Hpn'; injection Hpn' as <-;
                 rewrite !cell_insert_ne by congruence; apply cell_insert_eq; lia|].
      all: split; [intros q' qn' [= <-] Hqn'; rewrite Hqn in Hqn'; injection Hqn' as <-;
        rewrite cell_insert_ne by congruence; apply cell_insert_eq;
        rewrite length_insert; lia|].
      all: intros c Hc1 Hc2 Hc3; now rewrite !cell_insert_ne by congruence.
    + erewrite bind_Some by (eapply load_Some; exact Ha1).
      msimpl.
      destruct (ptr_eqb (Some a) hd); msimpl;
        destruct (ptr_eqb (Some a) tl); msimpl; rewrite ?Epv, ?Enx.
      all: erewrite deallocate_Some by exact Ha1.
      all: eexists; (split; [reflexivity|]).
      all: split; [now rewrite !length_insert|].
      all: split; [apply cell_insert_eq; rewrite !length_insert; lia|].
      all: split; [intros p' pn' [= <-] Hpn'; rewrite Hpn in Hpn'; injection Hpn' as <-;
                 rewrite !cell_insert_ne by congruence; apply cell_insert_eq; lia|].
      all: split; [intros q' qn' [=]|].
      all: intros c Hc1 Hc2 Hc3; now rewrite !cell_insert_ne by congruence.
  - erewrite bind_Some by (eapply load_Some; exact Ha).
    destruct (Node.next nd) as [q|] eqn:Enx; msimpl.
    + destruct (Hq q eq_refl) as [Hqa [qn Hqn]].
      pose proof (cell_lt _ _ _ Hqn) as Hltq.
      erewrite bind_Some by (eapply assign_Some; exact Hqn).
      erewrite bind_Some
        by (eapply load_Some; rewrite !cell_insert_ne by congruence; exact Ha).
      msimpl.
      destruct (ptr_eqb (Some a) hd); msimpl;
        destruct (ptr_eqb (Some a) tl); msimpl; rewrite ?Epv, ?Enx.
      all: erewrite deallocate_Some
          by (rewrite !cell_insert_ne by congruence; exact Ha).
      all: eexists; (split; [reflexivity|]).
      all: split; [now rewrite !length_insert|].
      all: split; [apply cell_insert_eq; rewrite !length_insert; lia|].
      all: split; [intros p' pn' [=]|].
      all: split; [intros q' qn' [= <-] Hqn'; rewrite Hqn in Hqn'; injection Hqn' as <-;
        rewrite cell_insert_ne by congruence; apply cell_insert_eq; lia|].
      all: intros c Hc1 Hc2 Hc3; now rewrite !cell_insert_ne by congruence.
    + erewrite bind_Some by (eapply load_Some; exact Ha).
      msimpl.
      destruct (ptr_eqb (Some a) hd); msimpl;
        destruct (ptr_eqb (Some a) tl); msimpl; rewrite ?Epv, ?Enx.
      all: erewrite deallocate_Some by exact Ha.
      all: eexists; (split; [reflexivity|]).
      all: split; [now rewrite !length_insert|].
      all: split; [apply cell_insert_eq; lia|].
      all: split; [intros p' pn' [=]|].
      all: split; [intros q' qn' [=]|].
      all: intros c Hc1 Hc2 Hc3; now rewrite !cell_insert_ne by congruence.
Qed.

(** The first node of a chain, relinked after another predecessor. *)
Lemma chain_head_prev h h1 b nb ps pv pv1 nx xss :
  chain NodeMaxSize h pv (b :: ps) nx xss ->
  cell h b = Some nb ->
  cell h1 b = Some (Node.set_prev pv1 nb) ->
  (forall c, c ∈ ps -> cell h1 c = cell h c) ->
  chain NodeMaxSize h1 pv1 (b :: ps) nx xss.
Proof.
  intros Hc Hb Hb1 Hag. destruct xss as [|xs xss]; [exact Hc|].
  cbn [chain] in Hc |- *. rewrite Hb in Hc. rewrite Hb1.
  destruct Hc as (_ & Hnx & Hh & Hne & Hc).
  split; [reflexivity|]. split; [exact Hnx|]. split; [exact Hh|]. split; [exact Hne|].
  eapply chain_agree; eassumption.
Qed.

(** The last node of a chain, relinked before another successor. *)
Lemma chain_last_next h h1 p pn ps pv nx nx1 xss :
  chain NodeMaxSize h pv (ps ++ [p]) nx xss ->
  cell h p = Some pn ->
  cell h1 p = Some (Node.set_next nx1 pn) ->
  (forall c, c ∈ ps -> cell h1 c = cell h c) ->
  chain NodeMaxSize h1 pv (ps ++ [p]) nx1 xss.
Proof.
  intros Hc Hp Hp1 Hag.
  pose proof (chain_length _ _ _ _ _ _ Hc) as Hl.
  destruct xss as [|xs xss0 _] using rev_ind;
    [rewrite length_app in Hl; cbn in Hl; lia|].
  rewrite !length_app in Hl. cbn in Hl.
  assert (length ps = length xss0) as Hl0 by lia.
  apply (chain_app NodeMaxSize h ps pv [p] nx xss0 [xs] Hl0) in Hc as [Hc0 Hc1].
  apply (chain_app NodeMaxSize h1 ps pv [p] nx1 xss0 [xs] Hl0). split.
  - eapply chain_agree; eassumption.
  - apply chain_single_inv in Hc1 as (nd & Hnd & Hpv & _ & Hh & Hne).
    rewrite Hp in Hnd. injection Hnd as <-.
    eapply chain_single; [exact Hp1|exact Hpv|reflexivity|exact Hh|exact Hne].
Qed.

Lemma chain_cell h : forall ps pv nx xss c,
  chain NodeMaxSize h pv ps nx xss -> c ∈ ps -> is_Some (cell h c).
Proof.
  induction ps as [|a ps IH]; intros pv nx [|xs xss] c Hc Hin; cbn in Hc;
    try contradiction; [inversion Hin|].
  destruct (cell h a) eqn:Ha; [|contradiction].
  destruct Hc as (_ & _ & _ & _ & Hc).
  apply elem_of_cons in Hin as [->|Hin]; [rewrite Ha; eauto | eauto].
Qed.

Lemma chain_cons h a nd ps pv nx (xs : list T) xss :
  cell h a = Some nd ->
  Node.prev nd = pv ->
  Node.next nd = match ps with [] => nx | b :: _ => Some b end ->
  node_holds NodeMaxSize nd xs ->
  xs <> [] ->
  chain NodeMaxSize h (Some a) ps nx xss ->
  chain NodeMaxSize h pv (a :: ps) nx (xs :: xss).
Proof. intros Ha H1 H2 H3 H4 H5. cbn [chain]. rewrite Ha. tauto. Qed.

Lemma chain_cons_inv h a ps pv nx (xs : list T) xss :
  chain NodeMaxSize h pv (a :: ps) nx (xs :: xss) ->
  exists nd,
    cell h a = Some nd /\
    Node.prev nd = pv /\
    Node.next nd = match ps with [] => nx | b :: _ => Some b end /\
    node_holds NodeMaxSize nd xs /\
    xs <> [] /\
    chain NodeMaxSize h (Some a) ps nx xss.
Proof.
  cbn [chain]. destruct (cell h a) as [nd|]; [|contradiction].
  intros H. now exists nd.
Qed.
End Unlinking.

(** ** [pop_front] *)

Section PopFront.
Context {T : Type}.
Variable NodeMaxSize : size_t.
Implicit Types (h : list (option (Node.t T))) (nd : Node.t T) (a b : ptr)
         (s : unrolled_list T) (ps qs : list ptr) (xss yss : list (list T)).

Lemma pop_front_wf s xss (x : T) (rest : list T) :
  wf NodeMaxSize s xss ->
  concat xss = x :: rest ->
  exists s1 xss1,
    pop_front s = Some (tt, s1) /\
    wf NodeMaxSize s1 xss1 /\
    concat xss1 = rest /\
    (forall a, head s = Some a -> xss !! 0%nat = Some [x] ->
               cell (heap s1) a = None).
Proof.
  intros (ps & Hnd & Hc & Hhd & Htl & Hsz & Hb) Hcat.
  destruct s as [hd tl n h]. cbn [head tail size_ heap] in *.
  destruct xss as [|xs xss]; [discriminate|].
  destruct ps as [|a ps]; [contradiction|].
  pose proof Hc as Hc0.
  cbn [chain] in Hc. destruct (cell h a) as [nd|] eqn:Ha; [|contradiction].
  destruct Hc as (Hpv & Hnx & Hh & Hne & Hc).
  destruct xs as [|x0 xs]; [congruence|]. cbn in Hcat. injection Hcat as -> <-.
  cbn in Hhd. subst hd.
  apply NoDup_cons in Hnd as [Hnotin Hnd].
  pose proof (cell_lt _ _ _ Ha) as Hlta.
  pose proof Hh as (Hs & Hln & _).
  pose proof (node_holds_data NodeMaxSize _ _ Hh) as Hdata.
  set (post := drop (length (x :: xs)) (Node.data nd)) in *.
  assert (Z.of_nat (length (x :: xs) + length post) = NodeMaxSize) as Hlp.
  { rewrite <- Hln, Hdata at 1. rewrite length_app, length_fmap. reflexivity. }
  cbn [concat] in Hsz. rewrite length_app in Hsz.
  cbn [length] in Hs, Hlp, Hsz.
  unfold pop_front. msimpl.
  destruct (Z.eqb_spec n 0) as [E|_]; [lia|].
  msimpl.
  assert (Node.destroy_at 0 nd =
          Some (Node.set_data (raw :: (obj <$> xs) ++ post) nd)) as Hd.
  { unfold Node.destroy_at. rewrite Hdata, fmap_cons.
    pose proof (wr_middle [] (obj x) ((obj <$> xs) ++ post) 0 raw eq_refl) as Hw.
    cbn [app] in Hw |- *. rewrite Hw. reflexivity. }
  erewrite bind_Some by (eapply call_Some; [exact Ha | exact Hd]).
  erewrite bind_Some by (eapply load_Some; apply cell_insert_eq; exact Hlta).
  cbn [Node.size Node.set_data].
  assert (shift_down (Z.to_nat (Node.size nd - 1)) 0 (raw :: (obj <$> xs) ++ post) =
          Some ((obj <$> xs) ++ raw :: post)) as Hsd.
  { pose proof (shift_down_spec (obj <$> xs) [] raw post
                  (Z.to_nat (Node.size nd - 1)) 0) as Hw.
    cbn [app] in Hw. rewrite Hw.
    - now destruct (Z.to_nat (Node.size nd - 1)).
    - rewrite length_fmap, Hs. lia.
    - reflexivity. }
  erewrite bind_Some.
  2:{ eapply call_Some; [apply cell_insert_eq; exact Hlta|].
      cbn [Node.data Node.set_data]. rewrite Hsd. reflexivity. }
  rewrite list_insert_insert_eq.
  erewrite bind_Some by (eapply assign_Some; apply cell_insert_eq; exact Hlta).
  rewrite list_insert_insert_eq. msimpl.
  erewrite bind_Some by (eapply load_Some; apply cell_insert_eq; exact Hlta).
  cbn [Node.size Node.set_size Node.set_data Node.next Node.prev Node.data].
  rewrite Hs, !wrap_small by lia.
  replace (Z.of_nat (S (length xs)) - 1) with (Z.of_nat (length xs)) by lia.
  set (nd1 := Node.mk (Z.of_nat (length xs)) (Node.next nd) (Node.prev nd)
                ((obj <$> xs) ++ raw :: post)).
  assert (cell (<[a := Some nd1]> h) a = Some nd1) as Ha1
    by (apply cell_insert_eq; exact Hlta).
  match goal with |- context [<[a := Some ?x]> h] => change x with nd1 end.
  destruct xs as [|x1 xs].
  - (* the head node is drained and destroyed *)
    cbn [length]. change (Z.of_nat 0 =? 0) with true. cbn [when].
    destruct (destroy_node_frame (Some a) tl (n - 1) (<[a := Some nd1]> h) a nd1 Ha1)
      as (h1 & Hdn & Hl1 & Hca & _ & Hnext & Hfr).
    { intros p Hp. cbn in Hp. congruence. }
    { intros q Hq. cbn [nd1 Node.next] in Hq. rewrite Hnx in Hq.
      destruct ps as [|b ps]; [discriminate|]. injection Hq as <-.
      split; [intros ->; apply Hnotin, list_elem_of_here|].
      rewrite cell_insert_ne by (intros ->; apply Hnotin, list_elem_of_here).
      eapply chain_cell; [exact Hc|apply list_elem_of_here]. }
    { intros p Hp. cbn in Hp. congruence. }
    erewrite bind_Some by exact Hdn.
    replace (ptr_eqb (Some a) (Some a)) with true by (symmetry; now apply ptr_eqb_eq).
    cbn [nd1 Node.next Node.prev]. msimpl.
    exists (mk_list (Node.next nd)
              (if is_null (Node.next nd) then None
               else if ptr_eqb (Some a) tl then Node.prev nd else tl) (n - 1) h1), xss.
    split; [now destruct (Node.next nd)|].
    split; [|split; [cbn; reflexivity | intros a0 [= <-] _; exact Hca]].
    exists ps. cbn [head tail size_ heap].
    split; [exact Hnd|].
    destruct ps as [|b ps].
    + destruct xss; [|contradiction]. rewrite Hnx. cbn.
      repeat split; try reflexivity; cbn in Hsz; lia.
    + assert (b <> a) as Hba by (intros ->; apply Hnotin, list_elem_of_here).
      destruct (chain_cell NodeMaxSize h (b :: ps) _ _ _ b Hc ltac:(apply list_elem_of_here))
        as [nb Hb0].
      apply NoDup_cons in Hnd as [Hbnot _].
      split.
      { eapply chain_head_prev; [exact Hc|exact Hb0| |].
        - rewrite <- Hpv. apply Hnext; [cbn; exact Hnx|].
          now rewrite cell_insert_ne by congruence.
        - intros c Hin. rewrite Hfr.
          + apply cell_insert_ne. intros ->. apply Hnotin. now apply list_elem_of_further.
          + intros ->. apply Hnotin. now apply list_elem_of_further.
          + cbn. congruence.
          + cbn. rewrite Hnx. intros [= ->]. contradiction. }
      rewrite Hnx, is_null_Some.
      split; [reflexivity|].
      split.
      { rewrite last_cons in Htl.
        destruct (last (b :: ps)) as [c|] eqn:El; [|apply last_None in El; discriminate].
        subst tl.
        destruct (ptr_eqb (Some a) (Some c)) eqn:E; [|reflexivity].
        apply ptr_eqb_eq in E. injection E as <-. exfalso. apply Hnotin.
        apply last_Some in El as [l' ->].
        apply elem_of_app. right. apply list_elem_of_here. }
      cbn in Hsz. lia.
  - (* the head node keeps elements *)
    cbn [length]. destruct (Z.eqb_spec (Z.of_nat (S (length xs))) 0) as [E|_]; [lia|].
    cbn [when]. unfold ret.
    eexists _, ((x1 :: xs) :: xss). split; [reflexivity|].
    split; [|split; [reflexivity | intros a0 _ E; cbn in E; discriminate E]].
    exists (a :: ps). cbn [head tail size_ heap].
    split; [apply NoDup_cons; now split|].
    split.
    { eapply chain_cons; [exact Ha1|exact Hpv|exact Hnx| |congruence|].
      - eapply node_holds_intro; [reflexivity|reflexivity|].
        cbn [length] in *. lia.
      - eapply chain_agree; [exact Hc|]. intros c Hin.
        apply cell_insert_ne. intros ->. contradiction. }
    split; [reflexivity|]. split; [exact Htl|].
    cbn [concat length]. rewrite length_app. cbn [length] in *. lia.
Qed.
End PopFront.

(** ** [pop_back] *)

Section PopBack.
Context {T : Type}.
Variable NodeMaxSize : size_t.
Implicit Types (h : list (option (Node.t T))) (nd : Node.t T) (a b : ptr)
         (s : unrolled_list T) (ps qs : list ptr) (xss yss : list (list T)).

Lemma pop_back_wf s xss (x : T) (init : list T) :
  wf NodeMaxSize s xss ->
  concat xss = init ++ [x] ->
  init <> [] ->
  exists s1 xss1,
    pop_back s = Some (tt, s1) /\
    wf NodeMaxSize s1 xss1 /\
    concat xss1 = init /\
    (forall a, tail s = Some a -> last xss = Some [x] ->
               cell (heap s1) a = None).
Proof.
  intros (ps & Hnd & Hc & Hhd & Htl & Hsz & Hb) Hcat Hinit.
  destruct s as [hd tl n h]. cbn [head tail size_ heap] in *.
  pose proof (chain_length _ _ _ _ _ _ Hc) as Hlen.
  destruct xss as [|xs0 xss0 _] using rev_ind.
  { cbn in Hcat. destruct init; discriminate. }
  destruct ps as [|a ps0 _] using rev_ind;
    [rewrite length_app in Hlen; cbn in Hlen; lia|].
  rewrite !length_app in Hlen. cbn [length] in Hlen.
  assert (length ps0 = length xss0) as Hlen0 by lia.
  rewrite last_snoc in Htl. subst tl.
  apply (chain_app NodeMaxSize h ps0 None [a] None xss0 [xs0] Hlen0) in Hc as [Hc0 Hca].
  apply chain_single_inv in Hca as (nd & Ha & Hpv & Hnx & Hh & Hne).
  apply NoDup_app in Hnd as (Hnd0 & Hnotin & _).
  assert (a ∉ ps0) as Ha0.
  { intros Hin. apply (Hnotin a Hin). apply list_elem_of_here. }
  rewrite concat_app in Hsz, Hcat. cbn [concat] in Hsz, Hcat.
  rewrite app_nil_r in Hsz, Hcat.
  destruct xs0 as [|x0 ys _] using rev_ind; [congruence|].
  rewrite app_assoc in Hcat. apply app_inj_tail in Hcat as [<- ->].
  rewrite !length_app in Hsz. cbn [length] in Hsz.
  pose proof (cell_lt _ _ _ Ha) as Hlta.
  pose proof Hh as (Hs & Hln & _).
  pose proof (node_holds_data NodeMaxSize _ _ Hh) as Hdata.
  set (post := drop (length (ys ++ [x])) (Node.data nd)) in *.
  assert (Z.of_nat (length (ys ++ [x]) + length post) = NodeMaxSize) as Hlp.
  { rewrite <- Hln, Hdata at 1. rewrite (length_app (_ <$> _)), length_fmap. reflexivity. }
  rewrite length_app in Hs, Hlp. cbn [length] in Hs, Hlp.
  rewrite fmap_app, <- app_assoc in Hdata. cbn [fmap list_fmap app] in Hdata.
  unfold pop_back. msimpl.
  destruct (Z.eqb_spec n 0) as [E|_]; [lia|].
  msimpl.
  erewrite bind_Some by (eapply load_Some; exact Ha).
  assert (Node.destroy_at (Node.size nd - 1) nd =
          Some (Node.set_data ((obj <$> ys) ++ raw :: post) nd)) as Hd.
  { unfold Node.destroy_at. rewrite Hdata.
    rewrite (wr_middle (obj <$> ys) (obj x) post _ raw)
      by (rewrite length_fmap, Hs; lia).
    reflexivity. }
  erewrite bind_Some by (eapply call_Some; [exact Ha | exact Hd]).
  erewrite bind_Some by (eapply assign_Some; apply cell_insert_eq; exact Hlta).
  rewrite list_insert_insert_eq. msimpl.
  erewrite bind_Some by (eapply load_Some; apply cell_insert_eq; exact Hlta).
  rewrite bind_get_head.
  cbn [head Node.size Node.set_size Node.set_data Node.next Node.prev Node.data].
  rewrite Hs, !wrap_small by lia.
  replace (Z.of_nat (length ys + 1) - 1) with (Z.of_nat (length ys)) by lia.
  set (nd1 := Node.mk (Z.of_nat (length ys)) (Node.next nd) (Node.prev nd)
                ((obj <$> ys) ++ raw :: post)).
  assert (cell (<[a := Some nd1]> h) a = Some nd1) as Ha1
    by (apply cell_insert_eq; exact Hlta).
  match goal with |- context [<[a := Some ?x]> h] => change x with nd1 end.
  destruct ys as [|y0 ys].
  - (* the last node is drained: it is not the head and is destroyed *)
    cbn [app] in Hinit. rewrite app_nil_r in Hinit |- *.
    destruct ps0 as [|p ps00 _] using rev_ind.
    { destruct xss0; [cbn in Hinit; congruence | discriminate]. }
    rewrite last_snoc in Hpv.
    assert (p <> a) as Hpa.
    { intros ->. apply Ha0. apply elem_of_app. right. apply list_elem_of_here. }
    destruct (chain_cell NodeMaxSize h (ps00 ++ [p]) _ _ _ p Hc0
                ltac:(apply elem_of_app; right; apply list_elem_of_here)) as [pn Hp0].
    assert (hd <> Some a) as Hhda.
    { rewrite Hhd. rewrite <- app_assoc. intros E.
      apply Ha0. destruct ps00 as [|p0 ps00]; cbn in E; injection E as ->.
      - apply list_elem_of_here.
      - apply list_elem_of_here. }
    cbn [length]. change (Z.of_nat 0 =? 0) with true.
    replace (ptr_eqb (Some a) hd) with false
      by (symmetry; apply ptr_eqb_neq; congruence).
    cbn [negb andb when].
    destruct (destroy_node_frame hd (Some a) (n - 1) (<[a := Some nd1]> h) a nd1 Ha1)
      as (h1 & Hdn & Hl1 & Hca & Hprev & _ & Hfr).
    { intros p' Hp'. cbn [nd1 Node.prev] in Hp'. rewrite Hpv in Hp'. injection Hp' as <-.
      split; [exact Hpa|]. rewrite cell_insert_ne by congruence. eauto. }
    { intros q Hq. cbn in Hq. congruence. }
    { intros p' _. cbn. congruence. }
    erewrite bind_Some by exact Hdn.
    replace (ptr_eqb (Some a) hd) with false
      by (symmetry; apply ptr_eqb_neq; congruence).
    cbn [nd1 Node.next Node.prev]. msimpl. rewrite Hpv. unfold put_tail. cbn [head tail size_ heap].
    eexists _, xss0. split; [reflexivity|].
    split; [|split; [reflexivity | intros a0 [= <-] _; exact Hca]].
    exists (ps00 ++ [p]). cbn [head tail size_ heap].
    split; [exact Hnd0|].
    split.
    { eapply chain_last_next; [exact Hc0|exact Hp0| |].
      - rewrite <- Hnx. apply Hprev; [cbn; exact Hpv|].
        now rewrite cell_insert_ne by congruence.
      - intros c Hin.
        assert (c ∈ ps00 ++ [p]) as Hin1 by (apply elem_of_app; now left).
        assert (c <> p) as Hcp.
        { intros ->. apply NoDup_app in Hnd0 as (_ & Hd0 & _).
          apply (Hd0 p Hin). apply list_elem_of_here. }
        rewrite Hfr.
        + apply cell_insert_ne. intros ->. contradiction.
        + intros ->. contradiction.
        + cbn. rewrite Hpv. congruence.
        + cbn. congruence. }
    split.
    { rewrite Hhd, <- app_assoc. now destruct ps00. }
    split; [now rewrite last_snoc|].
    cbn [length] in Hsz. lia.
  - (* the last node keeps elements *)
    cbn [length]. destruct (Z.eqb_spec (Z.of_nat (S (length ys))) 0) as [E|_]; [lia|].
    cbn [andb when]. unfold ret.
    eexists _, (xss0 ++ [y0 :: ys]). split; [reflexivity|].
    split.
    2:{ split; [rewrite concat_app; cbn [concat]; now rewrite app_nil_r|].
        intros a0 _ E. rewrite last_snoc in E. injection E as _ E.
        destruct ys; discriminate E. }
    exists (ps0 ++ [a]). cbn [head tail size_ heap].
    split.
    { apply NoDup_app. split; [exact Hnd0|]. split; [exact Hnotin|apply NoDup_singleton]. }
    split.
    { apply chain_app; [exact Hlen0|]. split.
      - eapply chain_agree; [exact Hc0|]. intros c Hin.
        apply cell_insert_ne. intros ->. contradiction.
      - apply chain_single with (nd := nd1);
          [exact Ha1|exact Hpv|exact Hnx| |congruence].
        eapply node_holds_intro; [reflexivity|reflexivity|].
        cbn [length] in *. lia. }
    split; [exact Hhd|]. split; [now rewrite last_snoc|].
    rewrite concat_app. cbn [concat]. rewrite app_nil_r, !length_app.
    cbn [length] in *. lia.
Qed.
End PopBack.

(** ** [push_front], [clear] *)

Section PushFront.
Context {T : Type}.
Variable NodeMaxSize : size_t.
Implicit Types (h : list (option (Node.t T))) (nd : Node.t T) (a b : ptr)
         (s : unrolled_list T) (ps qs : list ptr) (xss yss : list (list T)).

(** [create_node(nullptr, head)] in a container with a head node. *)
Lemma create_node_before tl n h a nd :
  cell h a = Some nd ->
  create_node NodeMaxSize None (Some a) (mk_list (Some a) tl n h) =
  Some (Some (length h),
        mk_list (Some a) tl n
          (<[a := Some (Node.set_prev (Some (length h)) nd)]>
             (h ++ [Some (Node.mk 0 (Some a) None
                            (replicate (Z.to_nat NodeMaxSize) raw))]))).
Proof.
  intros Ha. pose proof (cell_lt _ _ _ Ha) as Hlt.
  unfold create_node.
  unfold bind at 1, allocate at 1. cbn [heap head tail size_].
  erewrite bind_Some by (eapply assign_Some; apply cell_app_new).
  rewrite insert_app_new.
  erewrite bind_Some by (eapply assign_Some; apply cell_app_new).
  rewrite insert_app_new.
  msimpl.
  erewrite bind_Some by (eapply assign_Some; rewrite cell_app_l by exact Hlt; exact Ha).
  msimpl. reflexivity.
Qed.


End PushFront.

Section Clear.
Context {T : Type}.
Variable NodeMaxSize : size_t.
Implicit Types (h : list (option (Node.t T))) (nd : Node.t T) (a b : ptr)
         (s : unrolled_list T) (ps qs : list ptr) (xss yss : list (list T)).

Lemma clear_loop_chain : forall ps xss tl n h fuel,
  NoDup ps ->
  chain NodeMaxSize h None ps None xss ->
  (length ps <= fuel)%nat ->
  exists tl1 h1,
    clear_loop fuel (mk_list (ps !! 0%nat) tl n h) = Some (tt, mk_list None tl1 n h1) /\
    length h1 = length h /\
    (forall c, c ∈ ps -> cell h1 c = None) /\
    (forall c, c ∉ ps -> cell h1 c = cell h c).
Proof.
  induction ps as [|a ps IH]; intros xss tl n h fuel Hnd Hc Hf.
  - exists tl, h. split; [now destruct fuel|]. split; [reflexivity|].
    split; [intros c Hin; inversion Hin | reflexivity].
  - destruct xss as [|xs xss]; [contradiction|].
    apply chain_cons_inv in Hc as (nd & Ha & Hpv & Hnx & Hh & Hne & Hc).
    apply NoDup_cons in Hnd as [Hnotin Hnd].
    destruct fuel as [|fuel]; [cbn in Hf; lia|]. cbn [length] in Hf.
    cbn [clear_loop lookup list_lookup]. msimpl.
    erewrite bind_Some by (eapply load_Some; exact Ha).
    destruct (destroy_node_frame (Some a) tl n h a nd Ha)
      as (h1 & Hdn & Hl1 & Hca & _ & Hnext & Hfr).
    { intros p Hp. congruence. }
    { intros q Hq. rewrite Hnx in Hq.
      destruct ps as [|b ps]; [discriminate|]. injection Hq as <-.
      split; [intros ->; apply Hnotin, list_elem_of_here|].
      eapply chain_cell; [exact Hc|apply list_elem_of_here]. }
    { intros p Hp. congruence. }
    erewrite bind_Some by exact Hdn.
    msimpl.
    assert (Node.next nd = ps !! 0%nat) as Hnx0 by (rewrite Hnx; now destruct ps).
    rewrite Hnx0.
    assert (chain NodeMaxSize h1 None ps None xss) as Hc1.
    { destruct ps as [|b ps]; [destruct xss; [exact I|contradiction]|].
      destruct (chain_cell NodeMaxSize h (b :: ps) _ _ _ b Hc ltac:(apply list_elem_of_here))
        as [nb Hb0].
      apply NoDup_cons in Hnd as [Hbnot _].
      eapply chain_head_prev; [exact Hc|exact Hb0| |].
      - rewrite <- Hpv. apply Hnext; [exact Hnx|exact Hb0].
      - intros c Hin. apply Hfr.
        + intros ->. apply Hnotin. now apply list_elem_of_further.
        + congruence.
        + rewrite Hnx. intros [= ->]. contradiction. }
    destruct (IH xss (if ptr_eqb (Some a) tl then Node.prev nd else tl) n h1 fuel
                Hnd Hc1 ltac:(lia)) as (tl1 & h2 & Hcl & Hl2 & Hin2 & Hout2).
    exists tl1, h2. split; [exact Hcl|]. split; [congruence|].
    split.
    + intros c Hin. apply elem_of_cons in Hin as [->|Hin]; [|now apply Hin2].
      rewrite Hout2 by exact Hnotin. exact Hca.
    + intros c Hnot. rewrite Hout2.
      * apply Hfr.
        -- intros ->. apply Hnot, list_elem_of_here.
        -- congruence.
        -- rewrite Hnx. destruct ps as [|b ps]; [congruence|].
           intros [= ->]. apply Hnot. apply list_elem_of_further, list_elem_of_here.
      * intros Hin. apply Hnot. now apply list_elem_of_further.
Qed.

Lemma clear_wf s xss fuel :
  wf NodeMaxSize s xss ->
  (length xss <= fuel)%nat ->
  exists h1,
    clear fuel s = Some (tt, mk_list None None 0 h1) /\
    length h1 = length (heap s) /\
    (forall c nd, cell h1 c = Some nd -> cell (heap s) c = Some nd).
Proof.
  intros (ps & Hnd & Hc & Hhd & Htl & Hsz & Hb) Hf.
  destruct s as [hd tl n h]. cbn [head tail size_ heap] in *.
  pose proof (chain_length _ _ _ _ _ _ Hc) as Hlen.
  destruct (clear_loop_chain ps xss tl n h fuel Hnd Hc ltac:(lia))
    as (tl1 & h1 & Hcl & Hl1 & Hin & Hout).
  exists h1. unfold clear. subst hd.
  erewrite bind_Some by exact Hcl.
  split; [reflexivity|]. split; [exact Hl1|].
  intros c nd Hcn. destruct (decide (c ∈ ps)) as [Hi|Hn].
  - rewrite Hin in Hcn by exact Hi. discriminate.
  - now rewrite <- Hout.
Qed.
End Clear.

(** ** The two ends, [clear], assignment, shrinking *)

Section Ends.
Context {T : Type}.
Variable NodeMaxSize : size_t.
Implicit Types (h : list (option (Node.t T))) (nd : Node.t T) (a b : ptr)
         (s : unrolled_list T) (ps qs : list ptr) (xss yss : list (list T)).

(** Without elements there is no node. *)
Lemma wf_nil s xss :
  wf NodeMaxSize s xss -> concat xss = [] ->
  xss = [] /\ head s = None /\ tail s = None.
Proof.
  intros (ps & _ & Hc & Hhd & Htl & _) Hcat.
  assert (xss = []) as ->.
  { destruct xss as [|zs xss]; [reflexivity|].
    destruct ps as [|a ps]; [contradiction|].
    apply chain_cons_inv in Hc as (nd & _ & _ & _ & _ & Hne & _).
    destruct zs; [congruence|discriminate]. }
  apply chain_length in Hc. destruct ps; [|discriminate]. now repeat split.
Qed.

Lemma wf_to_list s xss (l : list T) fuel :
  wf NodeMaxSize s xss -> concat xss = l -> (length l <= fuel)%nat ->
  eval (to_list fuel) s = Some l.
Proof.
  intros Hwf <- Hf. unfold eval.
  now rewrite (to_list_wf NodeMaxSize s xss fuel Hwf Hf).
Qed.


(** X11. [pop_front] on a container that satisfies the invariant and has
    an element keeps the invariant and removes the first element; when
    the head node held this element only, the node is destroyed: its cell,
    allocated before the call, is freed; and when this was the only element
    of the container, [head] and [tail] are null again. *)
Theorem pop_front_removes_first s xss (x : T) (rest : list T) (fuel : nat) :
  wf NodeMaxSize s xss ->
  concat xss = x :: rest ->
  (length rest <= fuel)%nat ->
  exists s1 xss1,
    pop_front s = Some (tt, s1) /\
    wf NodeMaxSize s1 xss1 /\
    eval (to_list fuel) s1 = Some rest /\
    eval size s1 = Some (size_ s - 1) /\
    (rest = [] -> head s1 = None /\ tail s1 = None) /\
    (forall a, head s = Some a -> xss !! 0%nat = Some [x] ->
               is_Some (cell (heap s) a) /\ cell (heap s1) a = None).
Proof.
  intros Hwf Hcat Hf.
  destruct (pop_front_wf NodeMaxSize s xss x rest Hwf Hcat)
    as (s1 & xss1 & Hp & Hwf1 & Hcat1 & Hfree).
  exists s1, xss1. split; [exact Hp|]. split; [exact Hwf1|].
  split; [eapply wf_to_list; eassumption|].
  split.
  - destruct (wf_size _ _ _ Hwf) as [E _], (wf_size _ _ _ Hwf1) as [E1 _].
    unfold eval, size, get_size. cbn. rewrite E1, E, Hcat, Hcat1. cbn [length]. f_equal. lia.
  - split.
    + intros ->. now destruct (wf_nil s1 xss1 Hwf1 Hcat1) as (_ & ? & ?).
    + intros a Ha Hx. split; [|now apply Hfree].
      destruct (wf_first_node NodeMaxSize s xss x rest Hwf Hcat) as (a' & nd & _ & Hh & Hc & _).
      rewrite Ha in Hh. injection Hh as <-. rewrite Hc. eauto.
Qed.

(** X12. [pop_back] on a container that satisfies the invariant and has
    two elements or more keeps the invariant and removes the last
    element; when the last node held this element only, the node is
    unlinked and destroyed: its cell, allocated before the call, is
    freed. *)
Theorem pop_back_removes_last s xss (x : T) (init : list T) (fuel : nat) :
  wf NodeMaxSize s xss ->
  concat xss = init ++ [x] ->
  init <> [] ->
  (length init <= fuel)%nat ->
  exists s1 xss1,
    pop_back s = Some (tt, s1) /\
    wf NodeMaxSize s1 xss1 /\
    eval (to_list fuel) s1 = Some init /\
    eval size s1 = Some (size_ s - 1) /\
    (forall a, tail s = Some a -> last xss = Some [x] ->
               is_Some (cell (heap s) a) /\ cell (heap s1) a = None).
Proof.
  intros Hwf Hcat Hne Hf.
  destruct (pop_back_wf NodeMaxSize s xss x init Hwf Hcat Hne)
    as (s1 & xss1 & Hp & Hwf1 & Hcat1 & Hfree).
  exists s1, xss1. split; [exact Hp|]. split; [exact Hwf1|].
  split; [eapply wf_to_list; eassumption|].
  split.
  - destruct (wf_size _ _ _ Hwf) as [E _], (wf_size _ _ _ Hwf1) as [E1 _].
    unfold eval, size, get_size. cbn. rewrite E1, E, Hcat, Hcat1, length_app.
    cbn [length]. f_equal. lia.
  - intros a Ha Hx. split; [|now apply Hfree].
    destruct (wf_last_node NodeMaxSize s xss x init Hwf Hcat) as (a' & nd & _ & Ht & Hc & _).
    rewrite Ha in Ht. injection Ht as <-. rewrite Hc. eauto.
Qed.

Lemma wf_cleared h : wf NodeMaxSize (mk_list (T := T) None None 0 h) [].
Proof. exists []. repeat split; try reflexivity. apply NoDup_nil_2. Qed.

(** X14. [assign_range], and the assignment of an initializer list, on a
    container that satisfies the invariant replace its elements by those
    of the range. *)
Theorem assign_range_replaces s xss (xs : list T) (fuel : nat) :
  0 < NodeMaxSize ->
  wf NodeMaxSize s xss ->
  Z.of_nat (length xs) < 2 ^ SIZE_WIDTH ->
  (length xss <= fuel)%nat ->
  (length xs <= fuel)%nat ->
  exists s1 yss,
    assign_range NodeMaxSize fuel xs s = Some (tt, s1) /\
    wf NodeMaxSize s1 yss /\
    eval (to_list fuel) s1 = Some xs /\
    eval size s1 = Some (Z.of_nat (length xs)).
Proof.
  intros HC Hwf Hb Hf Hf'.
  destruct (clear_wf NodeMaxSize s xss fuel Hwf Hf) as (h1 & Hc & _ & _).
  destruct (push_back_all_wf NodeMaxSize xs (mk_list None None 0 h1) [] HC
              (wf_cleared h1) ltac:(cbn; lia)) as (s1 & yss & Hall & Hwf1 & Hcat).
  cbn in Hcat. exists s1, yss. unfold assign_range.
  erewrite bind_Some by exact Hc.
  split; [exact Hall|]. split; [exact Hwf1|].
  split; [eapply wf_to_list; eassumption|].
  destruct (wf_size _ _ _ Hwf1) as [E1 _].
  unfold eval, size, get_size. cbn. now rewrite E1, Hcat.
Qed.

Lemma resize_shrink_wf (k : nat) : forall s xss (count : size_t) fuel,
  wf NodeMaxSize s xss ->
  0 < count ->
  size_ s = count + Z.of_nat k ->
  (k <= fuel)%nat ->
  exists s1 xss1,
    resize_shrink fuel count s = Some (tt, s1) /\
    wf NodeMaxSize s1 xss1 /\
    concat xss1 = take (Z.to_nat count) (concat xss).
Proof.
  induction k as [|k IH]; intros s xss count fuel Hwf Hc Hs Hf.
  - exists s, xss. destruct (wf_size _ _ _ Hwf) as [E _].
    split; [|split; [exact Hwf|]].
    + destruct fuel; cbn [resize_shrink]; rewrite bind_get_size;
        (destruct (Z.gtb_spec (size_ s) count); [lia|reflexivity]).
    + rewrite take_ge; [reflexivity|lia].
  - destruct fuel as [|fuel]; [lia|].
    destruct (wf_size _ _ _ Hwf) as [E _].
    cbn [resize_shrink]. rewrite bind_get_size.
    destruct (Z.gtb_spec (size_ s) count); [|lia].
    assert (exists init x, concat xss = init ++ [x]) as (init & x & Hcat).
    { destruct (concat xss) as [|x init _] using rev_ind; [cbn in E; lia|eauto]. }
    rewrite Hcat, length_app in E. cbn [length] in E.
    assert (init <> []) as Hne by (intros ->; cbn in E; lia).
    destruct (pop_back_wf NodeMaxSize s xss x init Hwf Hcat Hne)
      as (s1 & xss1 & Hp & Hwf1 & Hcat1 & _).
    destruct (wf_size _ _ _ Hwf1) as [E1 _].
    destruct (IH s1 xss1 count fuel Hwf1 Hc ltac:(rewrite E1, Hcat1; lia) ltac:(lia))
      as (s2 & xss2 & Hr & Hwf2 & Hcat2).
    exists s2, xss2. erewrite bind_Some by exact Hp.
    split; [exact Hr|]. split; [exact Hwf2|].
    rewrite Hcat2, Hcat1, Hcat. rewrite take_app_le by lia. reflexivity.
Qed.

(** X15. [resize(count, value)] with [count] from 1 up to [size()], on a
    container that satisfies the invariant, keeps the first [count]
    elements and appends nothing. *)
Theorem resize_shrinks s xss (count : size_t) (v : T) (fuel : nat) :
  wf NodeMaxSize s xss ->
  0 < count <= size_ s ->
  (Z.to_nat (size_ s - count) <= fuel)%nat ->
  (Z.to_nat count <= fuel)%nat ->
  exists s1 xss1,
    resize NodeMaxSize fuel count v s = Some (tt, s1) /\
    wf NodeMaxSize s1 xss1 /\
    eval (to_list fuel) s1 = Some (take (Z.to_nat count) (concat xss)) /\
    eval size s1 = Some count.
Proof.
  intros Hwf Hc Hf Hf'.
  destruct (wf_size _ _ _ Hwf) as [E _].
  destruct (resize_shrink_wf (Z.to_nat (size_ s - count)) s xss count fuel Hwf
              ltac:(lia) ltac:(lia) Hf) as (s1 & xss1 & Hr & Hwf1 & Hcat).
  destruct (wf_size _ _ _ Hwf1) as [E1 _].
  rewrite Hcat, length_take in E1.
  exists s1, xss1. split.
  { unfold resize. erewrite bind_Some by exact Hr.
    destruct fuel; cbn [resize_grow]; rewrite bind_get_size;
      (destruct (Z.ltb_spec (size_ s1) count); [lia|reflexivity]). }
  split; [exact Hwf1|].
  split; [eapply wf_to_list; [exact Hwf1|exact Hcat|rewrite length_take; lia]|].
  unfold eval, size, get_size. cbn. f_equal. lia.
Qed.

Context `{EqDecision T}.

(** X16. The copy assignment, on containers that satisfy the invariant,
    clears this container and appends the elements of the other one: the
    two then compare equal with [operator==]. *)
Theorem operator_assign_equal s xss (other : unrolled_list T) yss (fuel : nat) :
  0 < NodeMaxSize ->
  wf NodeMaxSize s xss ->
  wf NodeMaxSize other yss ->
  (length xss <= fuel)%nat ->
  (length (concat yss) <= fuel)%nat ->
  exists s1 zss,
    operator_assign NodeMaxSize fuel other s = Some (tt, s1) /\
    wf NodeMaxSize s1 zss /\
    eval (to_list fuel) s1 = Some (concat yss) /\
    operator_eq fuel s1 other = Some true.
Proof.
  intros HC Hwf Hwfo Hf Hf'.
  pose proof (wf_walks _ _ _ Hwfo) as Hw.
  destruct (wf_size _ _ _ Hwfo) as [E Eb].
  destruct (clear_wf NodeMaxSize s xss fuel Hwf Hf) as (h1 & Hc & _ & _).
  destruct (copy_loop_walks NodeMaxSize other _ _ Hw (mk_list None None 0 h1) [] fuel HC
              (wf_cleared h1) ltac:(cbn; lia) Hf') as (s1 & zss & Hl & Hwf1 & Hcat).
  cbn in Hcat. exists s1, zss.
  split.
  { unfold operator_assign. erewrite bind_Some by exact Hc.
    unfold eval, begin. cbn. unfold bind, lift. exact Hl. }
  split; [exact Hwf1|].
  split; [eapply wf_to_list; eassumption|].
  destruct (wf_size _ _ _ Hwf1) as [Es _]. rewrite Hcat in Es.
  pose proof (wf_walks _ _ _ Hwf1) as Hws. rewrite Hcat in Hws.
  unfold operator_eq, eval, size, get_size, begin. cbn.
  rewrite Es, E, Z.eqb_refl. cbn.
  rewrite (std_equal_walks s1 other _ _ Hws _ _ fuel Hw eq_refl Hf').
  f_equal. now apply bool_decide_eq_true_2.
Qed.
End Ends.

(** ** Cursors and indices *)

Section Cursors.
Context {T : Type}.
Variable NodeMaxSize : size_t.
Implicit Types (h : list (option (Node.t T))) (nd : Node.t T) (a b : ptr)
         (s : unrolled_list T) (ps qs : list ptr) (xss yss : list (list T)).

(** An index of the concatenation is an offset in one of the lists. *)
Lemma concat_split_at (xss : list (list T)) : forall i,
  (i < length (concat xss))%nat ->
  exists xss1 xs xss2 k,
    xss = xss1 ++ xs :: xss2 /\ (k < length xs)%nat /\
    i = (length (concat xss1) + k)%nat.
Proof.
  induction xss as [|ys xss IH]; intros i Hi; [cbn in Hi; lia|].
  cbn [concat] in Hi. rewrite length_app in Hi.
  destruct (decide (i < length ys)%nat) as [Hlt|Hge].
  - exists [], ys, xss, i. now repeat split.
  - destruct (IH (i - length ys)%nat ltac:(lia)) as (xss1 & xs & xss2 & k & -> & Hk & Ei).
    exists (ys :: xss1), xs, xss2, k. split; [reflexivity|]. split; [exact Hk|].
    cbn [concat]. rewrite length_app. lia.
Qed.

Lemma std_next_add s (n m : nat) : forall it it1,
  std_next n it s = Some (it1, s) ->
  std_next (n + m) it s = std_next m it1 s.
Proof.
  induction n as [|n IH]; intros it it1 Hn.
  - injection Hn as ->. reflexivity.
  - cbn [std_next Nat.add] in Hn |- *. unfold bind in Hn |- *.
    destruct (incr it s) as [[it2 s2]|] eqn:Hi; [|discriminate].
    assert (s2 = s) as ->.
    { unfold incr, bind, load in Hi.
      destruct (current_node it); [|discriminate].
      destruct (cell (heap s) p); [|discriminate].
      destruct (_ <? _); now injection Hi as _ <-. }
    now apply IH.
Qed.

(** Advancing inside a node. *)
Lemma std_next_in_node s a nd (xs : list T) :
  cell (heap s) a = Some nd ->
  node_holds NodeMaxSize nd xs ->
  Z.of_nat (length xs) < 2 ^ SIZE_WIDTH ->
  forall j k, (k + j < length xs)%nat ->
    std_next j (mk_iterator (Some a) (Z.of_nat k)) s =
    Some (mk_iterator (Some a) (Z.of_nat (k + j)), s).
Proof.
  intros Ha Hh Hb. pose proof Hh as (Hsz & _ & _).
  induction j as [|j IH]; intros k Hk.
  - now rewrite Nat.add_0_r.
  - cbn [std_next]. erewrite bind_Some by (eapply incr_Some; exact Ha).
    rewrite wrap_small by lia.
    destruct (Z.ltb_spec (Z.of_nat k + 1) (Node.size nd)); [|lia].
    replace (Z.of_nat k + 1) with (Z.of_nat (S k)) by lia.
    rewrite IH by lia. do 3 f_equal. lia.
Qed.

(** Advancing over the elements of a node reaches the next node. *)
Lemma std_next_over_node s a nd (xs : list T) :
  cell (heap s) a = Some nd ->
  node_holds NodeMaxSize nd xs ->
  Z.of_nat (length xs) < 2 ^ SIZE_WIDTH ->
  xs <> [] ->
  std_next (length xs) (mk_iterator (Some a) 0) s =
  Some (mk_iterator (Node.next nd) 0, s).
Proof.
  intros Ha Hh Hb Hne. pose proof Hh as (Hsz & _ & _).
  destruct xs as [|x xs] using rev_ind; [congruence|]. clear IHxs.
  rewrite length_app in *. cbn [length] in *.
  rewrite (std_next_add s (length xs) 1 _ (mk_iterator (Some a) (Z.of_nat (length xs)))).
  2:{ pose proof (std_next_in_node s a nd (xs ++ [x]) Ha Hh) as Hn.
      rewrite length_app in Hn. cbn [length] in Hn.
      apply (Hn Hb (length xs) 0%nat). lia. }
  cbn [std_next]. erewrite bind_Some by (eapply incr_Some; exact Ha).
  rewrite wrap_small by lia.
  destruct (Z.ltb_spec (Z.of_nat (length xs) + 1) (Node.size nd)); [lia|reflexivity].
Qed.

(** The cursor at an offset of a node of the chain is reached from the
    start of the chain by as many steps as there are elements before it. *)
Lemma chain_std_next s : forall ps1 xss1 pv a ps2 (xs : list T) xss2 k,
  chain NodeMaxSize (heap s) pv (ps1 ++ a :: ps2) None (xss1 ++ xs :: xss2) ->
  length ps1 = length xss1 ->
  Z.of_nat (length (concat (xss1 ++ xs :: xss2))) < 2 ^ SIZE_WIDTH ->
  (k < length xs)%nat ->
  std_next (length (concat xss1) + k) (mk_iterator ((ps1 ++ a :: ps2) !! 0%nat) 0) s =
  Some (mk_iterator (Some a) (Z.of_nat k), s).
Proof.
  induction ps1 as [|p ps1 IH]; intros [|ys xss1] pv a ps2 xs xss2 k Hc Hl Hb Hk;
    try discriminate.
  - cbn [app] in Hc. apply chain_cons_inv in Hc as (nd & Ha & _ & _ & Hh & _ & _).
    cbn [concat app] in Hb. rewrite length_app in Hb.
    cbn [app lookup list_lookup concat length Nat.add].
    apply (std_next_in_node s a nd xs Ha Hh ltac:(lia) k 0%nat). lia.
  - cbn [app] in Hc. apply chain_cons_inv in Hc as (nd & Hp & _ & Hnx & Hh & Hne & Hc).
    injection Hl as Hl.
    cbn [concat app] in Hb. rewrite length_app in Hb.
    cbn [app lookup list_lookup concat]. rewrite length_app, <- Nat.add_assoc.
    rewrite (std_next_add s (length ys) _ _ (mk_iterator (Node.next nd) 0)).
    2:{ apply (std_next_over_node s p nd ys Hp Hh ltac:(lia) Hne). }
    replace (Node.next nd) with ((ps1 ++ a :: ps2) !! 0%nat)
      by (rewrite Hnx; now destruct ps1).
    eapply IH; [exact Hc|exact Hl|lia|exact Hk].
Qed.

Lemma node_holds_inj nd (xs ys : list T) :
  node_holds NodeMaxSize nd xs -> node_holds NodeMaxSize nd ys -> xs = ys.
Proof.
  intros (Hs1 & _ & Ht1) (Hs2 & _ & Ht2).
  assert (length xs = length ys) as El by lia.
  rewrite El, Ht2 in Ht1. clear -Ht1.
  revert xs Ht1. induction ys as [|y ys IH]; intros [|x xs] E; try discriminate;
    [reflexivity|].
  injection E as <- E. f_equal. now apply IH.
Qed.

(** A node of the chain replaced by one with the same links. *)
Lemma chain_update_node h ps1 a ps2 pv nx xss1 (xs ys : list T) xss2 nd nd1 :
  chain NodeMaxSize h pv (ps1 ++ a :: ps2) nx (xss1 ++ xs :: xss2) ->
  length ps1 = length xss1 ->
  NoDup (ps1 ++ a :: ps2) ->
  cell h a = Some nd ->
  Node.prev nd1 = Node.prev nd ->
  Node.next nd1 = Node.next nd ->
  node_holds NodeMaxSize nd1 ys ->
  ys <> [] ->
  chain NodeMaxSize (<[a := Some nd1]> h) pv (ps1 ++ a :: ps2) nx (xss1 ++ ys :: xss2).
Proof.
  intros Hc Hl Hnd Ha Hpv Hnx Hh Hne.
  pose proof (cell_lt _ _ _ Ha) as Hlt.
  apply NoDup_app in Hnd as (_ & Hdis & Hnd2).
  apply NoDup_cons in Hnd2 as [Hnot2 _].
  assert (a ∉ ps1) as Hnot1.
  { intros Hin. apply (Hdis a Hin). apply list_elem_of_here. }
  apply (chain_app NodeMaxSize h ps1 pv (a :: ps2) nx xss1 (xs :: xss2) Hl) in Hc as [Hc1 Hc2].
  apply chain_cons_inv in Hc2 as (nd' & Ha' & Hpv' & Hnx' & _ & _ & Hc2).
  rewrite Ha in Ha'. injection Ha' as <-.
  apply (chain_app NodeMaxSize _ ps1 pv (a :: ps2) nx xss1 (ys :: xss2) Hl). split.
  - eapply chain_agree; [exact Hc1|]. intros c Hin.
    apply cell_insert_ne. intros ->. contradiction.
  - eapply chain_cons; [apply cell_insert_eq; exact Hlt|congruence|congruence|exact Hh|exact Hne|].
    eapply chain_agree; [exact Hc2|]. intros c Hin.
    apply cell_insert_ne. intros ->. contradiction.
Qed.
End Cursors.

(** ** Linking a node after another *)

Section Linking.
Context {T : Type}.
Variable NodeMaxSize : size_t.
Implicit Types (h : list (option (Node.t T))) (nd : Node.t T) (a b : ptr)
         (s : unrolled_list T) (ps qs : list ptr) (xss yss : list (list T)).

(** [create_node(node, node->next)] in a container with a head node:
    the cells it writes. *)
Lemma create_node_link hd tl n h a nd :
  cell h a = Some nd ->
  hd <> None ->
  (forall q, Node.next nd = Some q -> q <> a /\ is_Some (cell h q)) ->
  exists h1,
    create_node NodeMaxSize (Some a) (Node.next nd) (mk_list hd tl n h) =
      Some (Some (length h),
            mk_list hd (if is_null (Node.next nd) then Some (length h) else tl) n h1) /\
    length h1 = S (length h) /\
    cell h1 (length h) =
      Some (Node.mk 0 (Node.next nd) (Some a) (replicate (Z.to_nat NodeMaxSize) raw)) /\
    cell h1 a = Some (Node.set_next (Some (length h)) nd) /\
    (forall q qn, Node.next nd = Some q -> cell h q = Some qn ->
                  cell h1 q = Some (Node.set_prev (Some (length h)) qn)) /\
    (forall c, c <> a -> (c < length h)%nat -> Node.next nd <> Some c ->
               cell h1 c = cell h c).
Proof.
  intros Ha Hhd Hq. pose proof (cell_lt _ _ _ Ha) as Hlt.
  unfold create_node.
  unfold bind at 1. unfold allocate at 1. cbn [heap head tail size_].
  set (h0 := h ++ [Some (Node.ctor NodeMaxSize)]).
  assert (cell h0 (length h) = Some (Node.ctor NodeMaxSize)) as Hb by apply cell_app_new.
  assert (length h0 = S (length h)) as Hl0 by (unfold h0; rewrite length_app; cbn; lia).
  erewrite bind_Some by (eapply assign_Some; exact Hb).
  erewrite bind_Some
    by (eapply assign_Some; apply cell_insert_eq; lia).
  rewrite list_insert_insert_eq.
  rewrite is_null_Some. cbn [when negb].
  assert (cell (<[length h := Some (Node.set_next (Node.next nd)
                  (Node.set_prev (Some a) (Node.ctor NodeMaxSize)))]> h0) a = Some nd) as Ha1.
  { rewrite cell_insert_ne by lia. unfold h0. now rewrite cell_app_l. }
  erewrite bind_Some by (eapply assign_Some; exact Ha1).
  match goal with
  | |- context [mk_list _ _ _ ?hh] => set (h2 := hh)
  end.
  assert (cell h2 (length h) =
          Some (Node.mk 0 (Node.next nd) (Some a) (replicate (Z.to_nat NodeMaxSize) raw))) as Hb2.
  { unfold h2. rewrite cell_insert_ne by lia. rewrite cell_insert_eq by lia. reflexivity. }
  assert (cell h2 a = Some (Node.set_next (Some (length h)) nd)) as Ha2.
  { unfold h2. apply cell_insert_eq. rewrite length_insert. lia. }
  assert (length h2 = S (length h)) as Hl2 by (unfold h2; now rewrite !length_insert).
  assert (is_null hd = false) as Enull by (destruct hd; [reflexivity|congruence]).
  destruct (Node.next nd) as [q|] eqn:Hnx.
  - destruct (Hq q eq_refl) as [Hne [nq Hnq]].
    pose proof (cell_lt _ _ _ Hnq) as Hqlt.
    rewrite is_null_Some. cbn [negb when].
    assert (cell h2 q = Some nq) as Hq2.
    { unfold h2. rewrite !cell_insert_ne by lia. unfold h0. now rewrite cell_app_l. }
    erewrite bind_Some by (eapply assign_Some; exact Hq2).
    rewrite bind_get_head. cbn [head]. rewrite Enull. cbn [when].
    eexists. split; [reflexivity|].
    split; [now rewrite length_insert|].
    split; [rewrite cell_insert_ne by lia; exact Hb2|].
    split; [rewrite cell_insert_ne by congruence; exact Ha2|].
    split.
    { intros q' qn [= <-] Hqn. rewrite Hnq in Hqn. injection Hqn as <-.
      apply cell_insert_eq. lia. }
    intros c Hca Hcl Hcn. rewrite cell_insert_ne by congruence. unfold h2.
    rewrite !cell_insert_ne by lia. unfold h0. now rewrite cell_app_l.
  - rewrite is_null_None. cbn [negb when].
    rewrite bind_ret, bind_get_head. cbn [head]. rewrite Enull. cbn [when].
    eexists. split; [reflexivity|].
    split; [exact Hl2|]. split; [exact Hb2|]. split; [exact Ha2|].
    split; [intros q' qn [=]|].
    intros c Hca Hcl Hcn. unfold h2. cbn [heap].
    rewrite !cell_insert_ne by lia. unfold h0. now rewrite cell_app_l.
Qed.
End Linking.

(** ** The split, cell by cell *)

Section SplitCells.
Context {T : Type}.
Variable NodeMaxSize : size_t.
Implicit Types (h : list (option (Node.t T))) (nd : Node.t T) (a b : ptr)
         (s : unrolled_list T) (ps qs : list ptr) (xss yss : list (list T)).

(** The split of a full node in [emplace], after the new node is linked:
    the two cells it leaves. *)
Lemma emplace_split_cells hd tl n h a nd (xs : list T) (k : nat) (v : T) hd1 tl1 h1 :
  2 <= NodeMaxSize < 2 ^ SIZE_WIDTH ->
  cell h a = Some nd ->
  node_holds NodeMaxSize nd xs ->
  Z.of_nat (length xs) = NodeMaxSize ->
  (k < length xs)%nat ->
  create_node NodeMaxSize (Some a) (Node.next nd) (mk_list hd tl n h) =
    Some (Some (length h), mk_list hd1 tl1 n h1) ->
  length h1 = S (length h) ->
  cell h1 (length h) =
    Some (Node.mk 0 (Node.next nd) (Some a) (replicate (Z.to_nat NodeMaxSize) raw)) ->
  cell h1 a = Some (Node.set_next (Some (length h)) nd) ->
  0 <= n -> n + 1 < 2 ^ SIZE_WIDTH ->
  exists A B ls hs it,
    emplace NodeMaxSize (mk_iterator (Some a) (Z.of_nat k)) v (mk_list hd tl n h) =
      Some (it, mk_list hd1 tl1 (n + 1)
                  (<[a := Some A]> (<[length h := Some B]> h1))) /\
    Node.prev A = Node.prev nd /\ Node.next A = Some (length h) /\
    Node.prev B = Some a /\ Node.next B = Node.next nd /\
    node_holds NodeMaxSize A ls /\ node_holds NodeMaxSize B hs /\
    ls <> [] /\ hs <> [] /\
    ls ++ hs = take k xs ++ v :: drop k xs /\
    ((k < length ls)%nat /\ it = mk_iterator (Some a) (Z.of_nat k) \/
     (length ls <= k)%nat /\ (k - length ls < length hs)%nat /\
     it = mk_iterator (Some (length h)) (Z.of_nat (k - length ls))) /\
    Node.data A = (obj <$> ls) ++ replicate (Z.to_nat NodeMaxSize - length ls) raw /\
    (NodeMaxSize / 2 <= Z.of_nat k -> ls = take (Z.to_nat (NodeMaxSize / 2)) xs).
Proof.
  intros HC Ha Hh Hlen Hk Hcr Hl1 Hb1 Ha1 Hn0 Hn1.
  pose proof Hh as (Hsz & Hln & Htk).
  assert (Node.data nd = obj <$> xs) as Hd.
  { rewrite <- Htk. symmetry. apply take_ge. lia. }
  set (half := NodeMaxSize / 2).
  assert (0 < half < NodeMaxSize) as Hhalf.
  { unfold half. split; [apply Z.div_str_pos; lia | apply Z.div_lt; lia]. }
  assert (half = NodeMaxSize / 2) as Ehalf by reflexivity.
  clearbody half.
  set (b := length h) in *.
  assert (b = length h) as Eb by reflexivity.
  clearbody b.
  pose proof (cell_lt _ _ _ Ha) as Hlta.
  unfold emplace. cbn [iterator_eqb current_node current_pos end_ ptr_eqb andb].
  erewrite bind_Some by (eapply load_Some; exact Ha).
  unfold Node.is_full. rewrite Hsz, Hlen, Z.eqb_refl. cbn [negb].
  erewrite bind_Some by exact Hcr.
  rewrite <- Ehalf.
  set (hn := Z.to_nat half).
  assert (length (drop hn xs) = Z.to_nat (NodeMaxSize - half)) as Hrest
    by (rewrite length_drop; unfold hn; lia).
  rewrite <- Hrest.
  assert (a <> b) as Hab by lia.
  erewrite bind_Some; cycle 1.
  { eapply (split_loop_spec a b (drop hn xs) (take hn xs) [] []
              (replicate (Z.to_nat NodeMaxSize) raw)); try eassumption.
    - cbn [Node.data Node.set_next app]. rewrite Hd. now rewrite <- fmap_app, take_drop.
    - reflexivity.
    - rewrite length_replicate, length_drop. lia.
    - reflexivity.
    - cbn [length]. rewrite Hrest. lia.
    - rewrite length_take. cbn [length]. unfold hn. lia. }
  cbn [app length Nat.add].
  rewrite drop_replicate, Hrest.
  match goal with
  | |- context [mk_list _ _ _ (<[a := Some ?A]> (<[b := Some ?B]> h1))] =>
      set (A1 := A); set (B1 := B)
  end.
  erewrite bind_Some
    by (eapply assign_Some; apply cell_insert_eq; rewrite length_insert; lia).
  rewrite list_insert_insert_eq.
  erewrite bind_Some
    by (eapply assign_Some; rewrite cell_insert_ne by congruence;
        apply cell_insert_eq; lia).
  rewrite (list_insert_insert_ne _ b a) by congruence.
  rewrite list_insert_insert_eq.
  rewrite (wrap_small (NodeMaxSize - half)) by lia.
  set (A2 := Node.set_size half A1).
  set (B2 := Node.set_size (NodeMaxSize - half) B1).
  assert (Node.size A2 = Z.of_nat (length (take hn xs))) as HsA
    by (cbn; rewrite length_take; unfold hn; lia).
  assert (Node.size B2 = Z.of_nat (length (drop hn xs))) as HsB
    by (cbn; rewrite Hrest; lia).
  assert (Node.data A2 = (obj <$> take hn xs) ++ raw ::
            replicate (Z.to_nat (NodeMaxSize - half) - 1) raw) as HdA.
  { cbn. f_equal. destruct (Z.to_nat (NodeMaxSize - half)) eqn:E; [lia|].
    cbn. now rewrite Nat.sub_0_r. }
  assert (Node.data B2 = (obj <$> drop hn xs) ++ raw ::
            replicate (Z.to_nat half - 1) raw) as HdB.
  { cbn. f_equal.
    replace (Z.to_nat NodeMaxSize - Z.to_nat (NodeMaxSize - half))%nat
      with (S (Z.to_nat half - 1)) by lia.
    reflexivity. }
  assert (length (take hn xs) = hn) as Hltk by (rewrite length_take; unfold hn; lia).
  destruct (Z.ltb_spec (Z.of_nat k) half) as [Hlt|Hge].
  - (* the value goes to the lower node *)
    pose proof (node_insert_spec A2 _ _ _ (Z.of_nat k) v HsA HdA) as Hins.
    rewrite Hltk in Hins.
    specialize (Hins ltac:(unfold hn; lia) ltac:(unfold hn; lia)).
    rewrite Nat2Z.id in Hins.
    erewrite bind_Some; cycle 1.
    { eapply call_Some; [|exact Hins].
      apply cell_insert_eq. rewrite length_insert. lia. }
    rewrite list_insert_insert_eq.
    rewrite bind_get_size, bind_put_size. cbn [head tail size_ heap].
    rewrite (wrap_small (n + 1)) by lia.
    unfold ret.
    eexists _, B2, (take k (take hn xs) ++ v :: drop k (take hn xs)), (drop hn xs), _.
    split; [reflexivity|]. cbn [Node.prev Node.next].
    split; [reflexivity|]. split; [reflexivity|]. split; [reflexivity|].
    split; [reflexivity|].
    assert (length (take k (take hn xs) ++ v :: drop k (take hn xs)) = S hn) as Hlls.
    { rewrite length_app, length_take. cbn [length]. rewrite length_drop, Hltk. unfold hn. lia. }
    split.
    { eapply node_holds_intro; [|reflexivity|].
      - cbn [Node.size]. rewrite Hlls. unfold hn. lia.
      - rewrite Hlls, length_replicate. unfold hn. lia. }
    split.
    { eapply node_holds_intro; [exact HsB|exact HdB|].
      cbn [length]. rewrite Hrest, length_replicate. lia. }
    split; [intros E; apply (f_equal length) in E; rewrite Hlls in E; discriminate|].
    split; [intros E; apply (f_equal length) in E; rewrite Hrest in E; cbn in E; lia|].
    split.
    { rewrite <- app_assoc. cbn [app].
      rewrite take_take, drop_take_drop by (unfold hn; lia).
      now replace (k `min` hn)%nat with k by (unfold hn; lia). }
    split; [left; split; [rewrite Hlls; unfold hn; lia | reflexivity]|].
    split; [|intros ?; lia].
    cbn [Node.data]. f_equal. rewrite Hlls. f_equal. unfold hn. lia.
  - (* the value goes to the new node *)
    rewrite (wrap_small (Z.of_nat k - half)) by lia.
    pose proof (node_insert_spec B2 _ _ _ (Z.of_nat k - half) v HsB HdB) as Hins.
    rewrite Hrest in Hins.
    specialize (Hins ltac:(lia) ltac:(lia)).
    erewrite bind_Some; cycle 1.
    { eapply call_Some; [|exact Hins].
      rewrite cell_insert_ne by congruence. apply cell_insert_eq. lia. }
    rewrite (list_insert_insert_ne _ b a) by congruence.
    rewrite list_insert_insert_eq.
    rewrite bind_get_size, bind_put_size. cbn [head tail size_ heap].
    rewrite (wrap_small (n + 1)) by lia.
    unfold ret.
    set (j := Z.to_nat (Z.of_nat k - half)).
    eexists A2, _, (take hn xs), (take j (drop hn xs) ++ v :: drop j (drop hn xs)), _.
    split; [reflexivity|]. cbn [Node.prev Node.next].
    split; [reflexivity|]. split; [reflexivity|]. split; [reflexivity|].
    split; [reflexivity|].
    assert (length (take j (drop hn xs) ++ v :: drop j (drop hn xs)) =
            S (Z.to_nat (NodeMaxSize - half))) as Hlhs.
    { rewrite length_app, length_take. cbn [length]. rewrite !length_drop. unfold j, hn. lia. }
    split.
    { eapply node_holds_intro; [exact HsA|exact HdA|].
      cbn [length]. rewrite Hltk, length_replicate. unfold hn. lia. }
    split.
    { eapply node_holds_intro; [|reflexivity|].
      - cbn [Node.size]. rewrite Hlhs. lia.
      - rewrite Hlhs, length_replicate. lia. }
    split; [intros E; apply (f_equal length) in E; rewrite Hltk in E; cbn in E; unfold hn in E; lia|].
    split; [intros E; apply (f_equal length) in E; rewrite Hlhs in E; discriminate|].
    split.
    { rewrite app_assoc, take_take_drop, drop_drop.
      now replace (hn + j)%nat with k by (unfold hn, j; lia). }
    split.
    { right. rewrite Hltk, Hlhs.
      split; [unfold hn; lia|]. split; [unfold hn; lia|].
      do 2 f_equal. unfold hn. lia. }
    split; [|intros _; unfold hn; now rewrite Ehalf].
    rewrite HdA, Hltk. f_equal.
    replace (Z.to_nat NodeMaxSize - hn)%nat with (S (Z.to_nat (NodeMaxSize - half) - 1))
      by (unfold hn; lia).
    reflexivity.
Qed.
End SplitCells.

(** ** Insertion at any cursor *)

Section InsertAt.
Context {T : Type}.
Variable NodeMaxSize : size_t.
Implicit Types (h : list (option (Node.t T))) (nd : Node.t T) (a b : ptr)
         (s : unrolled_list T) (ps qs : list ptr) (xss yss : list (list T)).

Lemma concat_insert_at (c1 xs c2 : list T) (k : nat) (v : T) :
  (k <= length xs)%nat ->
  take (length c1 + k) (c1 ++ xs ++ c2) ++ v :: drop (length c1 + k) (c1 ++ xs ++ c2) =
  c1 ++ (take k xs ++ v :: drop k xs) ++ c2.
Proof.
  intros Hk. rewrite take_app_add, drop_app_add.
  rewrite take_app_le, drop_app_le by lia.
  rewrite <- !app_assoc. reflexivity.
Qed.

Lemma split_like {A B} (l : list A) (k1 : list B) (x : B) (k2 : list B) :
  length l = length (k1 ++ x :: k2) ->
  exists l1 y l2, l = l1 ++ y :: l2 /\ length l1 = length k1 /\
                  length l2 = length k2.
Proof.
  intros Hl. rewrite length_app in Hl. cbn [length] in Hl.
  destruct (lookup_lt_is_Some_2 l (length k1) ltac:(lia)) as [a Ha].
  exists (take (length k1) l), a, (drop (S (length k1)) l).
  split; [symmetry; now apply take_drop_middle|].
  rewrite length_take, length_drop. lia.
Qed.

(** The cursor that [emplace] returns for the end cursor is the cursor of
    the last element. *)
Lemma last_cursor s xss a nd (ys : list T) (v : T) :
  wf NodeMaxSize s xss ->
  tail s = Some a ->
  cell (heap s) a = Some nd ->
  node_holds NodeMaxSize nd (ys ++ [v]) ->
  exists l, concat xss = l ++ [v] /\
    std_next (length l) (mk_iterator (head s) 0) s =
    Some (mk_iterator (Some a) (Z.of_nat (length ys)), s).
Proof.
  intros (ps & Hnd & Hc & Hhd & Htl & Hsz & Hb) Ht Ha Hh.
  pose proof (chain_length _ _ _ _ _ _ Hc) as Hlen.
  rewrite Ht in Htl. symmetry in Htl. apply last_Some in Htl as [ps0 ->].
  destruct xss as [|zs xss0 _] using rev_ind;
    [rewrite length_app in Hlen; cbn in Hlen; lia|].
  rewrite !length_app in Hlen. cbn [length] in Hlen.
  assert (length ps0 = length xss0) as Hlen0 by lia.
  pose proof Hc as Hc'.
  apply (chain_app NodeMaxSize _ ps0 None [a] None xss0 [zs] Hlen0) in Hc' as [_ Hca].
  apply chain_single_inv in Hca as (nd' & Ha' & _ & _ & Hh' & _).
  rewrite Ha in Ha'. injection Ha' as <-.
  pose proof (node_holds_inj NodeMaxSize nd _ _ Hh' Hh) as ->.
  exists (concat xss0 ++ ys). split.
  { rewrite concat_app. cbn [concat]. now rewrite app_nil_r, app_assoc. }
  rewrite Hhd, length_app.
  apply (chain_std_next NodeMaxSize s ps0 xss0 None a [] (ys ++ [v]) [] (length ys));
    [exact Hc|exact Hlen0|lia|rewrite length_app; cbn; lia].
Qed.

Lemma emplace_wf s xss (i : nat) it (v : T) :
  2 <= NodeMaxSize ->
  wf NodeMaxSize s xss ->
  size_ s + 1 < 2 ^ SIZE_WIDTH ->
  (i <= length (concat xss))%nat ->
  std_next i (mk_iterator (head s) 0) s = Some (it, s) ->
  exists s1 it1 xss1,
    emplace NodeMaxSize it v s = Some (it1, s1) /\
    wf NodeMaxSize s1 xss1 /\
    concat xss1 = take i (concat xss) ++ v :: drop i (concat xss) /\
    std_next i (mk_iterator (head s1) 0) s1 = Some (it1, s1).
Proof.
  intros HC Hwf Hb1 Hi Hit.
  destruct (decide (i = length (concat xss))) as [->|Hne].
  - (* at the end cursor *)
    pose proof (walks_reach_end _ _ _ (wf_walks _ _ _ Hwf)) as He.
    rewrite He in Hit. injection Hit as <-.
    destruct (push_back_wf NodeMaxSize s xss v ltac:(lia) Hwf Hb1)
      as (s1 & xss1 & a & nd & ys & Hpb & Hwf1 & Hcat & Htl & Ha & Hnx & Hh & Hlen).
    pose proof Hh as (Hsz & _ & _).
    rewrite length_app in Hsz. cbn [length] in Hsz.
    exists s1, (mk_iterator (Some a) (Z.of_nat (length ys))), xss1.
    split.
    { unfold emplace. cbn [iterator_eqb end_ current_node current_pos ptr_eqb andb Z.eqb].
      unfold push_back in Hpb.
      erewrite bind_Some by exact Hpb.
      destruct s1 as [hd1 tl1 n1 h1]. cbn [tail heap] in *.
      msimpl. subst tl1.
      erewrite bind_Some by (eapply load_Some; exact Ha).
      unfold ret. rewrite Hsz, wrap_small by lia.
      do 3 f_equal. lia. }
    split; [exact Hwf1|].
    split; [rewrite take_ge, drop_ge by lia; exact Hcat|].
    destruct (last_cursor s1 xss1 a nd ys v Hwf1 Htl Ha Hh) as (l & Hl & Hn).
    rewrite Hcat in Hl. apply app_inj_tail in Hl as [-> _]. exact Hn.
  - (* at an element *)
    destruct (concat_split_at xss i ltac:(lia)) as (xss1 & xs & xss2 & k & -> & Hk & ->).
    destruct Hwf as (ps & Hnd & Hc & Hhd & Htl & Hsz & Hb).
    destruct s as [hd tl n h]. cbn [head tail size_ heap] in *.
    destruct (split_like ps xss1 xs xss2 (chain_length _ _ _ _ _ _ Hc))
      as (ps1 & a & ps2 & -> & Hl1 & Hl2).
    pose proof (chain_std_next NodeMaxSize (mk_list hd tl n h) ps1 xss1 None a ps2 xs xss2 k
                  Hc Hl1 ltac:(lia) Hk) as Hn.
    rewrite <- Hhd in Hn. cbn [heap] in Hn. rewrite Hn in Hit. injection Hit as <-.
    pose proof Hc as Hc0.
    apply (chain_app NodeMaxSize h ps1 None (a :: ps2) None xss1 (xs :: xss2) Hl1)
      in Hc as [Hc1 Hc2].
    apply chain_cons_inv in Hc2 as (nd & Ha & Hpv & Hnx & Hh & Hxs & Hc2).
    pose proof Hnd as Hnd0.
    apply NoDup_app in Hnd as (Hnd1 & Hdis & Hnd2).
    apply NoDup_cons in Hnd2 as [Hnot2 Hnd2].
    assert (a ∉ ps1) as Hnot1.
    { intros Hin. apply (Hdis a Hin). apply list_elem_of_here. }
    pose proof (cell_lt _ _ _ Ha) as Hlta.
    pose proof Hh as (Hs & Hln & _).
    pose proof (node_holds_length _ _ _ Hh) as Hle.
    rewrite concat_app in Hsz, Hi, Hne |- *. cbn [concat] in Hsz, Hi, Hne |- *.
    rewrite !length_app in Hsz.
    rewrite concat_insert_at by lia.
    assert (hd <> None) as Hhd0 by (rewrite Hhd; now destruct ps1).
    destruct (Z.eqb_spec (Node.size nd) NodeMaxSize) as [Efull|Efull].
    + (* the node is full *)
      destruct (create_node_link NodeMaxSize hd tl n h a nd Ha Hhd0)
        as (h1 & Hcr & Hlh1 & Hb1' & Ha1 & Hq1 & Hfr).
      { intros q Hq. rewrite Hnx in Hq.
        destruct ps2 as [|q' ps2]; [discriminate|]. injection Hq as <-.
        split; [intros ->; apply Hnot2, list_elem_of_here|].
        eapply chain_cell; [exact Hc2|apply list_elem_of_here]. }
      destruct (emplace_split_cells NodeMaxSize hd tl n h a nd xs k v _ _ h1
                  ltac:(lia) Ha Hh ltac:(lia) Hk Hcr Hlh1 Hb1' Ha1 ltac:(lia) Hb1)
        as (A & B & ls & hs & it1 & Hem & HpA & HnA & HpB & HnB & HhA & HhB & HneA & HneB
            & Hcat & Hcur & _).
      set (b := length h) in *.
      assert (forall c, c ∈ ps1 ++ a :: ps2 -> (c < b)%nat) as Hlt
        by (intros c Hin; eapply chain_lt; [exact Hc0|exact Hin]).
      assert (a <> b) as Hab by lia.
      set (hF := <[a := Some A]> (<[b := Some B]> h1)) in *.
      assert (cell hF a = Some A) as HFa
        by (apply cell_insert_eq; rewrite length_insert; lia).
      assert (cell hF b = Some B) as HFb
        by (unfold hF; rewrite cell_insert_ne by congruence; apply cell_insert_eq; lia).
      assert (forall c, c <> a -> c <> b -> cell hF c = cell h1 c) as HFo
        by (intros c ? ?; unfold hF; now rewrite !cell_insert_ne by congruence).
      assert (chain NodeMaxSize hF (Some b) ps2 None xss2) as HcF2.
      { destruct ps2 as [|q ps2]; [destruct xss2; [exact I|discriminate]|].
        destruct (chain_cell NodeMaxSize h (q :: ps2) _ _ _ q Hc2
                    ltac:(apply list_elem_of_here)) as [qn Hqn].
        apply NoDup_cons in Hnd2 as [Hqnot _].
        assert (q <> a) by (intros ->; apply Hnot2, list_elem_of_here).
        assert (q < b)%nat
          by (apply Hlt, elem_of_app; right; apply list_elem_of_further, list_elem_of_here).
        eapply chain_head_prev; [exact Hc2|exact Hqn| |].
        - rewrite HFo by lia. now apply Hq1.
        - intros c Hin.
          assert (c < b)%nat
            by (apply Hlt, elem_of_app; right; now do 2 apply list_elem_of_further).
          rewrite HFo; [|intros ->; apply Hnot2; now apply list_elem_of_further|lia].
          apply Hfr; [intros ->; apply Hnot2; now apply list_elem_of_further|lia|].
          rewrite Hnx. intros [= ->]. contradiction. }
      assert (chain NodeMaxSize hF None (ps1 ++ a :: b :: ps2) None
                (xss1 ++ ls :: hs :: xss2)) as HcF.
      { apply chain_app; [exact Hl1|]. split.
        - eapply chain_agree; [exact Hc1|]. intros c Hin.
          assert (c < b)%nat by (apply Hlt, elem_of_app; now left).
          rewrite HFo; [|intros ->; contradiction|lia].
          apply Hfr; [intros ->; contradiction|lia|].
          rewrite Hnx. destruct ps2 as [|q ps2]; [congruence|].
          intros [= ->]. apply (Hdis c Hin). apply list_elem_of_further, list_elem_of_here.
        - eapply chain_cons; [exact HFa|congruence|exact HnA|exact HhA|exact HneA|].
          eapply chain_cons; [exact HFb|exact HpB|congruence|exact HhB|exact HneB|exact HcF2]. }
      assert (length (ls ++ hs) = S (length xs)) as Hlcat.
      { rewrite Hcat, length_app, length_take. cbn [length]. rewrite length_drop. lia. }
      rewrite length_app in Hlcat.
      eexists _, it1, (xss1 ++ ls :: hs :: xss2). split; [exact Hem|].
      split.
      { exists (ps1 ++ a :: b :: ps2). cbn [head tail size_ heap].
        split.
        { apply NoDup_app. split; [exact Hnd1|]. split.
          - intros c Hin Hin2. apply elem_of_cons in Hin2 as [->|Hin2]; [contradiction|].
            apply elem_of_cons in Hin2 as [->|Hin2].
            + assert (b < b)%nat by (apply Hlt, elem_of_app; now left). lia.
            + apply (Hdis c Hin). now apply list_elem_of_further.
          - apply NoDup_cons. split.
            + intros Hin. apply elem_of_cons in Hin as [?|Hin]; [congruence|contradiction].
            + apply NoDup_cons. split; [|exact Hnd2].
              intros Hin.
              assert (b < b)%nat
                by (apply Hlt, elem_of_app; right; now apply list_elem_of_further).
              lia. }
        split; [exact HcF|].
        split; [rewrite Hhd; now destruct ps1|].
        split.
        { rewrite Hnx, Htl. destruct ps2 as [|q ps2].
          - rewrite is_null_None. rewrite !last_app. reflexivity.
          - rewrite is_null_Some. rewrite !last_app.
            change (a :: b :: q :: ps2) with ([a; b] ++ q :: ps2).
            change (a :: q :: ps2) with ([a] ++ q :: ps2).
            rewrite !last_app.
            destruct (last (q :: ps2)) eqn:El; [reflexivity|].
            apply last_None in El. discriminate. }
        rewrite concat_app. cbn [concat]. rewrite !length_app. lia. }
      split.
      { rewrite concat_app. cbn [concat]. rewrite <- Hcat, <- !app_assoc. reflexivity. }
      cbn [head]. rewrite Hhd.
      replace ((ps1 ++ a :: ps2) !! 0%nat) with ((ps1 ++ a :: b :: ps2) !! 0%nat)
        by now destruct ps1.
      destruct Hcur as [(Hkl & ->)|(Hkl & Hkh & ->)].
      * apply (chain_std_next NodeMaxSize _ ps1 xss1 None a (b :: ps2) ls (hs :: xss2) k);
          [exact HcF|exact Hl1| |exact Hkl].
        rewrite concat_app. cbn [concat]. rewrite !length_app. lia.
      * replace (length (concat xss1) + k)%nat
          with (length (concat (xss1 ++ [ls])) + (k - length ls))%nat
          by (rewrite concat_app; cbn [concat]; rewrite app_nil_r, length_app; lia).
        replace (ps1 ++ a :: b :: ps2) with ((ps1 ++ [a]) ++ b :: ps2) in HcF |- *
          by now rewrite <- app_assoc.
        replace (xss1 ++ ls :: hs :: xss2) with ((xss1 ++ [ls]) ++ hs :: xss2) in HcF
          by now rewrite <- app_assoc.
        apply (chain_std_next NodeMaxSize _ (ps1 ++ [a]) (xss1 ++ [ls]) None b ps2 hs xss2);
          [exact HcF|rewrite !length_app; cbn; lia| |exact Hkh].
        rewrite !concat_app. cbn [concat]. rewrite !length_app. cbn [length]. lia.
    + (* the node has a free slot *)
      assert (length xs < length (Node.data nd))%nat as Hlt by lia.
      destruct (drop (length xs) (Node.data nd)) as [|z post] eqn:Edrop.
      { apply (f_equal length) in Edrop. rewrite length_drop in Edrop. cbn in Edrop. lia. }
      pose proof (node_holds_data NodeMaxSize nd xs Hh) as Hdata. rewrite Edrop in Hdata.
      pose proof (node_insert_spec nd xs z post (Z.of_nat k) v Hs Hdata
                    ltac:(lia) ltac:(lia)) as He.
      rewrite Nat2Z.id in He.
      unfold emplace. cbn [iterator_eqb current_node current_pos end_ ptr_eqb andb].
      erewrite bind_Some by (eapply load_Some; exact Ha).
      unfold Node.is_full.
      destruct (Z.eqb_spec (Node.size nd) NodeMaxSize) as [?|_]; [contradiction|].
      cbn [negb].
      erewrite bind_Some by (eapply call_Some; [exact Ha | exact He]).
      msimpl. unfold ret.
      set (nd1 := Node.mk (Z.of_nat (length xs) + 1) (Node.next nd) (Node.prev nd)
                    ((obj <$> take k xs ++ v :: drop k xs) ++ post)).
      assert (length (take k xs ++ v :: drop k xs) = S (length xs)) as Hlx.
      { rewrite length_app, length_take. cbn [length]. rewrite length_drop. lia. }
      assert (node_holds NodeMaxSize nd1 (take k xs ++ v :: drop k xs)) as Hh1.
      { eapply node_holds_intro; [|reflexivity|].
        - cbn [nd1 Node.size]. rewrite Hlx. lia.
        - apply (f_equal length) in Edrop. rewrite length_drop in Edrop.
          cbn [length] in Edrop. rewrite Hlx. lia. }
      assert (chain NodeMaxSize (<[a := Some nd1]> h) None (ps1 ++ a :: ps2) None
                (xss1 ++ (take k xs ++ v :: drop k xs) :: xss2)) as HcF.
      { eapply chain_update_node; [exact Hc0|exact Hl1|exact Hnd0|exact Ha
                                  |reflexivity|reflexivity|exact Hh1|].
        intros E. apply (f_equal length) in E. rewrite Hlx in E. discriminate. }
      eexists _, _, (xss1 ++ (take k xs ++ v :: drop k xs) :: xss2).
      split; [reflexivity|].
      split.
      { exists (ps1 ++ a :: ps2). cbn [head tail size_ heap].
        split; [exact Hnd0|]. split; [exact HcF|].
        split; [exact Hhd|]. split; [exact Htl|].
        rewrite wrap_small by lia.
        rewrite concat_app. cbn [concat]. rewrite !length_app. rewrite length_app in Hlx. lia. }
      split; [rewrite concat_app; reflexivity|].
      cbn [head]. rewrite Hhd.
      apply (chain_std_next NodeMaxSize _ ps1 xss1 None a ps2
               (take k xs ++ v :: drop k xs) xss2 k);
        [exact HcF|exact Hl1| |rewrite Hlx; lia].
      rewrite concat_app. cbn [concat]. rewrite !length_app. rewrite length_app in Hlx. lia.
Qed.
End InsertAt.

(** ** Insertion of a range *)

Section InsertRange.
Context {T : Type}.
Variable NodeMaxSize : size_t.
Implicit Types (h : list (option (Node.t T))) (nd : Node.t T) (a b : ptr)
         (s : unrolled_list T) (ps qs : list ptr) (xss yss : list (list T)).

(** Every index up to [size()] has its cursor. *)
Lemma std_next_wf s xss (i : nat) :
  wf NodeMaxSize s xss ->
  (i <= length (concat xss))%nat ->
  exists it, std_next i (mk_iterator (head s) 0) s = Some (it, s).
Proof.
  intros Hwf Hi.
  destruct (decide (i = length (concat xss))) as [->|Hne].
  - exists end_. apply walks_reach_end. exact (wf_walks _ _ _ Hwf).
  - destruct (concat_split_at xss i ltac:(lia)) as (xss1 & xs & xss2 & k & -> & Hk & ->).
    destruct Hwf as (ps & Hnd & Hc & Hhd & Htl & Hsz & Hb).
    destruct (split_like ps xss1 xs xss2 (chain_length _ _ _ _ _ _ Hc))
      as (ps1 & a & ps2 & -> & Hl1 & Hl2).
    eexists. rewrite Hhd.
    apply (chain_std_next NodeMaxSize s ps1 xss1 None a ps2 xs xss2 k Hc Hl1 ltac:(lia) Hk).
Qed.

Lemma begin_std_next s (i : nat) :
  (let* b := begin in std_next i b) s = std_next i (mk_iterator (head s) 0) s.
Proof. reflexivity. Qed.

Lemma std_next_succ s (i : nat) it0 it :
  std_next i it0 s = Some (it, s) ->
  std_next (S i) it0 s = incr it s.
Proof.
  intros Hn. replace (S i) with (i + 1)%nat by lia.
  rewrite (std_next_add s i 1 it0 it Hn). cbn [std_next].
  unfold bind. now destruct (incr it s) as [[? ?]|].
Qed.

Lemma insert_range_wf (xs : list T) : forall s xss (i : nat) it,
  2 <= NodeMaxSize ->
  wf NodeMaxSize s xss ->
  size_ s + Z.of_nat (length xs) < 2 ^ SIZE_WIDTH ->
  (i <= length (concat xss))%nat ->
  std_next i (mk_iterator (head s) 0) s = Some (it, s) ->
  exists s1 xss1,
    insert_range NodeMaxSize it xs s = Some (tt, s1) /\
    wf NodeMaxSize s1 xss1 /\
    concat xss1 = take i (concat xss) ++ xs ++ drop i (concat xss).
Proof.
  induction xs as [|x xs IH]; intros s xss i it HC Hwf Hb Hi Hit.
  - exists s, xss. cbn [app]. rewrite take_drop. now repeat split.
  - cbn [length] in Hb.
    destruct (emplace_wf NodeMaxSize s xss i it x HC Hwf ltac:(lia) Hi Hit)
      as (s1 & it1 & xss1 & He & Hwf1 & Hcat1 & Hit1).
    assert (length (concat xss1) = S (length (concat xss))) as Hl1.
    { rewrite Hcat1, length_app, length_take. cbn [length]. rewrite length_drop. lia. }
    destruct (std_next_wf s1 xss1 (S i) Hwf1 ltac:(lia)) as [it2 Hit2].
    pose proof Hit2 as Hinc. rewrite (std_next_succ s1 i _ it1 Hit1) in Hinc.
    assert (size_ s1 = size_ s + 1) as Hs1.
    { destruct (wf_size _ _ _ Hwf) as [E _], (wf_size _ _ _ Hwf1) as [E1 _]. lia. }
    destruct (IH s1 xss1 (S i) it2 HC Hwf1 ltac:(lia) ltac:(lia) Hit2)
      as (s2 & xss2 & Hr & Hwf2 & Hcat2).
    exists s2, xss2. cbn [insert_range]. unfold insert.
    erewrite bind_Some by exact He.
    erewrite bind_Some by exact Hinc.
    split; [exact Hr|]. split; [exact Hwf2|].
    rewrite Hcat2, Hcat1.
    replace (S i) with (length (take i (concat xss)) + 1)%nat
      by (rewrite length_take; lia).
    rewrite take_app_add, drop_app_add. cbn [take drop app].
    rewrite <- app_assoc. reflexivity.
Qed.

(** X17. In a container of capacity 2 or more that satisfies the
    invariant, [insert] (and [emplace]) at the cursor reached from
    [begin()] by [i] steps, for [i] up to [size()], keeps the invariant and
    puts the value at index [i]; the cursor returned is the one reached
    from [begin()] by [i] steps in the new container, and it dereferences
    to the value. A full node is split on the way. *)
Theorem insert_at_cursor s xss (i : nat) it (v : T) (fuel : nat) :
  2 <= NodeMaxSize ->
  wf NodeMaxSize s xss ->
  size_ s + 1 < 2 ^ SIZE_WIDTH ->
  (i <= length (concat xss))%nat ->
  (let* b := begin in std_next i b) s = Some (it, s) ->
  (length (concat xss) < fuel)%nat ->
  exists s1 it1 xss1,
    insert NodeMaxSize it v s = Some (it1, s1) /\
    wf NodeMaxSize s1 xss1 /\
    eval (to_list fuel) s1 = Some (take i (concat xss) ++ v :: drop i (concat xss)) /\
    eval size s1 = Some (size_ s + 1) /\
    (let* b := begin in std_next i b) s1 = Some (it1, s1) /\
    deref it1 s1 = Some (v, s1).
Proof.
  intros HC Hwf Hb Hi Hit Hf.
  rewrite begin_std_next in Hit.
  destruct (emplace_wf NodeMaxSize s xss i it v HC Hwf Hb Hi Hit)
    as (s1 & it1 & xss1 & He & Hwf1 & Hcat1 & Hit1).
  assert (length (concat xss1) = S (length (concat xss))) as Hl1.
  { rewrite Hcat1, length_app, length_take. cbn [length]. rewrite length_drop. lia. }
  exists s1, it1, xss1. split; [exact He|]. split; [exact Hwf1|].
  split; [eapply wf_to_list; [exact Hwf1|exact Hcat1|rewrite <- Hcat1; lia]|].
  split.
  { destruct (wf_size _ _ _ Hwf) as [E _], (wf_size _ _ _ Hwf1) as [E1 _].
    unfold eval, size, get_size. cbn. f_equal. lia. }
  split; [rewrite begin_std_next; exact Hit1|].
  destruct (walks_nth s1 _ _ (wf_walks _ _ _ Hwf1) i v) as (it' & Hn & Hd).
  { rewrite Hcat1. rewrite lookup_app_r by (rewrite length_take; lia).
    rewrite length_take. now replace (i - i `min` length (concat xss))%nat with 0%nat by lia. }
  rewrite Hit1 in Hn. injection Hn as <-. exact Hd.
Qed.

(** X18. In a container of capacity 2 or more that satisfies the
    invariant, [insert_range] at the cursor of index [i] inserts the
    elements of the range, in order, before the element of index [i]. *)
Theorem insert_range_at_cursor s xss (i : nat) it (xs : list T) (fuel : nat) :
  2 <= NodeMaxSize ->
  wf NodeMaxSize s xss ->
  size_ s + Z.of_nat (length xs) < 2 ^ SIZE_WIDTH ->
  (i <= length (concat xss))%nat ->
  (let* b := begin in std_next i b) s = Some (it, s) ->
  (length (concat xss) + length xs <= fuel)%nat ->
  exists s1 xss1,
    insert_range NodeMaxSize it xs s = Some (tt, s1) /\
    wf NodeMaxSize s1 xss1 /\
    eval (to_list fuel) s1 = Some (take i (concat xss) ++ xs ++ drop i (concat xss)) /\
    eval size s1 = Some (size_ s + Z.of_nat (length xs)).
Proof.
  intros HC Hwf Hb Hi Hit Hf.
  rewrite begin_std_next in Hit.
  destruct (insert_range_wf xs s xss i it HC Hwf Hb Hi Hit) as (s1 & xss1 & Hr & Hwf1 & Hcat1).
  assert (length (concat xss1) = (length (concat xss) + length xs)%nat) as Hl1.
  { rewrite Hcat1, !length_app, length_take, length_drop. lia. }
  exists s1, xss1. split; [exact Hr|]. split; [exact Hwf1|].
  split; [eapply wf_to_list; [exact Hwf1|exact Hcat1|rewrite <- Hcat1; lia]|].
  destruct (wf_size _ _ _ Hwf) as [E _], (wf_size _ _ _ Hwf1) as [E1 _].
  unfold eval, size, get_size. cbn. f_equal. lia.
Qed.

(** X19. In a container of capacity 2 or more that satisfies the
    invariant, [prepend_range] puts the elements of the range, in order,
    before the elements of the container. *)
Theorem prepend_range_prepends s xss (xs : list T) (fuel : nat) :
  2 <= NodeMaxSize ->
  wf NodeMaxSize s xss ->
  size_ s + Z.of_nat (length xs) < 2 ^ SIZE_WIDTH ->
  (length (concat xss) + length xs <= fuel)%nat ->
  exists s1 xss1,
    prepend_range NodeMaxSize xs s = Some (tt, s1) /\
    wf NodeMaxSize s1 xss1 /\
    eval (to_list fuel) s1 = Some (xs ++ concat xss) /\
    eval size s1 = Some (size_ s + Z.of_nat (length xs)).
Proof.
  intros HC Hwf Hb Hf.
  destruct (insert_range_wf xs s xss 0 (mk_iterator (head s) 0) HC Hwf Hb ltac:(lia) eq_refl)
    as (s1 & xss1 & Hr & Hwf1 & Hcat1).
  rewrite take_0, drop_0 in Hcat1. cbn [app] in Hcat1.
  assert (length (concat xss1) = (length (concat xss) + length xs)%nat) as Hl1.
  { rewrite Hcat1, !length_app. lia. }
  exists s1, xss1. split.
  { unfold prepend_range, begin. rewrite bind_bind, bind_get_head, bind_ret. exact Hr. }
  split; [exact Hwf1|].
  split; [eapply wf_to_list; [exact Hwf1|exact Hcat1|rewrite <- Hcat1; lia]|].
  destruct (wf_size _ _ _ Hwf) as [E _], (wf_size _ _ _ Hwf1) as [E1 _].
  unfold eval, size, get_size. cbn. f_equal. lia.
Qed.
End InsertRange.

(** ** [clear]: the nodes freed *)

Section ClearFrees.
Context {T : Type}.
Variable NodeMaxSize : size_t.
Implicit Types (h : list (option (Node.t T))) (nd : Node.t T) (a b : ptr)
         (s : unrolled_list T) (ps qs : list ptr) (xss yss : list (list T)).

(** A cursor reached from [begin()] that points to a node points to a node
    of the chain. *)
Lemma cursor_in_chain s xss ps (i : nat) it a :
  wf NodeMaxSize s xss ->
  chain NodeMaxSize (heap s) None ps None xss ->
  head s = ps !! 0%nat ->
  std_next i (mk_iterator (head s) 0) s = Some (it, s) ->
  current_node it = Some a ->
  a ∈ ps.
Proof.
  intros Hwf Hc Hhd Hit Ha.
  destruct (wf_size _ _ _ Hwf) as [Hsz Hb].
  destruct (decide (i < length (concat xss))%nat) as [Hlt|Hge].
  - destruct (concat_split_at xss i Hlt) as (xss1 & xs & xss2 & k & -> & Hk & ->).
    destruct (split_like ps xss1 xs xss2 (chain_length _ _ _ _ _ _ Hc))
      as (ps1 & a' & ps2 & -> & Hl1 & Hl2).
    pose proof (chain_std_next NodeMaxSize s ps1 xss1 None a' ps2 xs xss2 k
                  Hc Hl1 ltac:(lia) Hk) as Hn.
    rewrite <- Hhd in Hn. rewrite Hn in Hit. injection Hit as <-.
    cbn in Ha. injection Ha as <-.
    apply elem_of_app. right. apply list_elem_of_here.
  - exfalso.
    replace i with (length (concat xss) + (i - length (concat xss)))%nat in Hit by lia.
    rewrite (std_next_add s _ _ _ end_ (walks_reach_end _ _ _ (wf_walks _ _ _ Hwf))) in Hit.
    destruct (i - length (concat xss))%nat as [|j].
    + injection Hit as <-. discriminate Ha.
    + discriminate Hit.
Qed.

Lemma cursor_at_index s xss (i : nat) :
  wf NodeMaxSize s xss ->
  (i < length (concat xss))%nat ->
  exists a k, std_next i (mk_iterator (head s) 0) s = Some (mk_iterator (Some a) k, s).
Proof.
  intros Hwf Hlt. pose proof Hwf as (ps & Hnd & Hc & Hhd & Htl & Hsz & Hb).
  destruct (concat_split_at xss i Hlt) as (xss1 & xs & xss2 & k & -> & Hk & ->).
  destruct (split_like ps xss1 xs xss2 (chain_length _ _ _ _ _ _ Hc))
    as (ps1 & a' & ps2 & -> & Hl1 & Hl2).
  pose proof (chain_std_next NodeMaxSize s ps1 xss1 None a' ps2 xs xss2 k
                Hc Hl1 ltac:(lia) Hk) as Hn.
  rewrite <- Hhd in Hn. eauto.
Qed.

Lemma clear_frees s xss (fuel : nat) :
  wf NodeMaxSize s xss ->
  (length xss <= fuel)%nat ->
  exists h1,
    clear fuel s = Some (tt, mk_list None None 0 h1) /\
    (forall c nd, cell h1 c = Some nd -> cell (heap s) c = Some nd) /\
    (forall (i : nat) it a,
       std_next i (mk_iterator (head s) 0) s = Some (it, s) ->
       current_node it = Some a ->
       is_Some (cell (heap s) a) /\ cell h1 a = None).
Proof.
  intros Hwf Hf. pose proof Hwf as (ps & Hnd & Hc & Hhd & Htl & Hsz & Hb).
  pose proof (chain_length _ _ _ _ _ _ Hc) as Hlen.
  destruct (clear_loop_chain NodeMaxSize ps xss (tail s) (size_ s) (heap s) fuel Hnd Hc
              ltac:(lia)) as (tl1 & h1 & Hcl & Hl1 & Hin & Hout).
  exists h1. split; [|split].
  - unfold clear. destruct s as [hd tl n h]. cbn [head tail size_ heap] in *. subst hd.
    erewrite bind_Some by exact Hcl. reflexivity.
  - intros c nd Hcn. destruct (decide (c ∈ ps)) as [Hi|Hn].
    + rewrite Hin in Hcn by exact Hi. discriminate.
    + now rewrite <- Hout.
  - intros i it a Hit Ha.
    pose proof (cursor_in_chain s xss ps i it a Hwf Hc Hhd Hit Ha) as Hi.
    split; [eapply chain_cell; eassumption | now apply Hin].
Qed.

(** X13. [clear] on a container that satisfies the invariant destroys
    the nodes of its chain and leaves the empty container: every node that
    a cursor reached from [begin()] points to was allocated and is freed,
    and the cursor of every element is such a cursor; [head] and [tail] are
    null, [size()] is 0, the invariant holds, and no node is allocated or
    left changed outside the chain. *)
Theorem clear_empties s xss (fuel : nat) :
  wf NodeMaxSize s xss ->
  (length xss <= fuel)%nat ->
  exists s1,
    clear fuel s = Some (tt, s1) /\
    head s1 = None /\ tail s1 = None /\ size_ s1 = 0 /\
    wf NodeMaxSize s1 [] /\
    eval (to_list fuel) s1 = Some [] /\
    (forall c nd, cell (heap s1) c = Some nd -> cell (heap s) c = Some nd) /\
    (forall (i : nat) it a,
       (let* b := begin in std_next i b) s = Some (it, s) ->
       current_node it = Some a ->
       is_Some (cell (heap s) a) /\ cell (heap s1) a = None) /\
    (forall i : nat, (i < length (concat xss))%nat ->
       exists a k,
         (let* b := begin in std_next i b) s = Some (mk_iterator (Some a) k, s) /\
         is_Some (cell (heap s) a) /\ cell (heap s1) a = None).
Proof.
  intros Hwf Hf.
  destruct (clear_frees s xss fuel Hwf Hf) as (h1 & Hc & Hfr & Hfreed).
  exists (mk_list None None 0 h1). split; [exact Hc|].
  repeat (split; [reflexivity|]).
  split; [apply wf_cleared|]. split; [now destruct fuel|].
  split; [exact Hfr|].
  split.
  - intros i it a Hit Ha. rewrite begin_std_next in Hit. now apply (Hfreed i it a).
  - intros i Hi. destruct (cursor_at_index s xss i Hwf Hi) as (a & k & Hn).
    exists a, k. rewrite begin_std_next. split; [exact Hn|].
    now apply (Hfreed i (mk_iterator (Some a) k) a).
Qed.
End ClearFrees.

(** ** Erasure at any cursor *)

Section EraseAt.
Context {T : Type}.
Variable NodeMaxSize : size_t.
Implicit Types (h : list (option (Node.t T))) (nd : Node.t T) (a b : ptr)
         (s : unrolled_list T) (ps qs : list ptr) (xss yss : list (list T)).

Lemma erase_wf s xss1 (xs : list T) xss2 (k : nat) it :
  wf NodeMaxSize s (xss1 ++ xs :: xss2) ->
  (k < length xs)%nat ->
  xss1 <> [] \/ (2 <= length xs)%nat ->
  std_next (length (concat xss1) + k) (mk_iterator (head s) 0) s = Some (it, s) ->
  exists s1 it1 xss,
    erase it s = Some (it1, s1) /\
    wf NodeMaxSize s1 xss /\
    concat xss = concat xss1 ++ (take k xs ++ drop (S k) xs) ++ concat xss2 /\
    ((S k < length xs)%nat \/ length xs = 1%nat ->
     std_next (length (concat xss1) + k) (mk_iterator (head s1) 0) s1 = Some (it1, s1)) /\
    ((S k = length xs)%nat -> (2 <= length xs)%nat ->
     it1 = mk_iterator (current_node it) 0) /\
    (length xs = 1%nat ->
     exists a, current_node it = Some a /\ is_Some (cell (heap s) a) /\
               cell (heap s1) a = None).
Proof.
  intros (ps & Hnd & Hc & Hhd & Htl & Hsz & Hb) Hk Hcase Hit.
  destruct s as [hd tl n h]. cbn [head tail size_ heap] in *.
  destruct (split_like ps xss1 xs xss2 (chain_length _ _ _ _ _ _ Hc))
    as (ps1 & a & ps2 & -> & Hl1 & Hl2).
  pose proof (chain_std_next NodeMaxSize (mk_list hd tl n h) ps1 xss1 None a ps2 xs xss2 k
                Hc Hl1 ltac:(lia) Hk) as Hn.
  rewrite <- Hhd in Hn. cbn [heap] in Hn. rewrite Hn in Hit. injection Hit as <-.
  pose proof Hc as Hc0.
  apply (chain_app NodeMaxSize h ps1 None (a :: ps2) None xss1 (xs :: xss2) Hl1)
    in Hc as [Hc1 Hc2].
  apply chain_cons_inv in Hc2 as (nd & Ha & Hpv & Hnx & Hh & Hxs & Hc2).
  pose proof Hnd as Hnd0.
  apply NoDup_app in Hnd as (Hnd1 & Hdis & Hnd2).
  apply NoDup_cons in Hnd2 as [Hnot2 Hnd2].
  assert (a ∉ ps1) as Hnot1.
  { intros Hin. apply (Hdis a Hin). apply list_elem_of_here. }
  pose proof (cell_lt _ _ _ Ha) as Hlta.
  pose proof Hh as (Hs & Hln & _).
  pose proof (node_holds_data NodeMaxSize _ _ Hh) as Hdata.
  set (post := drop (length xs) (Node.data nd)) in *.
  assert (Z.of_nat (length xs + length post) = NodeMaxSize) as Hlp.
  { rewrite <- Hln, Hdata at 1. rewrite length_app, length_fmap. reflexivity. }
  rewrite concat_app in Hsz. cbn [concat] in Hsz. rewrite !length_app in Hsz.
  pose proof (node_erase_spec nd xs post (Z.of_nat k) Hs Hdata ltac:(lia) ltac:(lia)) as He.
  rewrite Nat2Z.id in He.
  set (ys := take k xs ++ drop (S k) xs) in *.
  assert (S (length ys) = length xs) as Hly.
  { unfold ys. rewrite length_app, length_take, length_drop. lia. }
  set (nd1 := Node.mk (Z.of_nat (length xs) - 1) (Node.next nd) (Node.prev nd)
                ((obj <$> ys) ++ raw :: post)) in *.
  assert (cell (<[a := Some nd1]> h) a = Some nd1) as Ha1
    by (apply cell_insert_eq; exact Hlta).
  unfold erase. cbn [current_node current_pos].
  erewrite bind_Some by (eapply call_Some; [exact Ha | exact He]).
  msimpl.
  erewrite bind_Some by (eapply load_Some; exact Ha1).
  rewrite bind_get_head. cbn [head nd1 Node.size Node.next].
  rewrite (wrap_small (n - 1)) by lia.
  destruct (decide (length xs = 1%nat)) as [E1|E1].
  - (* the node is drained: it is not the head and is destroyed *)
    destruct Hcase as [Hcase|?]; [|lia].
    assert (k = 0%nat) as -> by lia.
    assert (ys = []) as Eys by (destruct ys; [reflexivity|cbn in Hly; lia]).
    destruct ps1 as [|p ps10 _] using rev_ind; [destruct xss1; [congruence|discriminate]|].
    rewrite last_snoc in Hpv.
    assert (p <> a) as Hpa.
    { intros ->. apply Hnot1. apply elem_of_app. right. apply list_elem_of_here. }
    destruct (chain_cell NodeMaxSize h (ps10 ++ [p]) _ _ _ p Hc1
                ltac:(apply elem_of_app; right; apply list_elem_of_here)) as [pn Hp0].
    assert (hd <> Some a) as Hhda.
    { rewrite Hhd. rewrite <- app_assoc. intros E.
      apply Hnot1. destruct ps10 as [|p0 ps10]; cbn in E; injection E as ->;
        apply elem_of_app; left + right; apply list_elem_of_here. }
    rewrite E1. change (Z.of_nat 1 - 1 =? 0) with true.
    replace (ptr_eqb (Some a) hd) with false
      by (symmetry; apply ptr_eqb_neq; congruence).
    cbn [negb andb].
    assert (p ∉ ps2) as Hp2.
    { intros Hin. apply (Hdis p); [apply elem_of_app; right; apply list_elem_of_here|].
      now apply list_elem_of_further. }
    destruct (destroy_node_frame hd tl (n - 1) (<[a := Some nd1]> h) a nd1 Ha1)
      as (h1 & Hdn & Hlh1 & Hca & Hprev & Hnext & Hfr).
    { intros p' Hp'. cbn [nd1 Node.prev] in Hp'. rewrite Hpv in Hp'. injection Hp' as <-.
      split; [exact Hpa|]. rewrite cell_insert_ne by congruence. eauto. }
    { intros q Hq. cbn [nd1 Node.next] in Hq. rewrite Hnx in Hq.
      destruct ps2 as [|q' ps2]; [discriminate|]. injection Hq as <-.
      split; [intros ->; apply Hnot2, list_elem_of_here|].
      rewrite cell_insert_ne by (intros ->; apply Hnot2, list_elem_of_here).
      eapply chain_cell; [exact Hc2|apply list_elem_of_here]. }
    { intros p' Hp'. cbn [nd1 Node.prev Node.next] in Hp' |- *.
      rewrite Hpv in Hp'. injection Hp' as <-. rewrite Hnx.
      destruct ps2 as [|q ps2]; [congruence|]. intros [= ->].
      apply Hp2, list_elem_of_here. }
    erewrite bind_Some by exact Hdn.
    replace (ptr_eqb (Some a) hd) with false
      by (symmetry; apply ptr_eqb_neq; congruence).
    cbn [nd1 Node.next Node.prev] in *. unfold ret.
    assert (chain NodeMaxSize h1 None (ps10 ++ [p])
              (match ps2 with [] => None | q :: _ => Some q end) xss1) as HcF1.
    { eapply chain_last_next; [exact Hc1|exact Hp0| |].
      - rewrite <- Hnx. apply Hprev; [exact Hpv|].
        now rewrite cell_insert_ne by congruence.
      - intros c Hin.
        assert (c ∈ ps10 ++ [p]) as Hin1 by (apply elem_of_app; now left).
        assert (c <> p) as Hcp.
        { intros ->. apply NoDup_app in Hnd1 as (_ & Hd0 & _).
          apply (Hd0 p Hin). apply list_elem_of_here. }
        rewrite Hfr.
        + apply cell_insert_ne. intros ->. contradiction.
        + intros ->. contradiction.
        + rewrite Hpv. congruence.
        + rewrite Hnx. destruct ps2 as [|q ps2]; [congruence|]. intros [= ->].
          apply (Hdis c Hin1). apply list_elem_of_further, list_elem_of_here. }
    assert (chain NodeMaxSize h1 (Some p) ps2 None xss2) as HcF2.
    { destruct ps2 as [|q ps2]; [destruct xss2; [exact I|discriminate]|].
      destruct (chain_cell NodeMaxSize h (q :: ps2) _ _ _ q Hc2
                  ltac:(apply list_elem_of_here)) as [qn Hqn].
      assert (q <> a) by (intros ->; apply Hnot2, list_elem_of_here).
      apply NoDup_cons in Hnd2 as [Hqnot _].
      eapply chain_head_prev; [exact Hc2|exact Hqn| |].
      - rewrite <- Hpv. apply Hnext; [exact Hnx|].
        now rewrite cell_insert_ne by congruence.
      - intros c Hin. rewrite Hfr.
        + apply cell_insert_ne. intros ->. apply Hnot2. now apply list_elem_of_further.
        + intros ->. apply Hnot2. now apply list_elem_of_further.
        + rewrite Hpv. intros [= ->]. apply Hp2. now apply list_elem_of_further.
        + rewrite Hnx. intros [= ->]. contradiction. }
    assert (chain NodeMaxSize h1 None ((ps10 ++ [p]) ++ ps2) None (xss1 ++ xss2)) as HcF.
    { apply chain_app; [exact Hl1|]. rewrite last_snoc. now split. }
    assert (wf NodeMaxSize
              (mk_list hd (if ptr_eqb (Some a) tl then Node.prev nd else tl) (n - 1) h1)
              (xss1 ++ xss2)) as HwfF.
    { exists ((ps10 ++ [p]) ++ ps2). cbn [head tail size_ heap].
      split.
      { apply NoDup_app. split; [exact Hnd1|]. split; [|exact Hnd2].
        intros c Hin Hin2. apply (Hdis c Hin). now apply list_elem_of_further. }
      split; [exact HcF|].
      split.
      { rewrite Hhd, <- !app_assoc. now destruct ps10. }
      split.
      { rewrite Htl, !last_app. destruct ps2 as [|q ps2].
        - cbn [last]. replace (ptr_eqb (Some a) (Some a)) with true
            by (symmetry; now apply ptr_eqb_eq).
          rewrite Hpv. reflexivity.
        - change (a :: q :: ps2) with ([a] ++ q :: ps2). rewrite last_app.
          destruct (last (q :: ps2)) as [c|] eqn:El; [|apply last_None in El; discriminate].
          destruct (ptr_eqb (Some a) (Some c)) eqn:E; [|reflexivity].
          apply ptr_eqb_eq in E. injection E as <-. exfalso. apply Hnot2.
          apply last_Some in El as [l' El]. rewrite El.
          apply elem_of_app. right. apply list_elem_of_here. }
      rewrite concat_app, length_app. lia. }
    eexists _, _, (xss1 ++ xss2). split; [reflexivity|].
    split; [exact HwfF|].
    split; [rewrite concat_app, Eys; reflexivity|].
    split; [|split; [intros; lia|]].
    2:{ intros _. exists a. split; [reflexivity|]. split; [rewrite Ha; eauto | exact Hca]. }
    intros _. rewrite Nat.add_0_r. cbn [head]. rewrite Hnx.
    destruct ps2 as [|q ps2].
    + destruct xss2; [|discriminate].
      pose proof (walks_reach_end _ _ _ (wf_walks _ _ _ HwfF)) as Hend.
      rewrite app_nil_r in Hend. exact Hend.
    + destruct xss2 as [|zs xss2]; [discriminate|].
      rewrite Hhd.
      replace (((ps10 ++ [p]) ++ a :: q :: ps2) !! 0%nat)
        with (((ps10 ++ [p]) ++ q :: ps2) !! 0%nat)
        by (rewrite <- !app_assoc; now destruct ps10).
      pose proof HcF as HcF'. apply chain_app in HcF' as [_ HcF']; [|exact Hl1].
      apply chain_cons_inv in HcF' as (_ & _ & _ & _ & _ & Hzs & _).
      rewrite <- (Nat.add_0_r (length (concat xss1))).
      apply (chain_std_next NodeMaxSize _ (ps10 ++ [p]) xss1 None q ps2 zs xss2 0);
        [exact HcF|exact Hl1| |destruct zs; [congruence|cbn; lia]].
      cbn [size_]. rewrite concat_app, length_app.
      cbn [concat] in Hsz |- *. rewrite !length_app in *. lia.
  - (* the node keeps elements *)
    assert (2 <= length xs)%nat as Hx2 by lia.
    destruct (Z.eqb_spec (Z.of_nat (length xs) - 1) 0) as [?|_]; [lia|].
    cbn [andb]. unfold ret.
    assert (node_holds NodeMaxSize nd1 ys) as Hh1.
    { eapply node_holds_intro; [|reflexivity|].
      - cbn [nd1 Node.size]. lia.
      - cbn [length]. lia. }
    assert (ys <> []) as Hys by (intros E; rewrite E in Hly; cbn in Hly; lia).
    assert (chain NodeMaxSize (<[a := Some nd1]> h) None (ps1 ++ a :: ps2) None
              (xss1 ++ ys :: xss2)) as HcF.
    { eapply chain_update_node; [exact Hc0|exact Hl1|exact Hnd0|exact Ha
                                |reflexivity|reflexivity|exact Hh1|exact Hys]. }
    eexists _, _, (xss1 ++ ys :: xss2). split; [reflexivity|].
    split.
    { exists (ps1 ++ a :: ps2). cbn [head tail size_ heap].
      split; [exact Hnd0|]. split; [exact HcF|].
      split; [exact Hhd|]. split; [exact Htl|].
      rewrite concat_app. cbn [concat]. rewrite !length_app. lia. }
    split; [rewrite concat_app; reflexivity|].
    split.
    + intros [Hlt|?]; [|lia].
      destruct (Z.ltb_spec (Z.of_nat k) (Z.of_nat (length xs) - 1)); [|lia].
      cbn [head]. rewrite Hhd.
      apply (chain_std_next NodeMaxSize _ ps1 xss1 None a ps2 ys xss2 k);
        [exact HcF|exact Hl1| |lia].
      rewrite concat_app. cbn [concat]. rewrite !length_app. lia.
    + split; [|intros ?; lia]. intros Hlast _.
      destruct (Z.ltb_spec (Z.of_nat k) (Z.of_nat (length xs) - 1)); [lia|reflexivity].
Qed.
End EraseAt.

(** ** Erasure: the invariant, the cursor returned, the range *)

Section EraseTheorems.
Context {T : Type}.
Variable NodeMaxSize : size_t.
Implicit Types (h : list (option (Node.t T))) (nd : Node.t T) (a b : ptr)
         (s : unrolled_list T) (ps qs : list ptr) (xss yss : list (list T)).

Lemma concat_delete_at (c1 xs c2 : list T) (k : nat) :
  (k < length xs)%nat ->
  take (length c1 + k) (c1 ++ xs ++ c2) ++ drop (S (length c1 + k)) (c1 ++ xs ++ c2) =
  c1 ++ (take k xs ++ drop (S k) xs) ++ c2.
Proof.
  intros Hk. rewrite take_app_add.
  replace (S (length c1 + k)) with (length c1 + S k)%nat by lia.
  rewrite drop_app_add.
  rewrite take_app_le, drop_app_le by lia.
  rewrite <- !app_assoc. reflexivity.
Qed.

(** X20. In a container that satisfies the invariant, [erase] at the
    cursor of offset [k] in a node that is not the head node, or that holds
    two elements or more, keeps the invariant and removes the element of
    this index; a node left without elements is unlinked and destroyed:
    its cell, allocated before the call, is freed. The cursor returned is
    the cursor of the same index, that is of the following element or
    [end()], except when the erased element was the last of a node that
    keeps elements: the cursor returned is then at offset 0 of this node. *)
Theorem erase_at_cursor s xss1 (xs : list T) xss2 (k : nat) it (fuel : nat) :
  let l := concat (xss1 ++ xs :: xss2) in
  let i := (length (concat xss1) + k)%nat in
  wf NodeMaxSize s (xss1 ++ xs :: xss2) ->
  (k < length xs)%nat ->
  xss1 <> [] \/ (2 <= length xs)%nat ->
  (let* b := begin in std_next i b) s = Some (it, s) ->
  (length l <= fuel)%nat ->
  exists s1 it1 xss,
    erase it s = Some (it1, s1) /\
    wf NodeMaxSize s1 xss /\
    eval (to_list fuel) s1 = Some (take i l ++ drop (S i) l) /\
    eval size s1 = Some (size_ s - 1) /\
    ((S k < length xs)%nat \/ length xs = 1%nat ->
     (let* b := begin in std_next i b) s1 = Some (it1, s1)) /\
    ((S k = length xs)%nat -> (2 <= length xs)%nat ->
     it1 = mk_iterator (current_node it) 0) /\
    (length xs = 1%nat ->
     exists a, current_node it = Some a /\ is_Some (cell (heap s) a) /\
               cell (heap s1) a = None).
Proof.
  intros l i Hwf Hk Hcase Hit Hf.
  rewrite begin_std_next in Hit.
  destruct (erase_wf NodeMaxSize s xss1 xs xss2 k it Hwf Hk Hcase Hit)
    as (s1 & it1 & xss & He & Hwf1 & Hcat & Hsame & Hlast & Hfree).
  assert (concat xss = take i l ++ drop (S i) l) as Hcat'.
  { rewrite Hcat. unfold l, i. rewrite concat_app. cbn [concat].
    now rewrite concat_delete_at. }
  assert (S (length (concat xss)) = length l) as Hlen.
  { rewrite Hcat. unfold l. rewrite concat_app. cbn [concat].
    rewrite !length_app, length_take, length_drop. lia. }
  exists s1, it1, xss. split; [exact He|]. split; [exact Hwf1|].
  split; [eapply wf_to_list; [exact Hwf1|exact Hcat'|rewrite <- Hcat'; lia]|].
  split.
  { destruct (wf_size _ _ _ Hwf) as [E _], (wf_size _ _ _ Hwf1) as [E1 _].
    fold l in E. unfold eval, size, get_size. cbn. f_equal. lia. }
  split; [intros H; rewrite begin_std_next; now apply Hsame|].
  split; [exact Hlast | exact Hfree].
Qed.

(** Erasing at offset 0 of the head node, again and again: the cursor
    returned stays at offset 0 of the head node, which is kept when it is
    drained, and the next call erases in a node without elements. *)
Lemma erase_range_head (xs : list T) : forall tl n h a nd post fuel,
  cell h a = Some nd ->
  Node.size nd = Z.of_nat (length xs) ->
  Node.data nd = (obj <$> xs) ++ post ->
  Z.of_nat (length xs + length post) < 2 ^ SIZE_WIDTH ->
  erase_range fuel (mk_iterator (Some a) 0) end_ (mk_list (Some a) tl n h) = None.
Proof.
  induction xs as [|x xs IH]; intros tl n h a nd post fuel Ha Hs Hd Hb.
  - destruct fuel as [|fuel]; [reflexivity|].
    cbn [erase_range iterator_eqb current_node current_pos end_ ptr_eqb andb negb].
    unfold bind.
    rewrite (erase_in_drained_node (mk_list (Some a) tl n h) a nd Ha Hs); [reflexivity|].
    rewrite Hd, length_app, length_fmap. exact Hb.
  - destruct fuel as [|fuel]; [reflexivity|].
    cbn [erase_range iterator_eqb current_node current_pos end_ ptr_eqb andb negb].
    pose proof (cell_lt _ _ _ Ha) as Hlta.
    cbn [length] in Hs, Hb.
    pose proof (node_erase_spec nd (x :: xs) post 0 Hs Hd ltac:(cbn [length]; lia)
                  ltac:(cbn [length]; lia)) as He.
    cbn [Z.to_nat take drop app length] in He.
    assert (erase (mk_iterator (Some a) 0) (mk_list (Some a) tl n h) =
            Some (mk_iterator (Some a) 0,
                  mk_list (Some a) tl (wrap (n - 1))
                    (<[a := Some (Node.mk (Z.of_nat (S (length xs)) - 1) (Node.next nd)
                                    (Node.prev nd) ((obj <$> xs) ++ raw :: post))]> h)))
      as Her.
    { unfold erase. cbn [current_node current_pos].
      erewrite bind_Some by (eapply call_Some; [exact Ha | exact He]).
      msimpl.
      erewrite bind_Some by (eapply load_Some; apply cell_insert_eq; exact Hlta).
      rewrite bind_get_head. cbn [head].
      replace (ptr_eqb (Some a) (Some a)) with true by (symmetry; now apply ptr_eqb_eq).
      cbn [negb]. rewrite andb_false_r.
      unfold ret. now destruct (0 <? _). }
    erewrite bind_Some by exact Her.
    eapply IH.
    + apply cell_insert_eq. exact Hlta.
    + cbn [Node.size]. lia.
    + reflexivity.
    + cbn [length]. lia.
Qed.

(** X21. In a container that satisfies the invariant and has an element,
    [erase(begin(), end())] has no defined result: each call returns the
    cursor at offset 0 of the head node, also when this node is drained,
    and the next call then erases in a node without elements. *)
Theorem erase_range_all_undefined s xss (fuel : nat) :
  NodeMaxSize < 2 ^ SIZE_WIDTH ->
  wf NodeMaxSize s xss ->
  concat xss <> [] ->
  (let* b := begin in erase_range fuel b end_) s = None.
Proof.
  intros HC (ps & Hnd & Hc & Hhd & Htl & Hsz & Hb) Hne.
  destruct s as [hd tl n h]. cbn [head tail size_ heap] in *.
  destruct xss as [|xs xss]; [exfalso; now apply Hne|].
  destruct ps as [|a ps]; [contradiction|].
  apply chain_cons_inv in Hc as (nd & Ha & _ & _ & Hh & _ & _).
  cbn in Hhd. subst hd.
  unfold begin. rewrite bind_bind, bind_get_head, bind_ret. cbn [head].
  pose proof Hh as (Hs & Hln & _).
  eapply erase_range_head; [exact Ha|exact Hs|exact (node_holds_data NodeMaxSize _ _ Hh)|].
  pose proof (node_holds_length NodeMaxSize _ _ Hh) as Hle.
  rewrite length_drop. lia.
Qed.

(** X22. Under the invariant, [size()] is the number of positions from
    [begin()] to [end()]. *)
Theorem distance_is_size s xss (fuel : nat) :
  wf NodeMaxSize s xss ->
  (length (concat xss) <= fuel)%nat ->
  exists d,
    eval (let* b := begin in distance fuel b end_) s = Some d /\
    eval size s = Some (Z.of_nat d) /\
    eval empty s = Some (bool_decide (d = 0%nat)).
Proof.
  intros Hwf Hf. pose proof (wf_walks _ _ _ Hwf) as Hw.
  destruct (wf_size _ _ _ Hwf) as [Hsz _].
  exists (length (concat xss)). split.
  - unfold eval, begin. rewrite bind_bind, bind_get_head, bind_ret.
    now rewrite (distance_walks _ _ _ Hw fuel Hf).
  - unfold eval, size, empty, get_size, bind, ret. cbn. rewrite Hsz. split; [reflexivity|].
    f_equal. destruct (concat xss); [reflexivity|].
    cbn [length]. rewrite bool_decide_eq_false_2 by discriminate.
    now destruct (length l).
Qed.
End EraseTheorems.

(** ** Stepping back, the drained head node *)

Section Backwards.
Context {T : Type}.
Variable NodeMaxSize : size_t.
Implicit Types (h : list (option (Node.t T))) (nd : Node.t T) (a b : ptr)
         (s : unrolled_list T) (ps qs : list ptr) (xss yss : list (list T)).

(** X23. In a container that satisfies the invariant, [operator--] undoes
    [operator++] between two elements, inside a node and across nodes; at
    [begin()] it gives the end cursor, and at [end()], whose node pointer
    is null, it is undefined. *)
Theorem decr_undoes_incr s xss (i : nat) it it2 :
  wf NodeMaxSize s xss ->
  (S i < length (concat xss))%nat ->
  (let* b := begin in std_next i b) s = Some (it, s) ->
  incr it s = Some (it2, s) ->
  decr it2 s = Some (it, s) /\
  (let* b := begin in decr b) s = Some (end_, s) /\
  decr end_ s = None.
Proof.
  intros Hwf Hi Hit Hinc. rewrite begin_std_next in Hit.
  destruct (concat_split_at xss i ltac:(lia)) as (xss1 & xs & xss2 & k & -> & Hk & ->).
  destruct Hwf as (ps & Hnd & Hc & Hhd & Htl & Hsz & Hb).
  destruct s as [hd tl n h]. cbn [head tail size_ heap] in *.
  destruct (split_like ps xss1 xs xss2 (chain_length _ _ _ _ _ _ Hc))
    as (ps1 & a & ps2 & -> & Hl1 & Hl2).
  pose proof (chain_std_next NodeMaxSize (mk_list hd tl n h) ps1 xss1 None a ps2 xs xss2 k
                Hc Hl1 ltac:(lia) Hk) as Hn.
  rewrite <- Hhd in Hn. cbn [heap] in Hn. rewrite Hn in Hit. injection Hit as <-.
  split; [|split].
  - apply (chain_app NodeMaxSize h ps1 None (a :: ps2) None xss1 (xs :: xss2) Hl1)
      in Hc as [Hc1 Hc2].
    apply chain_cons_inv in Hc2 as (nd & Ha & Hpv & Hnx & Hh & Hxs & Hc2).
    pose proof Hh as (Hs & _ & _).
    rewrite concat_app in Hsz, Hi. cbn [concat] in Hsz, Hi. rewrite !length_app in Hsz, Hi.
    rewrite (incr_Some (mk_list hd tl n h) a nd _ Ha) in Hinc.
    rewrite wrap_small in Hinc by lia.
    destruct (Z.ltb_spec (Z.of_nat k + 1) (Node.size nd)) as [Hlt|Hge];
      injection Hinc as <-.
    + unfold decr. cbn [current_node current_pos].
      destruct (Z.gtb_spec (Z.of_nat k + 1) 0); [|lia].
      unfold ret. rewrite wrap_small by lia. do 3 f_equal. lia.
    + destruct ps2 as [|q ps2].
      { destruct xss2; [cbn in Hi; lia|discriminate]. }
      destruct xss2 as [|zs xss2]; [discriminate|].
      apply chain_cons_inv in Hc2 as (qn & Hq & Hqpv & _).
      rewrite Hnx. unfold decr. cbn [current_node current_pos Z.gtb Z.compare].
      erewrite bind_Some by (eapply load_Some; exact Hq).
      rewrite Hqpv, is_null_Some.
      erewrite bind_Some by (eapply load_Some; exact Ha).
      unfold ret. rewrite wrap_small by lia. do 3 f_equal. lia.
  - destruct ps1 as [|p ps1].
    + destruct xss1; [|discriminate]. cbn [app] in Hc, Hhd.
      apply chain_cons_inv in Hc as (nd & Ha & Hpv & _).
      cbn in Hhd. subst hd.
      unfold begin. rewrite bind_bind, bind_get_head, bind_ret. cbn [head].
      unfold decr. cbn [current_node current_pos Z.gtb Z.compare].
      erewrite bind_Some by (eapply load_Some; exact Ha).
      now rewrite Hpv.
    + destruct xss1 as [|ys xss1]; [discriminate|]. cbn [app] in Hc, Hhd.
      apply chain_cons_inv in Hc as (nd & Ha & Hpv & _).
      cbn in Hhd. subst hd.
      unfold begin. rewrite bind_bind, bind_get_head, bind_ret. cbn [head].
      unfold decr. cbn [current_node current_pos Z.gtb Z.compare].
      erewrite bind_Some by (eapply load_Some; exact Ha).
      now rewrite Hpv.
  - reflexivity.
Qed.

(** X24. The reverse traversal, from [rbegin()] to [rend()], is defined
    on the empty container only: with an element, dereferencing [rbegin()]
    decrements the end cursor. *)
Theorem reverse_traversal_defined_iff_empty s xss (fuel : nat) :
  wf NodeMaxSize s xss ->
  (concat xss = [] -> to_list_reverse fuel s = Some ([], s)) /\
  (concat xss <> [] -> to_list_reverse fuel s = None).
Proof.
  intros Hwf. split.
  - intros Hnil. destruct (wf_nil NodeMaxSize s xss Hwf Hnil) as (_ & Hhd & _).
    unfold to_list_reverse, begin. rewrite bind_bind, bind_get_head, bind_ret, Hhd.
    now destruct fuel.
  - intros Hne. apply to_list_reverse_undefined.
    destruct Hwf as (ps & _ & Hc & Hhd & _).
    destruct xss as [|xs xss]; [exfalso; now apply Hne|].
    destruct ps as [|a ps]; [contradiction|]. rewrite Hhd. discriminate.
Qed.
End Backwards.

Section Drain.
Context {T : Type}.
Variable NodeMaxSize : size_t.
Implicit Types (h : list (option (Node.t T))) (nd : Node.t T) (a b : ptr)
         (s : unrolled_list T) (ps qs : list ptr) (xss yss : list (list T)).

(** [pop_back] on a container with one element: the state it leaves. *)
Lemma pop_back_single_state s (x : T) :
  wf NodeMaxSize s [[x]] ->
  exists a nd,
    head s = Some a /\ cell (heap s) a = Some nd /\
    (0 < length (Node.data nd))%nat /\
    pop_back s =
    Some (tt, mk_list (Some a) (Some a) 0
                (<[a := Some (Node.set_size 0
                                (Node.set_data (<[0%nat := raw]> (Node.data nd)) nd))]>
                   (heap s))).
Proof.
  intros (ps & _ & Hc & Hhd & Htl & Hsz & _).
  pose proof (chain_length _ _ _ _ _ _ Hc) as Hl.
  destruct ps as [|a [|? ?]]; try discriminate.
  apply chain_single_inv in Hc as (nd & Ha & _ & _ & Hh & _).
  pose proof (node_holds_length _ _ _ Hh) as Hlen.
  destruct Hh as (Hs & _ & _).
  destruct s as [hd tl n h]. cbn [head tail size_ heap] in *.
  cbn in Hhd, Htl, Hsz, Hs, Hlen.
  change (Z.of_nat 1) with 1 in Hsz, Hs. subst hd tl n.
  pose proof (cell_lt _ _ _ Ha) as Hlt.
  exists a, nd. split; [reflexivity|]. split; [exact Ha|]. split; [lia|].
  unfold pop_back. msimpl. cbn [Z.eqb]. msimpl.
  erewrite bind_Some by (eapply load_Some; exact Ha).
  assert (Node.destroy_at (Node.size nd - 1) nd =
          Some (Node.set_data (<[0%nat := raw]> (Node.data nd)) nd)) as Hd.
  { unfold Node.destroy_at, wr. rewrite Hs.
    change (1 - 1) with 0. cbn [Z.leb Z.compare andb Z.to_nat].
    destruct (Z.ltb_spec 0 (Z.of_nat (length (Node.data nd)))); [reflexivity|lia]. }
  erewrite bind_Some by (eapply call_Some; [exact Ha | exact Hd]).
  erewrite bind_Some by (eapply assign_Some; apply cell_insert_eq; exact Hlt).
  rewrite list_insert_insert_eq. msimpl.
  erewrite bind_Some by (eapply load_Some; apply cell_insert_eq; exact Hlt).
  msimpl. rewrite Hs. cbn [Node.size Node.set_size].
  change (wrap (1 - 1) =? 0) with true.
  replace (ptr_eqb (Some a) (Some a)) with true by (symmetry; now apply ptr_eqb_eq).
  cbn [andb negb when]. reflexivity.
Qed.

(** [create_node()] in a container that has a head node. *)
Lemma create_node_detached a tl n h :
  create_node NodeMaxSize None None (mk_list (Some a) tl n h) =
  Some (Some (length h),
        mk_list (Some a) (Some (length h)) n
          (h ++ [Some (Node.ctor (T := T) NodeMaxSize)])).
Proof.
  unfold create_node.
  unfold bind at 1, allocate at 1. cbn [heap head tail size_].
  erewrite bind_Some by (eapply assign_Some; apply cell_app_new).
  rewrite insert_app_new.
  erewrite bind_Some by (eapply assign_Some; apply cell_app_new).
  rewrite insert_app_new.
  msimpl. reflexivity.
Qed.

(** X25. [pop_back] of the only element keeps the drained node as head,
    so that the [push_back] that follows it puts the value in a new node
    that the head node is not linked to: [size()] is 1 and [back()] is the
    value, but the traversal from [begin()] starts in the drained node and
    has no defined result. *)
Theorem pop_back_then_push_back s (x v : T) :
  0 < NodeMaxSize ->
  wf NodeMaxSize s [[x]] ->
  exists s1 s2 a b hn,
    pop_back s = Some (tt, s1) /\
    push_back NodeMaxSize v s1 = Some (tt, s2) /\
    eval size s2 = Some 1 /\
    eval back s2 = Some v /\
    head s2 = Some a /\ tail s2 = Some b /\ a <> b /\
    cell (heap s2) a = Some hn /\ Node.next hn = None /\ Node.size hn = 0 /\
    forall fuel, to_list fuel s2 = None.
Proof.
  intros HC Hwf.
  destruct (pop_back_single_state s x Hwf) as (a & nd & Hhd & Ha & Hlen & Hpop).
  assert (Node.next nd = None) as Hnx.
  { destruct Hwf as (ps & _ & Hc & Hhd' & _).
    pose proof (chain_length _ _ _ _ _ _ Hc) as Hl.
    destruct ps as [|a' [|? ?]]; try discriminate.
    apply chain_single_inv in Hc as (nd' & Ha' & _ & Hnx & _).
    rewrite Hhd in Hhd'. injection Hhd' as <-. congruence. }
  destruct s as [hd tl n h]. cbn [head heap] in *.
  pose proof (cell_lt _ _ _ Ha) as Hlta.
  set (hn := Node.set_size 0 (Node.set_data (<[0%nat := raw]> (Node.data nd)) nd)) in *.
  set (h1 := <[a := Some hn]> h) in *.
  assert (length h1 = length h) as Hl1 by (unfold h1; now rewrite length_insert).
  set (nb := Node.mk 1 None None
               ((obj <$> [v]) ++ replicate (Z.to_nat NodeMaxSize - 1) raw)).
  assert (push_back NodeMaxSize v (mk_list (Some a) (Some a) 0 h1) =
          Some (tt, mk_list (Some a) (Some (length h1)) 1 (h1 ++ [Some nb]))) as Hpush.
  { unfold push_back, emplace_back.
    rewrite bind_empty. cbn [size_ Z.eqb when].
    rewrite bind_bind.
    erewrite bind_Some by apply create_node_detached.
    msimpl.
    erewrite bind_Some by (eapply load_Some; apply cell_app_new).
    unfold Node.is_full. cbn [Node.size Node.ctor].
    destruct (Z.eqb_spec 0 NodeMaxSize) as [E|_]; [lia|].
    msimpl.
    erewrite bind_Some
      by (eapply call_Some; [apply cell_app_new | exact (emplace_back_fresh NodeMaxSize None v HC)]).
    msimpl. rewrite insert_app_new. reflexivity. }
  assert (cell (h1 ++ [Some nb]) a = Some hn) as Hca.
  { rewrite cell_app_l by lia. apply cell_insert_eq. exact Hlta. }
  eexists _, _, a, (length h1), hn.
  split; [exact Hpop|]. split; [exact Hpush|].
  cbn [head tail size_ heap].
  split; [reflexivity|].
  split.
  { unfold eval, back. msimpl.
    erewrite bind_Some by (eapply load_Some; apply cell_app_new).
    reflexivity. }
  split; [reflexivity|]. split; [reflexivity|]. split; [lia|].
  split; [exact Hca|]. split; [exact Hnx|]. split; [reflexivity|].
  intros fuel. unfold to_list, begin. msimpl.
  destruct fuel as [|fuel]; [reflexivity|].
  cbn [for_each iterator_eqb current_node current_pos end_ ptr_eqb andb].
  unfold deref. cbn [current_node current_pos]. rewrite !bind_bind.
  erewrite bind_Some by (eapply load_Some; exact Hca).
  assert (rd (Node.data hn) 0 = Some raw) as Hrd.
  { unfold rd. cbn [hn Node.data Node.set_size Node.set_data Z.leb Z.compare andb Z.to_nat].
    rewrite length_insert.
    destruct (Z.ltb_spec 0 (Z.of_nat (length (Node.data nd)))); [|lia].
    now apply list_lookup_insert_eq. }
  unfold bind at 1, lift at 1. rewrite Hrd. reflexivity.
Qed.
End Drain.

(** ** Capacities 1 and 0 *)

Section Capacity.
Context {T : Type}.
Implicit Types (h : list (option (Node.t T))) (nd : Node.t T) (a b : ptr)
         (s : unrolled_list T) (ps qs : list ptr) (xss yss : list (list T)).

Lemma call_None hd tl n h a nd (f : Node.t T -> option (Node.t T)) :
  cell h a = Some nd -> f nd = None ->
  call (Some a) f (mk_list hd tl n h) = None.
Proof.
  intros Ha Hf. unfold call.
  erewrite bind_Some by (eapply load_Some; exact Ha).
  unfold bind, lift. now rewrite Hf.
Qed.

(** X26. With [NodeMaxSize] equal to 1, [insert] (and [emplace]) before
    an element has no defined result: the split moves the element of the
    full node to the new node, and the insertion then shifts it past the
    one slot of that node's buffer. *)
Theorem emplace_capacity_one_undefined s xss (i : nat) it (v : T) :
  wf 1 s xss ->
  (i < length (concat xss))%nat ->
  (let* b := begin in std_next i b) s = Some (it, s) ->
  emplace 1 it v s = None.
Proof.
  intros Hwf Hi Hit. rewrite begin_std_next in Hit.
  destruct (concat_split_at xss i ltac:(lia)) as (xss1 & xs & xss2 & k & -> & Hk & ->).
  destruct Hwf as (ps & Hnd & Hc & Hhd & Htl & Hsz & Hb).
  destruct s as [hd tl n h]. cbn [head tail size_ heap] in *.
  destruct (split_like ps xss1 xs xss2 (chain_length _ _ _ _ _ _ Hc))
    as (ps1 & a & ps2 & -> & Hl1 & Hl2).
  pose proof (chain_std_next 1 (mk_list hd tl n h) ps1 xss1 None a ps2 xs xss2 k
                Hc Hl1 ltac:(lia) Hk) as Hn.
  rewrite <- Hhd in Hn. cbn [heap] in Hn. rewrite Hn in Hit. injection Hit as <-.
  apply (chain_app 1 h ps1 None (a :: ps2) None xss1 (xs :: xss2) Hl1) in Hc as [Hc1 Hc2].
  apply chain_cons_inv in Hc2 as (nd & Ha & Hpv & Hnx & Hh & Hxs & Hc2).
  apply NoDup_app in Hnd as (Hnd1 & Hdis & Hnd2).
  apply NoDup_cons in Hnd2 as [Hnot2 Hnd2].
  pose proof (node_holds_length _ _ _ Hh) as Hle.
  pose proof Hh as (Hs & Hln & Htk).
  assert (length (Node.data nd) = 1%nat) as Hld by lia.
  destruct xs as [|x [|? ?]]; [cbn in Hk; lia| |cbn in Hle; lia].
  assert (k = 0%nat) as -> by (cbn in Hk; lia).
  assert (Node.data nd = [obj x]) as Hd.
  { change [obj x] with (obj <$> [x]). rewrite <- Htk. symmetry. apply take_ge. cbn. lia. }
  cbn [length] in Hs. change (Z.of_nat 1) with 1 in Hs.
  assert (hd <> None) as Hhd0 by (rewrite Hhd; now destruct ps1).
  destruct (create_node_link 1 hd tl n h a nd Ha Hhd0)
    as (h1 & Hcr & Hlh1 & Hb1 & Ha1 & _ & _).
  { intros q Hq. rewrite Hnx in Hq.
    destruct ps2 as [|q' ps2]; [discriminate|]. injection Hq as <-.
    split; [intros ->; apply Hnot2, list_elem_of_here|].
    eapply chain_cell; [exact Hc2|apply list_elem_of_here]. }
  pose proof (cell_lt _ _ _ Ha) as Hlta.
  set (b := length h) in *.
  assert (a <> b) as Hab by lia.
  unfold emplace. cbn [iterator_eqb current_node current_pos end_ ptr_eqb andb].
  erewrite bind_Some by (eapply load_Some; exact Ha).
  unfold Node.is_full. rewrite Hs. cbn [Z.eqb Pos.eqb negb].
  erewrite bind_Some by exact Hcr.
  change (1 / 2) with 0. change (Z.to_nat (1 - 0)) with (length [x]).
  erewrite bind_Some; cycle 1.
  { eapply (split_loop_spec a b [x] [] [] [] [raw]); try eassumption.
    all: reflexivity. }
  cbn [app length Nat.add fmap list_fmap drop replicate Z.of_nat Pos.of_succ_nat].
  erewrite bind_Some
    by (eapply assign_Some; apply cell_insert_eq; rewrite length_insert; lia).
  rewrite list_insert_insert_eq.
  erewrite bind_Some
    by (eapply assign_Some; rewrite cell_insert_ne by congruence;
        apply cell_insert_eq; lia).
  rewrite (list_insert_insert_ne _ b a) by congruence.
  rewrite list_insert_insert_eq.
  change (Z.of_nat 0) with 0. cbn [Z.ltb Z.compare].
  unfold bind at 1.
  erewrite call_None; [reflexivity| |].
  - rewrite cell_insert_ne by congruence. apply cell_insert_eq. lia.
  - reflexivity.
Qed.

Lemma wf_capacity_zero s xss :
  wf (T := T) 0 s xss -> head s = None /\ tail s = None /\ size_ s = 0.
Proof.
  intros (ps & _ & Hc & Hhd & Htl & Hsz & _).
  destruct xss as [|xs xss].
  - apply chain_length in Hc. destruct ps; [|discriminate]. now repeat split.
  - destruct ps as [|a ps]; [contradiction|].
    apply chain_cons_inv in Hc as (nd & _ & _ & _ & Hh & Hne & _).
    pose proof (node_holds_length _ _ _ Hh) as Hle.
    destruct Hh as (_ & Hln & _).
    destruct xs; [congruence|cbn in Hle; lia].
Qed.

(** X27. With [NodeMaxSize] equal to 0, [push_back] and [push_front] have
    no defined result: the node just created counts as full, a second node
    is created, and the value is constructed in its buffer without
    slots. *)
Theorem push_capacity_zero_undefined s xss (v : T) :
  wf 0 s xss ->
  push_back 0 v s = None /\ push_front 0 v s = None.
Proof.
  intros Hwf. destruct (wf_capacity_zero s xss Hwf) as (Hhd & Htl & Hsz).
  destruct s as [hd tl n h]. cbn [head tail size_] in *. subst hd tl n.
  set (b := length h).
  assert (length (h ++ [Some (Node.ctor (T := T) 0)]) = S b) as Hl0
    by (rewrite length_app; cbn; lia).
  split.
  - unfold push_back, emplace_back.
    rewrite bind_empty. cbn [size_ Z.eqb when].
    rewrite bind_bind.
    erewrite bind_Some by apply create_node_first.
    msimpl.
    erewrite bind_Some by (eapply load_Some; apply cell_app_new).
    unfold Node.is_full. cbn [Node.size Node.ctor Z.eqb when].
    rewrite bind_bind.
    destruct (create_node_link 0 (Some b) (Some b) 0 _ b (Node.ctor 0)
                (cell_app_new h _) ltac:(discriminate))
      as (h1 & Hcr & Hlh1 & Hb1 & _).
    { intros q Hq. discriminate. }
    erewrite bind_Some by exact Hcr.
    msimpl.
    cbn [Node.next Node.ctor]. rewrite is_null_None.
    unfold bind at 1.
    erewrite call_None; [reflexivity|exact Hb1|reflexivity].
  - unfold push_front, emplace_front.
    rewrite bind_empty. cbn [size_ Z.eqb when].
    rewrite bind_bind.
    erewrite bind_Some by apply create_node_first.
    msimpl.
    erewrite bind_Some by (eapply load_Some; apply cell_app_new).
    unfold Node.is_full. cbn [Node.size Node.ctor Z.eqb when].
    rewrite bind_bind.
    erewrite bind_Some by (apply create_node_before; apply cell_app_new).
    msimpl. unfold bind at 1.
    erewrite call_None; [reflexivity| |].
    + rewrite cell_insert_ne by (rewrite Hl0; unfold b; lia).
      apply cell_app_new.
    + reflexivity.
Qed.
End Capacity.

(** ** The counted insertion *)

Section Counted.
Context {T : Type}.
Variable NodeMaxSize : size_t.
Implicit Types (h : list (option (Node.t T))) (nd : Node.t T) (a b : ptr)
         (s : unrolled_list T) (ps qs : list ptr) (xss yss : list (list T)).

Lemma objects_raw (xs : list T) (rest : list (slot T)) :
  objects ((obj <$> xs) ++ raw :: rest) = None.
Proof.
  induction xs as [|x xs IH]; [reflexivity|].
  rewrite fmap_cons. cbn [app objects]. now rewrite IH.
Qed.

(** X28. The counted [insert] uses the position given for each of its
    insertions. When this position is in the upper part of a full node,
    after the offset [NodeMaxSize / 2], the first insertion splits the node
    and the second one constructs the value in a slot of the lower node
    that lies after a destroyed slot: the node then counts a destroyed slot
    among its elements, and reading it is undefined. *)
Theorem insert_n_stale_cursor s xss1 (xs : list T) xss2 (k : nat) it (v : T) :
  2 <= NodeMaxSize ->
  wf NodeMaxSize s (xss1 ++ xs :: xss2) ->
  Z.of_nat (length xs) = NodeMaxSize ->
  NodeMaxSize / 2 < Z.of_nat k < NodeMaxSize ->
  (let* b := begin in std_next (length (concat xss1) + k) b) s = Some (it, s) ->
  size_ s + 2 < 2 ^ SIZE_WIDTH ->
  exists a s2 nd2,
    it = mk_iterator (Some a) (Z.of_nat k) /\
    insert_n NodeMaxSize it 2 v s = Some (it, s2) /\
    size_ s2 = size_ s + 2 /\
    cell (heap s2) a = Some nd2 /\
    Node.size nd2 = NodeMaxSize / 2 + 1 /\
    Node.elements nd2 = None /\
    deref (mk_iterator (Some a) (NodeMaxSize / 2)) s2 = None.
Proof.
  intros HC Hwf Hfull Hk Hit Hb2. rewrite begin_std_next in Hit.
  destruct Hwf as (ps & Hnd & Hc & Hhd & Htl & Hsz & Hb).
  destruct s as [hd tl n h]. cbn [head tail size_ heap] in *.
  destruct (split_like ps xss1 xs xss2 (chain_length _ _ _ _ _ _ Hc))
    as (ps1 & a & ps2 & -> & Hl1 & Hl2).
  pose proof (chain_std_next NodeMaxSize (mk_list hd tl n h) ps1 xss1 None a ps2 xs xss2 k
                Hc Hl1 ltac:(lia) ltac:(lia)) as Hn.
  rewrite <- Hhd in Hn. cbn [heap] in Hn. rewrite Hn in Hit. injection Hit as <-.
  apply (chain_app NodeMaxSize h ps1 None (a :: ps2) None xss1 (xs :: xss2) Hl1)
    in Hc as [Hc1 Hc2].
  apply chain_cons_inv in Hc2 as (nd & Ha & Hpv & Hnx & Hh & Hxs & Hc2).
  apply NoDup_app in Hnd as (Hnd1 & Hdis & Hnd2).
  apply NoDup_cons in Hnd2 as [Hnot2 Hnd2].
  pose proof (cell_lt _ _ _ Ha) as Hlta.
  rewrite concat_app in Hsz. cbn [concat] in Hsz. rewrite !length_app in Hsz.
  assert (hd <> None) as Hhd0 by (rewrite Hhd; now destruct ps1).
  destruct (create_node_link NodeMaxSize hd tl n h a nd Ha Hhd0)
    as (h1 & Hcr & Hlh1 & Hb1' & Ha1 & _ & _).
  { intros q Hq. rewrite Hnx in Hq.
    destruct ps2 as [|q' ps2]; [discriminate|]. injection Hq as <-.
    split; [intros ->; apply Hnot2, list_elem_of_here|].
    eapply chain_cell; [exact Hc2|apply list_elem_of_here]. }
  destruct (emplace_split_cells NodeMaxSize hd tl n h a nd xs k v _ _ h1
              ltac:(lia) Ha Hh Hfull ltac:(lia) Hcr Hlh1 Hb1' Ha1 ltac:(lia) ltac:(lia))
    as (A & B & ls & hs & it1 & Hem & HpA & HnA & HpB & HnB & HhA & HhB & HneA & HneB
        & Hcat & Hcur & HdA & Hls).
  specialize (Hls ltac:(lia)).
  set (half := NodeMaxSize / 2) in *.
  assert (0 < half < NodeMaxSize) as Hhalf.
  { unfold half. split; [apply Z.div_str_pos; lia | apply Z.div_lt; lia]. }
  assert (length ls = Z.to_nat half) as Hlls by (rewrite Hls, length_take; lia).
  pose proof HhA as (HsA & HlnA & _).
  set (b := length h) in *.
  set (hF := <[a := Some A]> (<[b := Some B]> h1)) in *.
  assert (length hF = S b) as HlF by (unfold hF; now rewrite !length_insert).
  assert (cell hF a = Some A) as HFa
    by (apply cell_insert_eq; rewrite length_insert; lia).
  set (d2 := <[k := obj v]> (Node.data A)).
  assert (Node.insert (Z.of_nat k) v A =
          Some (Node.set_size (half + 1) (Node.set_data d2 A))) as Hins.
  { unfold Node.insert. rewrite HsA, Hlls.
    replace (Z.to_nat (Z.of_nat (Z.to_nat half) - Z.of_nat k)) with 0%nat by lia.
    cbn [shift_up mbind option_bind]. unfold wr.
    destruct (Z.leb_spec 0 (Z.of_nat k)); [|lia].
    destruct (Z.ltb_spec (Z.of_nat k) (Z.of_nat (length (Node.data A)))); [|lia].
    cbn [andb mbind option_bind]. rewrite Nat2Z.id, wrap_small by lia.
    do 2 f_equal. lia. }
  set (nd2 := Node.set_size (half + 1) (Node.set_data d2 A)) in *.
  assert (emplace NodeMaxSize (mk_iterator (Some a) (Z.of_nat k)) v
            (mk_list hd (if is_null (Node.next nd) then Some b else tl) (n + 1) hF) =
          Some (mk_iterator (Some a) (Z.of_nat k),
                mk_list hd (if is_null (Node.next nd) then Some b else tl) (n + 2)
                  (<[a := Some nd2]> hF))) as Hem2.
  { unfold emplace. cbn [iterator_eqb current_node current_pos end_ ptr_eqb andb].
    erewrite bind_Some by (eapply load_Some; exact HFa).
    unfold Node.is_full. rewrite HsA, Hlls.
    destruct (Z.eqb_spec (Z.of_nat (Z.to_nat half)) NodeMaxSize) as [?|_]; [lia|].
    cbn [negb].
    erewrite bind_Some by (eapply call_Some; [exact HFa | exact Hins]).
    msimpl. unfold ret. rewrite wrap_small by lia.
    do 3 f_equal. lia. }
  assert (d2 = (obj <$> ls) ++ raw ::
                 <[(k - S (length ls))%nat := obj v]>
                   (replicate (Z.to_nat NodeMaxSize - length ls - 1) raw)) as Hd2.
  { unfold d2. rewrite HdA.
    set (m := (Z.to_nat NodeMaxSize - length ls - 1)%nat).
    replace (Z.to_nat NodeMaxSize - length ls)%nat with (S m) by (unfold m; lia).
    cbn [replicate].
    replace k with (length (obj <$> ls) + S (k - S (length ls)))%nat at 1
      by (rewrite length_fmap; lia).
    rewrite insert_app_r. reflexivity. }
  exists a, (mk_list hd (if is_null (Node.next nd) then Some b else tl) (n + 2)
               (<[a := Some nd2]> hF)), nd2.
  split; [reflexivity|].
  split.
  { unfold insert_n. cbn [Z.eqb current_node current_pos].
    change (Z.to_nat 2) with 2%nat. cbn [insert_loop]. unfold insert.
    erewrite bind_Some by exact Hem.
    destruct Hcur as [(Hkl & _)|(_ & _ & _)]; [lia|].
    erewrite bind_Some by exact Hem2. reflexivity. }
  cbn [size_ heap].
  split; [reflexivity|].
  split; [apply cell_insert_eq; lia|].
  split; [reflexivity|].
  split.
  { unfold Node.elements. cbn [nd2 Node.size Node.data Node.set_size Node.set_data].
    rewrite Hd2.
    replace (Z.to_nat (half + 1)) with (length (obj <$> ls) + 1)%nat
      by (rewrite length_fmap; lia).
    rewrite take_app_add. cbn [take]. apply objects_raw. }
  unfold deref. cbn [current_node current_pos].
  erewrite bind_Some by (eapply load_Some; apply cell_insert_eq; lia).
  cbn [nd2 Node.size Node.data Node.set_size Node.set_data].
  rewrite Hd2.
  rewrite (rd_middle (obj <$> ls) raw _ half) by (rewrite length_fmap; lia).
  reflexivity.
Qed.
End Counted.

(** ** The further properties on concrete containers *)

(** The invariant of a container given with the addresses of its chain,
    by evaluation. *)
Ltac wf_by_evaluation ps :=
  exists ps;
  split; [now apply (bool_decide_unpack (NoDup _))|];
  repeat split; try reflexivity; try discriminate.

(** Appending 7 to 1 2 3. *)
Lemma push_back_appends_witness :
  exists s1,
    push_back 10 7 three = Some (tt, s1) /\
    eval (to_list 4) s1 = Some [1; 2; 3; 7] /\
    eval back s1 = Some 7.
Proof.
  destruct (push_back_appends 10 three [[1; 2; 3]] 7 4)
    as (s1 & xss1 & Hp & _ & Hl & _ & Hb).
  - lia.
  - wf_by_evaluation [0]%nat.
  - reflexivity.
  - cbn. lia.
  - exists s1. repeat split; assumption.
Defined.

(** The container built from 1 2 3. *)
Lemma ctor_range_round_trip_witness :
  exists s,
    ctor_range 10 [1; 2; 3] = Some s /\
    eval (to_list 3) s = Some [1; 2; 3] /\
    eval size s = Some 3.
Proof.
  destruct (ctor_range_round_trip 10 [1; 2; 3] 3) as (s & xss & Hc & _ & Hl & Hs & _).
  - lia.
  - reflexivity.
  - cbn. lia.
  - exists s. repeat split; assumption.
Defined.

(** Three copies of 7 in nodes of two slots. *)
Lemma ctor_fill_replicates_witness :
  exists s,
    ctor_fill 2 3 7 = Some s /\
    eval (to_list 3) s = Some [7; 7; 7] /\
    eval size s = Some 3.
Proof.
  destruct (ctor_fill_replicates 2 3 7 3) as (s & xss & Hc & _ & Hl & Hs).
  - lia.
  - split; [lia | reflexivity].
  - cbn. lia.
  - exists s. repeat split; assumption.
Defined.

(** The element of index 1 in the nodes [1 2] [3], and of index 2. *)
Lemma operator_index_nth_witness :
  operator_index 1 two_nodes = Some (2, two_nodes) /\
  operator_index 2 two_nodes = Some (3, two_nodes) /\
  operator_index 3 two_nodes = None.
Proof.
  assert (wf 2 two_nodes [[1; 2]; [3]]) as Hwf by wf_by_evaluation [0; 1]%nat.
  split; [|split].
  - apply (operator_index_nth 2 two_nodes [[1; 2]; [3]] 1 Hwf); [split; [lia|reflexivity]|].
    reflexivity.
  - apply (operator_index_nth 2 two_nodes [[1; 2]; [3]] 2 Hwf); [split; [lia|reflexivity]|].
    reflexivity.
  - apply (operator_index_nth 2 two_nodes [[1; 2]; [3]] 3 Hwf); [split; [lia|reflexivity]|].
    reflexivity.
Defined.

(** The ends of the nodes [1 2] [3]. *)
Lemma front_back_wf_witness :
  eval front two_nodes = Some 1 /\ eval back two_nodes = Some 3.
Proof.
  apply (front_back_wf 2 two_nodes [[1; 2]; [3]]).
  wf_by_evaluation [0; 1]%nat.
Defined.

(** Appending 4 5 to the nodes [1 2] [3]. *)
Lemma append_range_appends_witness :
  exists s1,
    append_range 2 [4; 5] two_nodes = Some (tt, s1) /\
    eval (to_list 5) s1 = Some [1; 2; 3; 4; 5].
Proof.
  destruct (append_range_appends 2 two_nodes [[1; 2]; [3]] [4; 5] 5)
    as (s1 & xss1 & Ha & _ & Hl & _).
  - lia.
  - wf_by_evaluation [0; 1]%nat.
  - reflexivity.
  - cbn. lia.
  - exists s1. split; assumption.
Defined.

(** Two copies of 7 inserted at the end of 1 2 3. *)
Lemma insert_n_at_end_witness :
  exists s1 it,
    insert_n 10 end_ 2 7 three = Some (it, s1) /\
    eval (to_list 5) s1 = Some [1; 2; 3; 7; 7] /\
    deref it s1 = Some (7, s1).
Proof.
  destruct (insert_n_at_end 10 three [[1; 2; 3]] 2 7 5)
    as (s1 & it & Hi & Hl & _ & Hpos).
  - lia.
  - wf_by_evaluation [0]%nat.
  - lia.
  - reflexivity.
  - cbn. lia.
  - exists s1, it. split; [exact Hi|]. split; [exact Hl|].
    apply Hpos. lia.
Defined.

(** Growing 1 2 3 to five elements with 0. *)
Lemma resize_grows_witness :
  exists s1,
    resize 10 2 5 0 three = Some (tt, s1) /\
    eval (to_list 5) s1 = Some [1; 2; 3; 0; 0] /\
    eval size s1 = Some 5.
Proof.
  destruct (resize_grows 10 three [[1; 2; 3]] 5 0 2 5) as (s1 & xss1 & Hr & _ & Hl & Hs).
  - lia.
  - wf_by_evaluation [0]%nat.
  - split; [cbn; lia | reflexivity].
  - cbn. lia.
  - cbn. lia.
  - exists s1. repeat split; assumption.
Defined.

(** The copy of the nodes [1 2] [3]. *)
Lemma ctor_copy_equal_witness :
  exists s,
    ctor_copy 2 3 two_nodes = Some s /\
    eval (to_list 3) s = Some [1; 2; 3] /\
    operator_eq 3 s two_nodes = Some true.
Proof.
  destruct (ctor_copy_equal 2 two_nodes [[1; 2]; [3]] 3) as (s & yss & Hc & _ & Hl & _ & He).
  - lia.
  - wf_by_evaluation [0; 1]%nat.
  - cbn. lia.
  - exists s. repeat split; assumption.
Defined.


(** [pop_front] of the only element: the node at address 0 is freed. *)
Lemma pop_front_removes_first_witness :
  exists s1,
    pop_front single = Some (tt, s1) /\
    eval (to_list 0) s1 = Some [] /\
    head s1 = None /\ tail s1 = None /\
    is_Some (cell (heap single) 0) /\ cell (heap s1) 0 = None.
Proof.
  destruct (pop_front_removes_first 10 single [[1]] 1 [] 0)
    as (s1 & xss1 & Hp & _ & Hl & _ & Hnil & Hfree).
  - wf_by_evaluation [0]%nat.
  - reflexivity.
  - cbn. lia.
  - destruct (Hnil eq_refl) as [Hh Ht].
    destruct (Hfree 0%nat eq_refl eq_refl) as [Ha Hc].
    exists s1. split; [exact Hp|]. split; [exact Hl|]. split; [exact Hh|].
    split; [exact Ht|]. split; [exact Ha | exact Hc].
Defined.

(** [pop_back] on the nodes [1 2] [3]: the node at address 1 is freed. *)
Lemma pop_back_removes_last_witness :
  exists s1,
    pop_back two_nodes = Some (tt, s1) /\
    eval (to_list 2) s1 = Some [1; 2] /\
    eval size s1 = Some 2 /\
    is_Some (cell (heap two_nodes) 1) /\ cell (heap s1) 1 = None.
Proof.
  destruct (pop_back_removes_last 2 two_nodes [[1; 2]; [3]] 3 [1; 2] 2)
    as (s1 & xss1 & Hp & _ & Hl & Hs & Hfree).
  - wf_by_evaluation [0; 1]%nat.
  - reflexivity.
  - discriminate.
  - cbn. lia.
  - destruct (Hfree 1%nat eq_refl eq_refl) as [Ha Hc].
    exists s1. split; [exact Hp|]. split; [exact Hl|]. split; [exact Hs|].
    split; [exact Ha | exact Hc].
Defined.

(** [clear] on the nodes [1 2] [3]: the nodes at the addresses 0 and 1 are
    freed. *)
Lemma clear_empties_witness :
  exists s1,
    clear 2 two_nodes = Some (tt, s1) /\
    head s1 = None /\ tail s1 = None /\ size_ s1 = 0 /\
    cell (heap s1) 0 = None /\ cell (heap s1) 1 = None.
Proof.
  destruct (clear_empties 2 two_nodes [[1; 2]; [3]] 2)
    as (s1 & Hc & Hh & Ht & Hs & _ & _ & _ & Hfreed & _).
  - wf_by_evaluation [0; 1]%nat.
  - cbn. lia.
  - destruct (Hfreed 0%nat (mk_iterator (Some 0%nat) 0) 0%nat eq_refl eq_refl) as [_ H0].
    destruct (Hfreed 2%nat (mk_iterator (Some 1%nat) 0) 1%nat eq_refl eq_refl) as [_ H1].
    exists s1. repeat split; assumption.
Defined.

(** 7 8 9 assigned to the nodes [1 2] [3]. *)
Lemma assign_range_replaces_witness :
  exists s1,
    assign_range 2 3 [7; 8; 9] two_nodes = Some (tt, s1) /\
    eval (to_list 3) s1 = Some [7; 8; 9].
Proof.
  destruct (assign_range_replaces 2 two_nodes [[1; 2]; [3]] [7; 8; 9] 3)
    as (s1 & yss & Ha & _ & Hl & _).
  - lia.
  - wf_by_evaluation [0; 1]%nat.
  - reflexivity.
  - cbn. lia.
  - cbn. lia.
  - exists s1. split; assumption.
Defined.

(** The nodes [1 2] [3] resized to one element. *)
Lemma resize_shrinks_witness :
  exists s1,
    resize 2 2 1 0 two_nodes = Some (tt, s1) /\
    eval (to_list 2) s1 = Some [1] /\
    eval size s1 = Some 1.
Proof.
  destruct (resize_shrinks 2 two_nodes [[1; 2]; [3]] 1 0 2) as (s1 & xss1 & Hr & _ & Hl & Hs).
  - wf_by_evaluation [0; 1]%nat.
  - split; [lia | cbn; lia].
  - cbn. lia.
  - cbn. lia.
  - exists s1. repeat split; assumption.
Defined.

(** The nodes [1 2] [3] assigned to the container 1 2 3 4 of one node. *)
Lemma operator_assign_equal_witness :
  exists s1,
    operator_assign 4 3 (default ctor (ctor_range 4 [1; 2; 3])) full4 = Some (tt, s1) /\
    eval (to_list 3) s1 = Some [1; 2; 3] /\
    operator_eq 3 s1 (default ctor (ctor_range 4 [1; 2; 3])) = Some true.
Proof.
  destruct (operator_assign_equal 4 full4 [[1; 2; 3; 4]]
              (default ctor (ctor_range 4 [1; 2; 3])) [[1; 2; 3]] 3)
    as (s1 & zss & Ha & _ & Hl & He).
  - lia.
  - wf_by_evaluation [0]%nat.
  - wf_by_evaluation [0]%nat.
  - cbn. lia.
  - cbn. lia.
  - exists s1. repeat split; assumption.
Defined.

(** 9 inserted at index 1 of the full node 1 2 3 4. *)
Lemma insert_at_cursor_witness :
  exists s1 it1,
    insert 4 (mk_iterator (Some 0%nat) 1) 9 full4 = Some (it1, s1) /\
    eval (to_list 5) s1 = Some [1; 9; 2; 3; 4] /\
    deref it1 s1 = Some (9, s1).
Proof.
  destruct (insert_at_cursor 4 full4 [[1; 2; 3; 4]] 1 (mk_iterator (Some 0%nat) 1) 9 5)
    as (s1 & it1 & xss1 & Hi & _ & Hl & _ & _ & Hd).
  - lia.
  - wf_by_evaluation [0]%nat.
  - reflexivity.
  - cbn. lia.
  - reflexivity.
  - cbn. lia.
  - exists s1, it1. repeat split; assumption.
Defined.

(** 8 9 inserted at index 3 of the full node 1 2 3 4. *)
Lemma insert_range_at_cursor_witness :
  exists s1,
    insert_range 4 (mk_iterator (Some 0%nat) 3) [8; 9] full4 = Some (tt, s1) /\
    eval (to_list 6) s1 = Some [1; 2; 3; 8; 9; 4].
Proof.
  destruct (insert_range_at_cursor 4 full4 [[1; 2; 3; 4]] 3 (mk_iterator (Some 0%nat) 3)
              [8; 9] 6) as (s1 & xss1 & Hi & _ & Hl & _).
  - lia.
  - wf_by_evaluation [0]%nat.
  - reflexivity.
  - cbn. lia.
  - reflexivity.
  - cbn. lia.
  - exists s1. split; assumption.
Defined.

(** 8 9 put before the full node 1 2 3 4. *)
Lemma prepend_range_prepends_witness :
  exists s1,
    prepend_range 4 [8; 9] full4 = Some (tt, s1) /\
    eval (to_list 6) s1 = Some [8; 9; 1; 2; 3; 4].
Proof.
  destruct (prepend_range_prepends 4 full4 [[1; 2; 3; 4]] [8; 9] 6)
    as (s1 & xss1 & Hp & _ & Hl & _).
  - lia.
  - wf_by_evaluation [0]%nat.
  - reflexivity.
  - cbn. lia.
  - exists s1. split; assumption.
Defined.

(** Erasing 3 in the nodes [1 2] [3]: the cursor returned is [end()] and
    the node at address 1 is freed. *)
Lemma erase_at_cursor_witness :
  exists s1,
    erase (mk_iterator (Some 1%nat) 0) two_nodes = Some (end_, s1) /\
    eval (to_list 3) s1 = Some [1; 2] /\
    eval size s1 = Some 2 /\
    cell (heap s1) 1 = None.
Proof.
  destruct (erase_at_cursor 2 two_nodes [[1; 2]] [3] [] 0 (mk_iterator (Some 1%nat) 0) 3)
    as (s1 & it1 & xss & He & _ & Hl & Hs & _ & _ & Hfree).
  - wf_by_evaluation [0; 1]%nat.
  - cbn. lia.
  - left. discriminate.
  - reflexivity.
  - cbn. lia.
  - destruct (Hfree eq_refl) as (a & Ha & _ & Hc). injection Ha as <-.
    pose proof He as He'. vm_compute in He'. injection He' as <- _.
    exists s1. repeat split; assumption.
Defined.

(** Erasing from [begin()] to [end()] in 1 2 3. *)
Lemma erase_range_all_undefined_witness :
  (let* b := begin in erase_range 5 b end_) three = None.
Proof.
  apply (erase_range_all_undefined 10 three [[1; 2; 3]] 5).
  - reflexivity.
  - wf_by_evaluation [0]%nat.
  - discriminate.
Defined.

(** The nodes [1 2] [3] have three positions. *)
Lemma distance_is_size_witness :
  exists d,
    eval (let* b := begin in distance 3 b end_) two_nodes = Some d /\
    eval size two_nodes = Some (Z.of_nat d).
Proof.
  destruct (distance_is_size 2 two_nodes [[1; 2]; [3]] 3) as (d & Hd & Hs & _).
  - wf_by_evaluation [0; 1]%nat.
  - cbn. lia.
  - exists d. split; assumption.
Defined.

(** From the start of the node [3] back to the end of the node [1 2]. *)
Lemma decr_undoes_incr_witness :
  decr (mk_iterator (Some 1%nat) 0) two_nodes =
    Some (mk_iterator (Some 0%nat) 1, two_nodes) /\
  decr end_ two_nodes = None.
Proof.
  destruct (decr_undoes_incr 2 two_nodes [[1; 2]; [3]] 1
              (mk_iterator (Some 0%nat) 1) (mk_iterator (Some 1%nat) 0))
    as (Hd & _ & He).
  - wf_by_evaluation [0; 1]%nat.
  - cbn. lia.
  - reflexivity.
  - reflexivity.
  - split; assumption.
Defined.

(** The reverse traversal of 1 2 3. *)
Lemma reverse_traversal_defined_iff_empty_witness :
  to_list_reverse 3 three = None /\
  to_list_reverse 3 (ctor (T := Z)) = Some ([], ctor).
Proof.
  split.
  - apply (reverse_traversal_defined_iff_empty 10 three [[1; 2; 3]] 3).
    + wf_by_evaluation [0]%nat.
    + discriminate.
  - apply (reverse_traversal_defined_iff_empty 10 ctor [] 3).
    + apply wf_ctor.
    + reflexivity.
Defined.

(** [push_back(1); pop_back(); push_back(2);] *)
Lemma pop_back_then_push_back_witness :
  exists s1 s2,
    pop_back single = Some (tt, s1) /\
    push_back 10 2 s1 = Some (tt, s2) /\
    eval size s2 = Some 1 /\
    to_list 1 s2 = None.
Proof.
  destruct (pop_back_then_push_back 10 single 1 2)
    as (s1 & s2 & a & b & hn & Hp & Hq & Hs & _ & _ & _ & _ & _ & _ & _ & Hl).
  - lia.
  - wf_by_evaluation [0]%nat.
  - exists s1, s2. repeat split; try assumption. apply Hl.
Defined.

(** Inserting before the first element of an [unrolled_list<int, 1>]. *)
Lemma emplace_capacity_one_undefined_witness :
  emplace 1 (mk_iterator (Some 0%nat) 0) 9 one_slot = None.
Proof.
  apply (emplace_capacity_one_undefined one_slot [[1]; [2]] 0).
  - wf_by_evaluation [0; 1]%nat.
  - cbn. lia.
  - reflexivity.
Defined.

(** An [unrolled_list<int, 0>]. *)
Lemma push_capacity_zero_undefined_witness :
  push_back 0 7 ctor = None /\ push_front 0 7 ctor = None.
Proof.
  apply (push_capacity_zero_undefined ctor [] 7).
  apply wf_ctor.
Defined.

(** Two copies of 9 inserted at offset 3 of the full node 1 2 3 4. *)
Lemma insert_n_stale_cursor_witness :
  exists s2 nd2,
    insert_n 4 (mk_iterator (Some 0%nat) 3) 2 9 full4 =
      Some (mk_iterator (Some 0%nat) 3, s2) /\
    eval size s2 = Some 6 /\
    cell (heap s2) 0 = Some nd2 /\
    Node.size nd2 = 3 /\
    Node.elements nd2 = None.
Proof.
  destruct (insert_n_stale_cursor 4 full4 [] [1; 2; 3; 4] [] 3
              (mk_iterator (Some 0%nat) 3) 9)
    as (a & s2 & nd2 & Hit & Hi & Hs & Hc & Hsz & He & _).
  - lia.
  - wf_by_evaluation [0]%nat.
  - reflexivity.
  - split; reflexivity.
  - reflexivity.
  - reflexivity.
  - injection Hit as <-.
    exists s2, nd2. split; [exact Hi|].
    split; [unfold eval, size, get_size; cbn; now rewrite Hs|].
    split; [exact Hc|]. split; [exact Hsz | exact He].
Defined.
